(** * inject_protovalidate: constraint resolution and proto patching

    A shallow embedding of [src/main/python/inject_protovalidate.py] and the
    properties of its constraint model, trait extractor, alias and member
    passes, option builder and proto patcher.

    Text is a list of characters.  A character is a code point below 256
    (the type [ascii]); the character classes below are Python's classes for
    [str] patterns restricted to that range. *)

From Stdlib Require Import Ascii String ZArith Lia.
From stdpp Require Import base option list gmap strings.

Open Scope Z_scope.
Open Scope nat_scope.
Open Scope list_scope.

(** ** Text *)

Abbreviation str := (list ascii).

Definition lit (s : string) : str := list_ascii_of_string s.

Definition code (c : ascii) : nat := nat_of_ascii c.

Definition in_range (lo hi : nat) (c : ascii) : bool :=
  (lo <=? code c) && (code c <=? hi).

Definition chr_eqb (a b : ascii) : bool := Ascii.eqb a b.

(** [[0-9]], which is also [\d] below code point 256. *)
Definition is_digit (c : ascii) : bool := in_range 48 57 c.

Definition is_upper (c : ascii) : bool := in_range 65 90 c.
Definition is_lower (c : ascii) : bool := in_range 97 122 c.

(** [\w]: alphanumeric or underscore. *)
Definition is_word (c : ascii) : bool :=
  is_digit c || is_upper c || is_lower c || (code c =? 95)
  || (code c =? 170) || (code c =? 178) || (code c =? 179) || (code c =? 181)
  || (code c =? 185) || (code c =? 186) || in_range 188 190 c
  || in_range 192 214 c || in_range 216 246 c || in_range 248 255 c.

(** [\s] and [str.isspace]. *)
Definition is_space (c : ascii) : bool :=
  in_range 9 13 c || in_range 28 32 c || (code c =? 133) || (code c =? 160).

(** Line boundaries of [str.splitlines], except the pair CR LF. *)
Definition is_linebreak (c : ascii) : bool :=
  in_range 10 13 c || in_range 28 30 c || (code c =? 133).

Definition to_lower (c : ascii) : ascii :=
  if is_upper c then ascii_of_nat (code c + 32) else c.

Definition str_eqb (a b : str) : bool := bool_decide (a = b).

(** [s.startswith(p)] *)
Fixpoint startswith (p s : str) : bool :=
  match p, s with
  | [], _ => true
  | a :: p', b :: s' => chr_eqb a b && startswith p' s'
  | _ :: _, [] => false
  end.

(** [s.endswith(p)] *)
Definition endswith (p s : str) : bool := startswith (rev p) (rev s).

(** [p in s] *)
Fixpoint contains (p s : str) : bool :=
  startswith p s || match s with [] => false | _ :: s' => contains p s' end.

(** [s.lstrip(chars)], [s.rstrip(chars)], [s.strip(chars)] for a class *)
Fixpoint lstrip (p : ascii -> bool) (s : str) : str :=
  match s with
  | c :: s' => if p c then lstrip p s' else s
  | [] => []
  end.

Definition rstrip (p : ascii -> bool) (s : str) : str := rev (lstrip p (rev s)).

Definition strip (p : ascii -> bool) (s : str) : str := rstrip p (lstrip p s).

Definition one_of (cs : str) (c : ascii) : bool := existsb (chr_eqb c) cs.

(** [s.replace(old, new)] for a non-empty [old]: occurrences are replaced left
    to right without overlap; [skip] counts the characters of the occurrence
    just replaced that are still to be passed over. *)
Fixpoint replace_go (old new : str) (skip : nat) (s : str) : str :=
  match s with
  | [] => []
  | c :: s' =>
      match skip with
      | S n => replace_go old new n s'
      | 0 => if startswith old s
             then new ++ replace_go old new (length old - 1) s'
             else c :: replace_go old new 0 s'
      end
  end.

Definition replace (old new s : str) : str := replace_go old new 0 s.

(** [sep.join(parts)] *)
Fixpoint join (sep : str) (parts : list str) : str :=
  match parts with
  | [] => []
  | [p] => p
  | p :: rest => p ++ sep ++ join sep rest
  end.

(** [s.splitlines()] *)
Fixpoint splitlines_from (cur : str) (s : str) : list str :=
  match s with
  | [] => match cur with [] => [] | _ => [rev cur] end
  | c :: t =>
      if code c =? 13 then
        match t with
        | d :: t' => if code d =? 10 then rev cur :: splitlines_from [] t'
                     else rev cur :: splitlines_from [] t
        | [] => [rev cur]
        end
      else if is_linebreak c then rev cur :: splitlines_from [] t
      else splitlines_from (c :: cur) t
  end.

Definition splitlines (s : str) : list str := splitlines_from [] s.

(** The first occurrence of [sub] in [s], counted from [pos], or [-1]. *)
Fixpoint find_from (sub s : str) (pos : nat) : Z :=
  if startswith sub s then Z.of_nat pos
  else match s with
       | [] => (-1)%Z
       | _ :: s' => find_from sub s' (S pos)
       end.

(** A slice bound as Python reads it: negative bounds count from the end, and
    every bound is clamped to the text. *)
Definition slice_bound (len : nat) (i : Z) : nat :=
  if (i <? 0)%Z then Z.to_nat (Z.of_nat len + i)
  else Nat.min (Z.to_nat i) len.

(** [s[a:b]] *)
Definition slice (s : str) (a b : Z) : str :=
  let lo := slice_bound (length s) a in
  let hi := slice_bound (length s) b in
  take (hi - lo) (drop lo s).

(** [s.find(sub, start)]; [start] is read as a slice bound. *)
Definition find (sub s : str) (start : Z) : Z :=
  let lo := slice_bound (length s) start in
  find_from sub (drop lo s) lo.

(** ** Regular expressions

    The patterns of the script use literals, character classes, sequence,
    alternation, greedy repetition, capturing groups, the word boundary and the
    start anchor.  The matcher is the backtracking matcher of Python's [re]:
    alternatives are tried left to right, a repetition first tries one more
    round, and the first way to match wins. *)

Inductive regex : Type :=
| Eps : regex                          (* the empty pattern *)
| Cls : (ascii -> bool) -> regex       (* one character of a class *)
| Seq : regex -> regex -> regex
| Alt : regex -> regex -> regex        (* r1|r2 *)
| Star : regex -> regex                (* r*, greedy *)
| Grp : nat -> regex -> regex          (* capturing group number n *)
| Bow : regex                          (* \b *)
| Bos : regex.                         (* ^ without re.M *)

Definition Plus (r : regex) : regex := Seq r (Star r).
Definition Opt (r : regex) : regex := Alt r Eps.
Definition seqs (rs : list regex) : regex := foldr Seq Eps rs.
Definition Chr (c : ascii) : regex := Cls (chr_eqb c).
(** a literal, and a literal under re.I *)
Definition Lit (s : string) : regex := seqs (map Chr (lit s)).
Definition ChrI (c : ascii) : regex :=
  Cls (fun d => chr_eqb (to_lower c) (to_lower d)).
Definition LitI (s : string) : regex := seqs (map ChrI (lit s)).
Definition NotOf (cs : string) : regex := Cls (fun c => negb (one_of (lit cs) c)).

(** The state of one match attempt: the text already passed (last character
    first), the text still ahead, and the groups captured so far (latest
    binding first). *)
Record mstate : Type := MState {
  passed : str;
  ahead : str;
  groups : list (nat * str);
}.

Definition word_before (st : mstate) : bool :=
  match passed st with c :: _ => is_word c | [] => false end.

Definition word_after (st : mstate) : bool :=
  match ahead st with c :: _ => is_word c | [] => false end.

Definition at_boundary (st : mstate) : bool :=
  xorb (word_before st) (word_after st).

Definition set_group (n : nat) (from to : mstate) : mstate :=
  MState (passed to) (ahead to)
         ((n, take (length (ahead from) - length (ahead to)) (ahead from))
            :: groups to).

Definition or_else {A} (a b : option A) : option A :=
  match a with Some x => Some x | None => b end.

(** The rounds of a repetition: each round must consume text, and at most
    [fuel] rounds are tried; the text ahead bounds their number. *)
Section Rounds.
Context {A : Type} (body : mstate -> (mstate -> option A) -> option A)
        (k : mstate -> option A).

Fixpoint rounds (fuel : nat) (st : mstate) : option A :=
  match fuel with
  | 0 => k st
  | S fuel' =>
      or_else
        (body st (fun st1 =>
                    if length (ahead st1) <? length (ahead st)
                    then rounds fuel' st1 else None))
        (k st)
  end.
End Rounds.

Fixpoint rmatch {A} (r : regex) (st : mstate) (k : mstate -> option A)
  : option A :=
  match r with
  | Eps => k st
  | Cls p =>
      match ahead st with
      | c :: t => if p c then k (MState (c :: passed st) t (groups st)) else None
      | [] => None
      end
  | Seq r1 r2 => rmatch r1 st (fun st1 => rmatch r2 st1 k)
  | Alt r1 r2 => or_else (rmatch r1 st k) (rmatch r2 st k)
  | Star r1 => rounds (rmatch r1) k (length (ahead st)) st
  | Grp n r1 => rmatch r1 st (fun st1 => k (set_group n st st1))
  | Bow => if at_boundary st then k st else None
  | Bos => match passed st with [] => k st | _ :: _ => None end
  end.

(** A match object: where it starts and ends in the text, and its groups. *)
Record rmatch_result : Type := Match {
  m_start : nat;
  m_end : nat;
  m_groups : list (nat * str);
  m_rest : mstate;     (* the matcher's state at the end of the match *)
}.

Definition mk_match (start : nat) (st : mstate) : rmatch_result :=
  Match start (length (passed st)) (groups st) st.

(** [m.group(n)], [None] for a group that took no part in the match *)
Fixpoint assoc (n : nat) (gs : list (nat * str)) : option str :=
  match gs with
  | [] => None
  | (i, s) :: gs' => if i =? n then Some s else assoc n gs'
  end.

Definition group (m : rmatch_result) (n : nat) : option str :=
  assoc n (m_groups m).

(** [rx.match(s)] *)
Definition re_match (r : regex) (s : str) : option rmatch_result :=
  rmatch r (MState [] s []) (fun st => Some (mk_match 0 st)).

(** [rx.fullmatch(s)] *)
Definition re_fullmatch (r : regex) (s : str) : option rmatch_result :=
  rmatch r (MState [] s [])
         (fun st => match ahead st with
                    | [] => Some (mk_match 0 st)
                    | _ :: _ => None
                    end).

(** The leftmost match that starts at or after the current position. *)
Fixpoint search_from (r : regex) (before : str) (rest : str)
  : option rmatch_result :=
  or_else
    (rmatch r (MState before rest [])
            (fun st => Some (mk_match (length before) st)))
    (match rest with
     | [] => None
     | c :: t => search_from r (c :: before) t
     end).

(** [re.search(rx, s)] *)
Definition re_search (r : regex) (s : str) : option rmatch_result :=
  search_from r [] s.

(** [rx.finditer(s)]: the matches from left to right, without overlap.  The
    next search starts where the last match ended; after an empty match it
    starts one character further. *)
Fixpoint finditer_from (fuel : nat) (r : regex) (before rest : str)
  : list rmatch_result :=
  match fuel with
  | 0 => []
  | S fuel' =>
      match search_from r before rest with
      | None => []
      | Some m =>
          let st := m_rest m in
          m :: (if m_start m <? m_end m
                then finditer_from fuel' r (passed st) (ahead st)
                else match ahead st with
                     | [] => []
                     | c :: t => finditer_from fuel' r (c :: passed st) t
                     end)
      end
  end.

Definition finditer (r : regex) (s : str) : list rmatch_result :=
  finditer_from (S (length s)) r [] s.

(** [m.group(0)] *)
Definition whole (s : str) (m : rmatch_result) : str :=
  take (m_end m - m_start m) (drop (m_start m) s).

(** [rx.findall(s)] for a pattern without groups *)
Definition findall (r : regex) (s : str) : list str :=
  map (whole s) (finditer r s).

(** ** Trait model *)

Record Constraints : Type := MkConstraints {
  str_min : option str;
  str_max : option str;
  num_min : option str;
  num_max : option str;
  rep_min : option str;
  rep_max : option str;
  unique : bool;
}.

(** [Constraints()] *)
Definition no_constraints : Constraints :=
  MkConstraints None None None None None None false.

(** Truth value of an [Optional[str]]: [None] and the empty text are false. *)
Definition truthy (o : option str) : bool :=
  match o with
  | Some (_ :: _) => true
  | _ => false
  end.

(** [a or b] on [Optional[str]] *)
Definition por (a b : option str) : option str := if truthy a then a else b.

Definition merge (self other : Constraints) : Constraints :=
  MkConstraints
    (por (str_min other) (str_min self))
    (por (str_max other) (str_max self))
    (por (num_min other) (num_min self))
    (por (num_max other) (num_max self))
    (por (rep_min other) (rep_min self))
    (por (rep_max other) (rep_max self))
    (unique self || unique other).

(** [Constraints.__bool__] *)
Definition nonempty (c : Constraints) : bool :=
  truthy (str_min c) || truthy (str_max c)
  || truthy (num_min c) || truthy (num_max c)
  || truthy (rep_min c) || truthy (rep_max c)
  || unique c.

(** ** Regex helpers *)

Definition word : regex := Cls is_word.
Definition space : regex := Cls is_space.
Definition digit : regex := Cls is_digit.
Definition dquote : ascii := ascii_of_nat 34.
Definition newline : ascii := ascii_of_nat 10.

(** [\bstructure\s+(\w+)\s*{], re.I *)
Definition RE_STRUCT : regex :=
  seqs [Bow; LitI "structure"; Plus space; Grp 1 (Plus word); Star space;
        Lit "{"].

(** [@\w+[^@{}]*] *)
Definition RE_TRAIT : regex :=
  seqs [Lit "@"; Plus word; Star (NotOf "@{}")].

(** [\bstring\s+(\w+)\b], re.I *)
Definition RE_STRING_ALIAS : regex :=
  seqs [Bow; LitI "string"; Plus space; Grp 1 (Plus word); Bow].

(** [\blist\s+(\w+)\s*{], re.I *)
Definition RE_LIST_ALIAS : regex :=
  seqs [Bow; LitI "list"; Plus space; Grp 1 (Plus word); Star space; Lit "{"].

(** The groups of [MEMBER_RX] by name. *)
Definition g_traits : nat := 1.
Definition g_name : nat := 2.
Definition g_target : nat := 3.

(** [MEMBER_RX], under re.M, is the sequence of
    - [\s*], then the group [traits], which holds any number of rounds of
      [@\w+[^\n]*\n\s*] (a trait line and the blanks after it),
    - [\s*(?P<name>\w+)\s*:\s*(?P<target>\w+)], the member line. *)
Definition MEMBER_RX : regex :=
  seqs [Star space;
        Grp g_traits
            (Star (seqs [Lit "@"; Plus word;
                         Star (Cls (fun c => negb (chr_eqb newline c)));
                         Chr newline; Star space]));
        Star space; Grp g_name (Plus word); Star space; Lit ":"; Star space;
        Grp g_target (Plus word)].

(** [^\s*message\s+(\w+)\s*{], re.I *)
Definition MSG_RX : regex :=
  seqs [Bos; Star space; LitI "message"; Plus space; Grp 1 (Plus word);
        Star space; Lit "{"].

(** [FIELD_RX], under re.I: [^\s*(repeated\s+|optional\s+)?], then
    [(\w+)\s+(\w+)\s*=\s*(\d+)], then group 5 holding [[^;]*], then [;]. *)
Definition FIELD_RX : regex :=
  seqs [Bos; Star space;
        Opt (Grp 1 (Alt (Seq (LitI "repeated") (Plus space))
                        (Seq (LitI "optional") (Plus space))));
        Grp 2 (Plus word); Plus space; Grp 3 (Plus word); Star space; Lit "=";
        Star space; Grp 4 (Plus digit); Grp 5 (Star (NotOf ";")); Lit ";"].

(** ** Trait extraction helpers *)

(** The pattern of [_pick]: [\b{key}\s*:\s*] and then group 1 holding
    [-?[0-9]+(?:\.[0-9]+)?], a number. *)
Definition number : regex :=
  seqs [Opt (Lit "-"); Plus digit; Opt (Seq (Lit ".") (Plus digit))].

Definition pick_rx (key : string) : regex :=
  seqs [Bow; Lit key; Star space; Lit ":"; Star space; Grp 1 number].

Definition _pick (blob : str) (key : string) : option str :=
  match re_search (pick_rx key) blob with
  | Some m => group m 1
  | None => None
  end.

Definition parens : ascii -> bool := one_of (lit "()").

(** One round of the loop of [gather_constraints]. *)
Definition apply_trait (c : Constraints) (trait : str) : Constraints :=
  if startswith (lit "@length") trait then
    let inner := strip parens (drop 8 trait) in
    let c1 := MkConstraints (por (_pick inner "min") (str_min c)) (str_max c)
                (num_min c) (num_max c) (rep_min c) (rep_max c) (unique c) in
    let c2 := MkConstraints (str_min c1) (por (_pick inner "max") (str_max c1))
                (num_min c1) (num_max c1) (rep_min c1) (rep_max c1) (unique c1) in
    let c3 := MkConstraints (str_min c2) (str_max c2) (num_min c2) (num_max c2)
                (por (_pick inner "min") (rep_min c2)) (rep_max c2) (unique c2) in
    MkConstraints (str_min c3) (str_max c3) (num_min c3) (num_max c3)
      (rep_min c3) (por (_pick inner "max") (rep_max c3)) (unique c3)
  else if startswith (lit "@range") trait then
    let inner := strip parens (drop 7 trait) in
    let c1 := MkConstraints (str_min c) (str_max c)
                (por (_pick inner "min") (num_min c)) (num_max c)
                (rep_min c) (rep_max c) (unique c) in
    MkConstraints (str_min c1) (str_max c1) (num_min c1)
      (por (_pick inner "max") (num_max c1)) (rep_min c1) (rep_max c1) (unique c1)
  else if startswith (lit "@uniqueItems") trait then
    MkConstraints (str_min c) (str_max c) (num_min c) (num_max c)
      (rep_min c) (rep_max c) true
  else c.

Definition gather_constraints (trait_block : str) : Constraints :=
  fold_left apply_trait (findall RE_TRAIT trait_block) no_constraints.

(** [m.group(n)] as text; the empty text stands for a group that took no part
    in the match, as in [m.group(n) or ""]. *)
Definition group_text (m : rmatch_result) (n : nat) : str :=
  default [] (group m n).

(** ** Pass 1: alias-level constraints *)

Definition string_alias_entry (txt : str) (m : rmatch_result)
  : str * Constraints :=
  (group_text m 1, gather_constraints (take (m_start m) txt)).

Definition list_alias_entry (txt : str) (m : rmatch_result)
  : str * Constraints :=
  let alias := group_text m 1 in
  let brace_open := find (lit "{") txt (Z.of_nat (m_end m) - 1) in
  let brace_close := find (lit "}") txt brace_open in
  let block :=
    if (brace_close =? -1)%Z then drop (m_start m) txt
    else slice txt (Z.of_nat (m_start m)) (brace_close + 1) in
  (alias, gather_constraints block).

Definition store {K} `{Countable K} (m : gmap K Constraints)
    (e : K * Constraints) : gmap K Constraints :=
  <[e.1 := e.2]> m.

Definition alias_pass_file (ac : gmap str Constraints) (txt : str)
  : gmap str Constraints :=
  let ac1 := fold_left store
               (map (string_alias_entry txt) (finditer RE_STRING_ALIAS txt)) ac in
  fold_left store (map (list_alias_entry txt) (finditer RE_LIST_ALIAS txt)) ac1.

Definition alias_pass (files : list str) : gmap str Constraints :=
  fold_left alias_pass_file files ∅.

(** ** Pass 2: member-level constraints *)

(** The effective constraint of a member with the given trait lines and
    target. *)
Definition resolve_member (ac : gmap str Constraints) (traits target : str)
  : Constraints :=
  let cons := gather_constraints traits in
  match ac !! target with
  | Some a => merge a cons
  | None => cons
  end.

Definition member_step (ac : gmap str Constraints) (struct : str)
    (mc : gmap (str * str) Constraints) (mem : rmatch_result)
  : gmap (str * str) Constraints :=
  let traits := group_text mem g_traits in
  let name := group_text mem g_name in
  let target := group_text mem g_target in
  let cons := resolve_member ac traits target in
  if nonempty cons then <[(struct, name) := cons]> mc else mc.

Definition struct_step (ac : gmap str Constraints) (txt : str)
    (mc : gmap (str * str) Constraints) (st : rmatch_result)
  : gmap (str * str) Constraints :=
  let struct := group_text st 1 in
  let body := slice txt (Z.of_nat (m_end st))
                (find (lit "}") txt (Z.of_nat (m_end st))) in
  fold_left (member_step ac struct) (finditer MEMBER_RX body) mc.

Definition member_pass_file (ac : gmap str Constraints)
    (mc : gmap (str * str) Constraints) (txt : str)
  : gmap (str * str) Constraints :=
  fold_left (struct_step ac txt) (finditer RE_STRUCT txt) mc.

Definition member_pass (ac : gmap str Constraints) (files : list str)
  : gmap (str * str) Constraints :=
  fold_left (member_pass_file ac) files ∅.

(** ** Option string builder *)

(** [if v: attrs.append(f"{key} = {v}")] *)
Definition bound_attr (key : str) (v : option str) : list str :=
  match v with
  | Some t => if truthy v then [key ++ lit " = " ++ t] else []
  | None => []
  end.

Definition numcat (ftype : str) : str :=
  if str_eqb ftype (lit "double") then lit "double"
  else if str_eqb ftype (lit "float") then lit "float"
  else if endswith (lit "64") ftype then lit "int64"
  else lit "int32".

Definition option_attrs (ftype : str) (repeated : bool) (c : Constraints)
  : list str :=
  if repeated then
    bound_attr (lit "repeated.min_items") (rep_min c)
    ++ bound_attr (lit "repeated.max_items") (rep_max c)
    ++ (if unique c then [lit "repeated.unique = true"] else [])
  else if str_eqb ftype (lit "string") then
    bound_attr (lit "string.min_len") (str_min c)
    ++ bound_attr (lit "string.max_len") (str_max c)
  else
    let cat := numcat ftype in
    bound_attr (cat ++ lit ".gte") (num_min c)
    ++ bound_attr (cat ++ lit ".lte") (num_max c).

Definition field_prefix : str := lit "(buf.validate.field).".

Definition format_attrs (attrs : list str) : str :=
  match attrs with
  | [] => []
  | [a] => replace (lit "((") (lit "(")
             (lit " [(" ++ field_prefix ++ a ++ lit ")]")
  | _ =>
      let lined := join (lit "," ++ [newline] ++ lit "  ")
                        (map (fun a => field_prefix ++ a) attrs) in
      lit " [" ++ [newline] ++ lit "  " ++ lined ++ [newline] ++ lit "]"
  end.

Definition build_option (ftype : str) (repeated : bool) (c : Constraints)
  : str :=
  format_attrs (option_attrs ftype repeated c).

(** ** Proto patching *)

Definition semicolon : ascii -> bool := one_of (lit ";").

Definition marker : str := lit "buf.validate.field".

Definition IMPORT_LINE : str :=
  lit "import " ++ [dquote] ++ lit "buf/validate/validate.proto" ++ [dquote]
  ++ lit ";".

(** [\s*import\s+"buf/validate/validate\.proto";] *)
Definition IMPORT_RX : regex :=
  seqs [Star space; Lit "import"; Plus space; Chr dquote;
        Lit "buf/validate/validate.proto"; Chr dquote; Lit ";"].

(** The state of the line loop: the enclosing message, whether a line was
    rewritten, and the number of rewritten lines. *)
Record pstate : Type := PState {
  ctx : option str;
  dirty : bool;
  patched : nat;
}.

(** [(rep_kw or "").strip() == "repeated"] for a match of [FIELD_RX] *)
Definition field_repeated (m : rmatch_result) : bool :=
  str_eqb (strip is_space (group_text m 1)) (lit "repeated").

(** The option to append to a field line matched by [FIELD_RX] inside the
    message [ctx_name], if any. *)
Definition field_option (mc : gmap (str * str) Constraints) (ctx_name : str)
    (m : rmatch_result) : option str :=
  let ftype := group_text m 2 in
  let fname := group_text m 3 in
  let tail := group_text m 5 in
  let repeated := field_repeated m in
  if contains marker tail then None
  else match mc !! (ctx_name, fname) with
       | None => None
       | Some cs =>
           if nonempty cs then
             match build_option ftype repeated cs with
             | [] => None
             | opt => Some opt
             end
           else None
       end.

(** One round of the line loop: the new state and the line as it is left. *)
Definition patch_line (mc : gmap (str * str) Constraints) (st : pstate)
    (line : str) : pstate * str :=
  match re_match MSG_RX line with
  | Some m => (PState (group m 1) (dirty st) (patched st), line)
  | None =>
      match re_match FIELD_RX line with
      | Some m =>
          if truthy (ctx st) then
            match field_option mc (default [] (ctx st)) m with
            | Some opt =>
                (PState (ctx st) true (S (patched st)),
                 rstrip semicolon line ++ opt ++ lit ";")
            | None => (st, line)
            end
          else (st, line)
      | None => (st, line)
      end
  end.

Fixpoint patch_lines (mc : gmap (str * str) Constraints) (st : pstate)
    (lines : list str) : pstate * list str :=
  match lines with
  | [] => (st, [])
  | line :: rest =>
      let (st1, line') := patch_line mc st line in
      let (st2, rest') := patch_lines mc st1 rest in
      (st2, line' :: rest')
  end.

Definition is_import (l : str) : bool :=
  match re_fullmatch IMPORT_RX l with Some _ => true | None => false end.

(** [[idx for idx, l in enumerate(lines) if IMPORT_RX.fullmatch(l)]] *)
Fixpoint import_indices_from (idx : nat) (lines : list str) : list nat :=
  match lines with
  | [] => []
  | l :: rest =>
      if is_import l then idx :: import_indices_from (S idx) rest
      else import_indices_from (S idx) rest
  end.

Definition import_indices (lines : list str) : list nat :=
  import_indices_from 0 lines.

(** [lines.insert(i, x)]: past the end the line is appended. *)
Definition list_insert_at {A} (i : nat) (x : A) (l : list A) : list A :=
  take i l ++ x :: drop i l.

Definition header_first (lines : list str) : bool :=
  (1 <? length lines)
  && startswith (lit "syntax") (default [] (lines !! 0))
  && startswith (lit "package") (default [] (lines !! 1)).

Definition normalise_imports (dirty : bool) (lines : list str) : list str :=
  match import_indices lines with
  | first :: others =>
      fold_left (fun ls idx => delete idx ls) (rev others)
                (<[first := IMPORT_LINE]> lines)
  | [] =>
      if dirty
      then list_insert_at (if header_first lines then 2 else 1) IMPORT_LINE lines
      else lines
  end.

(** The treatment of one proto file: the text written back, or [None] when
    the file is not written, and the number of fields patched in it. *)
Definition patch_file (mc : gmap (str * str) Constraints) (text : str)
  : option str * nat :=
  let (st, lines) := patch_lines mc (PState None false 0) (splitlines text) in
  let imports := import_indices lines in
  let lines' := normalise_imports (dirty st) lines in
  (if dirty st || negb (bool_decide (imports = []))
   then Some (join [newline] lines') else None,
   patched st).

(** The content of a file after the tool has treated it. *)
Definition patched_text (mc : gmap (str * str) Constraints) (text : str)
  : str :=
  default text (patch_file mc text).1.

(** The whole run over a source corpus and a target corpus: the target files
    afterwards, the number of patched fields and the number of proto files. *)
Definition member_constraints (smithy : list str)
  : gmap (str * str) Constraints :=
  member_pass (alias_pass smithy) smithy.

Definition run (smithy protos : list str) : list str * (nat * nat) :=
  let mc := member_constraints smithy in
  (map (patched_text mc) protos,
   (foldr Nat.add 0 (map (fun t => (patch_file mc t).2) protos),
    length protos)).

(** * Specification vocabulary *)

(** ** A declarative reading of the patterns *)

(** [matches r st st']: the pattern [r] can lead the matcher from [st] to
    [st']. *)
Inductive matches : regex -> mstate -> mstate -> Prop :=
| M_Eps st : matches Eps st st
| M_Cls p c t st :
    ahead st = c :: t -> p c = true ->
    matches (Cls p) st (MState (c :: passed st) t (groups st))
| M_Seq r1 r2 st st1 st2 :
    matches r1 st st1 -> matches r2 st1 st2 -> matches (Seq r1 r2) st st2
| M_AltL r1 r2 st st1 : matches r1 st st1 -> matches (Alt r1 r2) st st1
| M_AltR r1 r2 st st1 : matches r2 st st1 -> matches (Alt r1 r2) st st1
| M_StarNil r st : matches (Star r) st st
| M_StarCons r st st1 st2 :
    matches r st st1 -> matches (Star r) st1 st2 -> matches (Star r) st st2
| M_Grp n r st st1 :
    matches r st st1 -> matches (Grp n r) st (set_group n st st1)
| M_Bow st : at_boundary st = true -> matches Bow st st
| M_Bos st : passed st = [] -> matches Bos st st.

(** What a match consumes: the text ahead shrinks by a word [w] whose
    characters all come from the classes of the pattern. *)
Fixpoint classes_in (P : ascii -> Prop) (r : regex) : Prop :=
  match r with
  | Cls p => forall c, p c = true -> P c
  | Seq r1 r2 | Alt r1 r2 => classes_in P r1 /\ classes_in P r2
  | Star r1 | Grp _ r1 => classes_in P r1
  | Eps | Bow | Bos => True
  end.

(** Patterns that cannot match the empty text. *)
Fixpoint consuming (r : regex) : bool :=
  match r with
  | Cls _ => true
  | Seq r1 r2 => consuming r1 || consuming r2
  | Alt r1 r2 => consuming r1 && consuming r2
  | Grp _ r1 => consuming r1
  | Eps | Star _ | Bow | Bos => false
  end.

(** ** Numeric literals *)

(** The characters of a number as [_pick] reads it. *)
Definition numchar (c : ascii) : bool :=
  is_digit c || chr_eqb "-" c || chr_eqb "." c.

(** A numeric literal as text: not empty, made of digits, sign and point. *)
Definition numeric_text (v : str) : Prop :=
  v <> [] /\ Forall (fun c => numchar c = true) v.

(** A bound is well formed when it is unset or holds a numeric literal. *)
Definition wf_bound (o : option str) : Prop :=
  forall v, o = Some v -> numeric_text v.

Record wf (c : Constraints) : Prop := MkWf {
  wf_str_min : wf_bound (str_min c);
  wf_str_max : wf_bound (str_max c);
  wf_num_min : wf_bound (num_min c);
  wf_num_max : wf_bound (num_max c);
  wf_rep_min : wf_bound (rep_min c);
  wf_rep_max : wf_bound (rep_max c);
}.


(** ** The length invariant *)

(** The string bounds and the repeated bounds of a constraint agree. *)
Definition length_linked (c : Constraints) : Prop :=
  str_min c = rep_min c /\ str_max c = rep_max c.

(** What "B's value when B's field is present, and A's value otherwise"
    means for one optional bound. *)
Definition right_biased (a b : option str) : option str :=
  match b with
  | Some v => Some v
  | None => a
  end.

(** The same as a test that computes. *)
Definition numeric_textb (v : str) : bool :=
  match v with [] => false | _ :: _ => forallb numchar v end.

Definition wf_boundb (o : option str) : bool :=
  match o with Some v => numeric_textb v | None => true end.

Definition wfb (c : Constraints) : bool :=
  wf_boundb (str_min c) && wf_boundb (str_max c)
  && wf_boundb (num_min c) && wf_boundb (num_max c)
  && wf_boundb (rep_min c) && wf_boundb (rep_max c).

(** ** The shape of an annotation *)

(** The text of one attribute: its name, [ = ] and its value. *)
Definition attr_text (key v : str) : str := key ++ lit " = " ++ v.

(** The attributes for a minimum and a maximum bound, the minimum first, each
    only when the bound is set. *)
Definition bound_attrs (kmin kmax : str) (lo hi : option str) : list str :=
  from_option (fun v => [attr_text kmin v]) [] lo
  ++ from_option (fun v => [attr_text kmax v]) [] hi.

(** How the numeric category follows from the declared type name. *)
Definition numeric_category (ftype cat : str) : Prop :=
  (ftype = lit "double" /\ cat = lit "double")
  \/ (ftype = lit "float" /\ cat = lit "float")
  \/ (ftype <> lit "double" /\ ftype <> lit "float"
      /\ (exists p, ftype = p ++ lit "64") /\ cat = lit "int64")
  \/ (ftype <> lit "double" /\ ftype <> lit "float"
      /\ ~ (exists p, ftype = p ++ lit "64") /\ cat = lit "int32").

(** The names for the minimum and the maximum bound of a category. *)
Definition bound_keys (ftype : str) (kmin kmax : str) : Prop :=
  (kmin = lit "repeated.min_items" /\ kmax = lit "repeated.max_items")
  \/ (kmin = lit "string.min_len" /\ kmax = lit "string.max_len")
  \/ (kmin = numcat ftype ++ lit ".gte" /\ kmax = numcat ftype ++ lit ".lte").

(** ** Rewritten lines *)

(** [line'] is [line] rewritten with the option text [opt]: the line without
    the semicolons at its end, the option, and one semicolon. *)
Definition rewritten_with (opt line line' : str) : Prop :=
  line' = rstrip semicolon line ++ opt ++ lit ";".

(** A line is left as it is or rewritten with a non-empty option. *)
Definition kept_or_rewritten (line line' : str) : Prop :=
  line' = line \/ exists opt, opt <> [] /\ rewritten_with opt line line'.

(** ** Import lines *)

(** The number of lines that are an import of the validation library. *)
Definition count_imports (lines : list str) : nat :=
  length (List.filter is_import lines).

(** The lines that are no import of the validation library. *)
Definition without_imports (lines : list str) : list str :=
  List.filter (fun l => negb (is_import l)) lines.

(** A text without an opening parenthesis. *)
Definition no_paren (s : str) : bool :=
  forallb (fun c => negb (chr_eqb "(" c)) s.

(** ** The shape of a number *)

Definition digits (w : str) : Prop :=
  w <> [] /\ Forall (fun c => is_digit c = true) w.

(** An optional minus sign, digits, and optionally a point and digits. *)
Definition numeric_literal (v : str) : Prop :=
  exists sign whole_part frac,
    v = sign ++ whole_part ++ frac
    /\ (sign = [] \/ sign = lit "-")
    /\ digits whole_part
    /\ (frac = [] \/ exists d, frac = lit "." ++ d /\ digits d).

(** Every bound that is set satisfies [Q]. *)
Definition all_bounds (Q : str -> Prop) (c : Constraints) : Prop :=
  forall v,
    (str_min c = Some v \/ str_max c = Some v \/ num_min c = Some v
     \/ num_max c = Some v \/ rep_min c = Some v \/ rep_max c = Some v) ->
    Q v.

(** ** The parts of a field line *)

(** Patterns without a capturing group. *)
Fixpoint group_free (r : regex) : bool :=
  match r with
  | Grp _ _ => false
  | Seq r1 r2 | Alt r1 r2 => group_free r1 && group_free r2
  | Star r1 => group_free r1
  | Eps | Cls _ | Bow | Bos => true
  end.

(** The characters [FIELD_RX] accepts before the tail of a field line: blanks,
    word characters and the equals sign. *)
Definition decl_char (c : ascii) : bool :=
  is_space c || is_word c || chr_eqb "=" c.

Definition not_semicolon (c : ascii) : bool := negb (chr_eqb ";" c).

(** [FIELD_RX] up to the tag, and its last two items. *)
Definition field_head : list regex :=
  [Bos; Star space;
   Opt (Grp 1 (Alt (Seq (LitI "repeated") (Plus space))
                   (Seq (LitI "optional") (Plus space))));
   Grp 2 (Plus word); Plus space; Grp 3 (Plus word); Star space; Lit "=";
   Star space; Grp 4 (Plus digit)].

Definition field_tail : list regex :=
  [Grp 5 (Star (NotOf ";")); Lit ";"].

(** ** The characters of an annotation *)

(** The characters of the fixed parts of an annotation. *)
Definition fixed_chars : str :=
  lit " [](),.=_abcdefghijklmnopqrstuvwxyz2346" ++ [newline].

(** The characters an annotation can hold: those of its fixed parts and those
    of numbers. *)
Definition opt_char (c : ascii) : bool := one_of fixed_chars c || numchar c.

Definition all_chars (p : ascii -> bool) (s : str) : bool := forallb p s.

(** ** Changed lines *)

(** The number of positions at which two lists of lines differ. *)
Fixpoint changed_lines (old new : list str) : nat :=
  match old, new with
  | l :: old', l' :: new' =>
      (if str_eqb l l' then 0 else 1) + changed_lines old' new'
  | _, _ => 0
  end.

(** ** Trait texts *)

(** The characters that end a trait text. *)
Definition trait_stop (c : ascii) : bool := one_of (lit "@{}") c.

(** ** Lines and line breaks *)

Definition no_break (c : ascii) : bool := negb (is_linebreak c).

(** A character that is no line break, or the line feed. *)
Definition nl_only (c : ascii) : bool := no_break c || chr_eqb newline c.

Definition not_brace (c : ascii) : bool := negb (chr_eqb "{" c).

(** The lines that [splitlines] makes of a text that is followed by a line
    feed: for a text whose only line breaks are line feeds, its pieces between
    the line feeds. *)
Definition pieces (x : str) : list str := splitlines (x ++ [newline]).

(** A line without semicolon, or a line whose semicolons all stand at its end
    and that holds no opening brace. *)
Definition plain_line (l : str) : bool :=
  forallb not_semicolon l
  || (forallb not_semicolon (rstrip semicolon l) && forallb not_brace l).

(** [stable mc c ls c']: starting in the message context [c], the line loop
    leaves every line of [ls], the dirty flag and the counter as they are, and
    ends in the context [c']. *)
Inductive stable (mc : gmap (str * str) Constraints)
  : option str -> list str -> option str -> Prop :=
| stable_nil c : stable mc c [] c
| stable_cons c c' c'' l ls :
    (forall d n, patch_line mc (PState c d n) l = (PState c' d n, l)) ->
    stable mc c' ls c'' ->
    stable mc c (l :: ls) c''.

Definition not_equals (c : ascii) : bool := negb (chr_eqb "=" c).

(** The characters that no import line of the validation library holds. *)
Definition import_char (c : ascii) : bool := negb (one_of (lit "{=[") c).

(** [MSG_RX] up to the brace, and [FIELD_RX] up to the equals sign. *)
Definition msg_head : list regex :=
  [Bos; Star space; LitI "message"; Plus space; Grp 1 (Plus word); Star space].

Definition field_before_equals : list regex :=
  [Bos; Star space;
   Opt (Grp 1 (Alt (Seq (LitI "repeated") (Plus space))
                   (Seq (LitI "optional") (Plus space))));
   Grp 2 (Plus word); Plus space; Grp 3 (Plus word); Star space].

Definition field_after_equals : list regex :=
  [Star space; Grp 4 (Plus digit); Grp 5 (Star (NotOf ";")); Lit ";"].

Definition import_head : list regex :=
  [Star space; Lit "import"; Plus space; Chr dquote;
   Lit "buf/validate/validate.proto"; Chr dquote].

(** The characters of an attribute: those of the names and of numbers. *)
Definition attr_char (c : ascii) : bool :=
  one_of (lit " .=_abcdefghijklmnopqrstuvwxyz2346") c || numchar c.

(** A line of a written file: its only line breaks are line feeds, it does
    not end in one, and either it has no line break at all or neither it nor
    any of its pieces is an import line. *)
Definition settled (x : str) : Prop :=
  forallb nl_only x = true
  /\ last x <> Some newline
  /\ (forallb no_break x = true
      \/ (is_import x = false
          /\ Forall (fun p => is_import p = false) (pieces x))).

(** What the first run leaves of a line [l]: a settled line [x], which is [l]
    itself or a non-empty line that is no import line. *)
Definition settled_line (l x : str) : Prop :=
  settled x /\ (x = l \/ (x <> [] /\ is_import x = false)).

(** A file the tool can treat again and again: every line is plain and the
    last line is neither empty nor an import of the validation schema. *)
Definition plain_file (text : str) : Prop :=
  Forall (fun l => plain_line l = true) (splitlines text)
  /\ (forall y, last (splitlines text) = Some y ->
                y <> [] /\ is_import y = false).

(** A name as the patterns capture it: at least one word character and
    nothing else. *)
Definition word_text (w : str) : Prop :=
  w <> [] /\ forallb is_word w = true.

Definition not_close (c : ascii) : bool := negb (chr_eqb "}" c).

(** The text that the member pass reads as the body of the structure matched
    by [st]: [txt[st.end(): txt.find(close, st.end())]]. *)
Definition struct_body (txt : str) (st : rmatch_result) : str :=
  slice txt (Z.of_nat (m_end st))
        (find (lit "}") txt (Z.of_nat (m_end st))).

(** ** The forms of the specification *)

(** The number of occurrences of a character in a text. *)
Fixpoint count_chr (c : ascii) (s : str) : nat :=
  match s with
  | [] => 0
  | d :: t => (if chr_eqb c d then 1 else 0) + count_chr c t
  end.

(** The inline form of the specification for one attribute [a]: a blank, and
    between [ [(] and [)]] the attribute behind the full prefix
    [(buf.validate.field).]. *)
Definition inline_form (a : str) : str :=
  lit " [(" ++ field_prefix ++ a ++ lit ")]".

(** An import line as the repository's test counts it: a line that, without
    the blanks around it, is the canonical import line
    ([l.strip() == IMPORT_LINE]). *)
Definition is_import_line (l : str) : bool :=
  str_eqb (strip is_space l) IMPORT_LINE.

Definition count_import_lines (lines : list str) : nat :=
  length (List.filter is_import_line lines).

(** ** Sample values *)

Module Sample.
(** An alias-level constraint, as [@length(min: 1, max: 10)] with
    [@uniqueItems] gives it. *)
Definition alias_cons : Constraints :=
  MkConstraints (Some (lit "1")) (Some (lit "10")) None None
                (Some (lit "1")) (Some (lit "10")) true.

(** A member-level constraint, as [@length(max: 5)] gives it. *)
Definition direct_cons : Constraints :=
  MkConstraints None (Some (lit "5")) None None None (Some (lit "5")) false.
End Sample.

Module NumericSample.
(** A numeric range, as [@range(min: -40, max: 150)] gives it. *)
Definition range_cons : Constraints :=
  MkConstraints None None (Some (lit "-40")) (Some (lit "150")) None None false.
End NumericSample.

Module UniqueSample.
(** A constraint that holds nothing but the unique flag. *)
Definition unique_only : Constraints :=
  MkConstraints None None None None None None true.

Definition members : gmap (str * str) Constraints :=
  {[ (lit "Msg", lit "tags") := unique_only ]}.

Definition in_msg : pstate := PState (Some (lit "Msg")) false 0.

Definition field_line : str := lit "  string tags = 1;".
End UniqueSample.

Module ImportSample.
Definition syntax_line : str :=
  lit "syntax = " ++ [dquote] ++ lit "proto3" ++ [dquote] ++ lit ";".

(** A file that imports the validation library twice. *)
Definition twice : list str :=
  [syntax_line; lit "  import  " ++ [dquote] ++ lit "buf/validate/validate.proto"
                ++ [dquote] ++ lit ";";
   lit "message Msg {"; IMPORT_LINE; lit "}"].

(** A file with the canonical header and no import. *)
Definition headed : list str :=
  [syntax_line; lit "package demo;"; lit "message Msg {"; lit "}"].
End ImportSample.

Module RerunSample.
(** The source model: a member [txt] of [Msg] with [@length(max: 5)]. *)
Definition smithy : str := lit "namespace demo
structure Msg {
  @length(max: 5)
  txt: String
}
".

(** A target file whose field line carries a comment after its semicolon. *)
Definition proto : str :=
  ImportSample.syntax_line ++ lit "
message Msg {
  string txt = 1; // note
}
".

Definition members : gmap (str * str) Constraints :=
  member_constraints [smithy].

Definition once : str := patched_text members proto.
Definition twice : str := patched_text members once.

(** What the first and the second run leave in the file. *)
Definition expected_once : str :=
  ImportSample.syntax_line ++ [newline] ++ IMPORT_LINE ++ lit "
message Msg {
  string txt = 1; // note [(buf.validate.field).string.max_len = 5)];
}".

Definition expected_twice : str :=
  ImportSample.syntax_line ++ [newline] ++ IMPORT_LINE ++ lit "
message Msg {
  string txt = 1; // note [(buf.validate.field).string.max_len = 5)] [(buf.validate.field).string.max_len = 5)];
}".

(** A target file that ends in an empty line. *)
Definition blank_end : str := IMPORT_LINE ++ [newline; newline].
End RerunSample.

Module AliasSample.
(** Two string aliases; the trait stands before the first one only. *)
Definition smithy : str := lit "@length(min: 1, max: 5)
string Code

string Note
".

Definition length_1_5 : Constraints :=
  MkConstraints (Some (lit "1")) (Some (lit "5")) None None
                (Some (lit "1")) (Some (lit "5")) false.
End AliasSample.

Module PickSample.
Definition inner : str := lit "min: -40, max: 150.5)".
End PickSample.

Module StableSample.
Definition line : str := lit "  string txt = 1;".

(** [line] as the tool rewrites it for [@length(max: 5)]. *)
Definition rewritten : str :=
  lit "  string txt = 1 [(buf.validate.field).string.max_len = 5)];".
End StableSample.

Module PlainSample.
(** A file whose only field is called [id]. *)
Definition proto : str := lit "message Msg {
  string id = 1;
}
".
End PlainSample.

Module OutsideSample.
(** Field lines that stand in no message. *)
Definition lines : list str := [lit "string txt = 1;"; lit "}"].
End OutsideSample.

Module IdempotentSample.
(** A target file without comments behind its semicolons. *)
Definition proto : str :=
  ImportSample.syntax_line ++ lit "
message Msg {
  string txt = 1;
}".

(** What the first run, and every later run, leaves in the file. *)
Definition once : str :=
  ImportSample.syntax_line ++ [newline] ++ IMPORT_LINE ++ lit "
message Msg {
  string txt = 1 [(buf.validate.field).string.max_len = 5)];
}".
End IdempotentSample.

Module ListSample.
(** A list alias with one trait before it and one inside its block. *)
Definition smithy : str := lit "@length(min: 1)
list Tags {
  @length(max: 9)
  member: String
}
string Other
".

Definition max_9 : Constraints :=
  MkConstraints None (Some (lit "9")) None None None (Some (lit "9")) false.
End ListSample.

Module TrailingBlankSample.
(** A target file whose import of the validation library is followed by a
    blank. *)
Definition proto : str :=
  ImportSample.syntax_line ++ [newline] ++ IMPORT_LINE ++ lit " 
message Msg {
  string txt = 1;
}
".

(** What the tool leaves in the file. *)
Definition expected : str :=
  ImportSample.syntax_line ++ [newline] ++ IMPORT_LINE ++ [newline]
  ++ IMPORT_LINE ++ lit " 
message Msg {
  string txt = 1 [(buf.validate.field).string.max_len = 5)];
}".
End TrailingBlankSample.
(** * Properties *)

(** ** The matcher is sound for the declarative reading *)

Create HintDb re.
#[local] Hint Constructors matches : re.

Lemma or_else_Some {A} (a b : option A) (x : A) :
  or_else a b = Some x -> a = Some x \/ (a = None /\ b = Some x).
Proof. destruct a; simpl; intros; [left | right]; auto. Qed.

Section Soundness.
Context {A : Type}.

Lemma rounds_sound (r : regex) (k : mstate -> option A) (x : A) :
  (forall st k', rmatch r st k' = Some x ->
                 exists st', matches r st st' /\ k' st' = Some x) ->
  forall fuel st, rounds (rmatch r) k fuel st = Some x ->
                  exists st', matches (Star r) st st' /\ k st' = Some x.
Proof.
  intros IH fuel. induction fuel as [|fuel IHf]; intros st Hr; simpl in Hr.
  - eauto with re.
  - apply or_else_Some in Hr as [Hr | [_ Hr]]; [|eauto with re].
    apply IH in Hr as (st1 & Hm & Hk).
    destruct (length (ahead st1) <? length (ahead st)); [|discriminate].
    apply IHf in Hk as (st2 & Hm2 & Hk2). eauto with re.
Qed.

Lemma rmatch_sound (r : regex) :
  forall (st : mstate) (k : mstate -> option A) (x : A),
    rmatch r st k = Some x ->
    exists st', matches r st st' /\ k st' = Some x.
Proof.
  induction r as [|p|r1 IH1 r2 IH2|r1 IH1 r2 IH2|r1 IH1|n r1 IH1| |];
    intros st k x Hr; simpl in Hr.
  - eauto with re.
  - destruct (ahead st) as [|c t] eqn:Ha; [discriminate|].
    destruct (p c) eqn:Hp; [|discriminate]. eauto with re.
  - apply IH1 in Hr as (st1 & Hm1 & Hr). apply IH2 in Hr as (st2 & Hm2 & Hr).
    eauto with re.
  - apply or_else_Some in Hr as [Hr | [_ Hr]].
    + apply IH1 in Hr as (st1 & Hm & Hk). eauto with re.
    + apply IH2 in Hr as (st1 & Hm & Hk). eauto with re.
  - eapply rounds_sound; eauto.
  - apply IH1 in Hr as (st1 & Hm & Hk). eauto with re.
  - destruct (at_boundary st) eqn:Hb; [|discriminate]. eauto with re.
  - destruct (passed st) eqn:Hp; [|discriminate]. eauto with re.
Qed.
End Soundness.

Lemma matches_consumes (P : ascii -> Prop) (r : regex) (st st' : mstate) :
  matches r st st' -> classes_in P r ->
  exists w, ahead st = w ++ ahead st' /\ Forall P w
            /\ (consuming r = true -> w <> []).
Proof.
  induction 1 as [st|p c t st Ha Hp|r1 r2 st st1 st2 _ IH1 _ IH2
                 |r1 r2 st st1 _ IH|r1 r2 st st1 _ IH|r st
                 |r st st1 st2 _ IH1 _ IH2|n r st st1 _ IH|st _|st _];
    simpl; intros Hc.
  - exists []. split; [|split]; [reflexivity|constructor|discriminate].
  - exists [c]. rewrite Ha. split; [|split]; [reflexivity|auto|discriminate].
  - destruct Hc as [Hc1 Hc2].
    destruct (IH1 Hc1) as (w1 & E1 & F1 & N1).
    destruct (IH2 Hc2) as (w2 & E2 & F2 & N2).
    exists (w1 ++ w2). split; [|split].
    + rewrite E1, E2. apply app_assoc.
    + apply Forall_app; auto.
    + intros Hn Happ. apply app_eq_nil in Happ as [-> ->].
      apply orb_true_iff in Hn as [Hn | Hn]; [apply N1 | apply N2]; auto.
  - destruct Hc as [Hc1 _]. destruct (IH Hc1) as (w & E & F & N).
    exists w. split; [|split]; auto.
    intros Hn. apply andb_true_iff in Hn as [Hn _]. auto.
  - destruct Hc as [_ Hc2]. destruct (IH Hc2) as (w & E & F & N).
    exists w. split; [|split]; auto.
    intros Hn. apply andb_true_iff in Hn as [_ Hn]. auto.
  - exists []. split; [|split]; [reflexivity|constructor|discriminate].
  - destruct (IH1 Hc) as (w1 & E1 & F1 & _).
    destruct (IH2 Hc) as (w2 & E2 & F2 & _).
    exists (w1 ++ w2). split; [|split].
    + rewrite E1, E2. apply app_assoc.
    + apply Forall_app; auto.
    + discriminate.
  - destruct (IH Hc) as (w & E & F & N). exists w. split; [|split]; auto.
  - exists []. split; [|split]; [reflexivity|constructor|discriminate].
  - exists []. split; [|split]; [reflexivity|constructor|discriminate].
Qed.

Lemma search_from_sound (r : regex) (rest before : str) (m : rmatch_result) :
  search_from r before rest = Some m ->
  exists st0, groups st0 = [] /\ matches r st0 (m_rest m)
              /\ m_groups m = groups (m_rest m).
Proof.
  revert before. induction rest as [|c t IH]; intros before Hs; simpl in Hs.
  - apply or_else_Some in Hs as [Hs | [_ Hs]]; [|discriminate].
    apply rmatch_sound in Hs as (st' & Hm & Hk). inversion Hk; subst.
    eexists; split_and!; [|exact Hm|]; reflexivity.
  - apply or_else_Some in Hs as [Hs | [_ Hs]]; [|eauto].
    apply rmatch_sound in Hs as (st' & Hm & Hk). inversion Hk; subst.
    eexists; split_and!; [|exact Hm|]; reflexivity.
Qed.

(** ** Bounds are numeric literals *)

Lemma number_classes : classes_in (fun c => numchar c = true) number.
Proof.
  unfold number, numchar, seqs, Opt, Plus, Lit, Chr, digit.
  cbn [foldr map lit list_ascii_of_string classes_in].
  repeat split; intros c Hc; rewrite Hc, ?orb_true_r; reflexivity.
Qed.

Lemma matches_seq_inv (r1 r2 : regex) (st st2 : mstate) :
  matches (Seq r1 r2) st st2 ->
  exists st1, matches r1 st st1 /\ matches r2 st1 st2.
Proof. inversion 1; subst; eauto. Qed.

Lemma matches_eps_inv (st st' : mstate) : matches Eps st st' -> st' = st.
Proof. inversion 1; auto. Qed.

Lemma matches_grp_inv (n : nat) (r : regex) (st st' : mstate) :
  matches (Grp n r) st st' ->
  exists st1, matches r st st1 /\ st' = set_group n st st1.
Proof. inversion 1; subst; eauto. Qed.

Lemma _pick_numeric (blob : str) (key : string) (v : str) :
  _pick blob key = Some v -> numeric_text v.
Proof.
  unfold _pick, re_search. intros Hp.
  destruct (search_from _ _ _) as [m|] eqn:Hs; [|discriminate].
  apply search_from_sound in Hs as (st0 & _ & Hm & Hg).
  unfold group in Hp. rewrite Hg in Hp. clear Hg.
  unfold pick_rx in Hm. cbn [seqs foldr] in Hm.
  do 5 (apply matches_seq_inv in Hm as (? & _ & Hm)).
  apply matches_seq_inv in Hm as (st1 & Hm & He).
  apply matches_eps_inv in He. rewrite He in Hp. clear He.
  apply matches_grp_inv in Hm as (st2 & Hm & ->).
  apply (matches_consumes (fun c => numchar c = true)) in Hm
    as (w & E & F & N); [|apply number_classes].
  simpl in Hp. injection Hp as <-.
  rewrite E, length_app, Nat.add_sub, take_app_length.
  split; auto.
Qed.

(** ** The constraint model *)

Lemma truthy_wf (o : option str) : wf_bound o -> truthy o = bool_decide (is_Some o).
Proof.
  intros Hw. destruct o as [[|c v]|]; simpl; auto.
  destruct (Hw [] eq_refl) as [Hn _]. congruence.
Qed.

Lemma por_right_biased (a b : option str) :
  wf_bound b -> por b a = right_biased a b.
Proof.
  intros Hw. unfold por. rewrite truthy_wf by assumption.
  destruct b; reflexivity.
Qed.

Lemma por_wf (a b : option str) : wf_bound a -> wf_bound b -> wf_bound (por a b).
Proof. unfold por. destruct (truthy a); auto. Qed.

Lemma wf_bound_None : wf_bound None.
Proof. intros v Hv. discriminate. Qed.

Lemma wf_bound_pick (blob : str) (key : string) : wf_bound (_pick blob key).
Proof. intros v Hv. eapply _pick_numeric; eauto. Qed.

#[local] Hint Resolve por_wf wf_bound_None wf_bound_pick : re.

Lemma wf_no_constraints : wf no_constraints.
Proof. split; apply wf_bound_None. Qed.

Lemma apply_trait_wf (c : Constraints) (trait : str) :
  wf c -> wf (apply_trait c trait).
Proof.
  intros [H1 H2 H3 H4 H5 H6]. unfold apply_trait.
  repeat case_match; split; simpl; auto with re.
Qed.

Lemma merge_wf (a b : Constraints) : wf a -> wf b -> wf (merge a b).
Proof.
  intros [A1 A2 A3 A4 A5 A6] [B1 B2 B3 B4 B5 B6].
  split; simpl; auto with re.
Qed.

Lemma fold_apply_trait_inv (P : Constraints -> Prop) :
  (forall c t, P c -> P (apply_trait c t)) ->
  forall ts c, P c -> P (fold_left apply_trait ts c).
Proof.
  intros Hstep ts. induction ts as [|t ts IH]; simpl; auto.
Qed.

Lemma gather_constraints_wf (block : str) : wf (gather_constraints block).
Proof.
  unfold gather_constraints.
  apply fold_apply_trait_inv; auto using apply_trait_wf, wf_no_constraints.
Qed.

Lemma apply_trait_linked (c : Constraints) (trait : str) :
  length_linked c -> length_linked (apply_trait c trait).
Proof.
  intros [H1 H2]. unfold apply_trait, length_linked.
  repeat case_match; simpl; rewrite ?H1, ?H2; auto.
Qed.

Lemma gather_constraints_linked (block : str) :
  length_linked (gather_constraints block).
Proof.
  unfold gather_constraints.
  apply fold_apply_trait_inv; auto using apply_trait_linked.
  split; reflexivity.
Qed.

Lemma merge_linked (a b : Constraints) :
  length_linked a -> length_linked b -> length_linked (merge a b).
Proof.
  intros [A1 A2] [B1 B2]. unfold length_linked; simpl.
  rewrite A1, A2, B1, B2. auto.
Qed.

(** ** Invariants of the two maps

    Any property that every extracted constraint has and that merging keeps
    holds of all the values of the alias map and of the member map. *)
Section MapInvariant.
Variable P : Constraints -> Prop.
Hypothesis P_gather : forall block, P (gather_constraints block).
Hypothesis P_merge : forall a b, P a -> P b -> P (merge a b).

Lemma fold_store_inv {K} `{Countable K} (es : list (K * Constraints))
    (m : gmap K Constraints) :
  map_Forall (fun _ c => P c) m ->
  Forall (fun e => P e.2) es ->
  map_Forall (fun _ c => P c) (fold_left store es m).
Proof.
  revert m. induction es as [|e es IH]; intros m Hm Hes; simpl; auto.
  inversion Hes; subst. apply IH; auto.
  unfold store. apply map_Forall_insert_2; auto.
Qed.

Lemma alias_pass_file_inv (ac : gmap str Constraints) (txt : str) :
  map_Forall (fun _ c => P c) ac ->
  map_Forall (fun _ c => P c) (alias_pass_file ac txt).
Proof.
  intros Hac. unfold alias_pass_file.
  apply fold_store_inv; [apply fold_store_inv; auto|];
    apply Forall_map, Forall_forall; intros m _; simpl; apply P_gather.
Qed.

Lemma alias_pass_inv (files : list str) :
  map_Forall (fun _ c => P c) (alias_pass files).
Proof.
  unfold alias_pass.
  assert (Hgen : forall ac, map_Forall (fun _ c => P c) ac ->
            map_Forall (fun _ c => P c) (fold_left alias_pass_file files ac)).
  { induction files as [|f fs IH]; intros ac Hac; simpl; auto.
    apply IH, alias_pass_file_inv, Hac. }
  apply Hgen, map_Forall_empty.
Qed.

Lemma resolve_member_inv (ac : gmap str Constraints) (traits target : str) :
  map_Forall (fun _ c => P c) ac -> P (resolve_member ac traits target).
Proof.
  intros Hac. unfold resolve_member.
  destruct (ac !! target) as [a|] eqn:Ha; auto.
  apply P_merge; auto. exact (Hac _ _ Ha).
Qed.

Lemma member_pass_inv (ac : gmap str Constraints) (files : list str) :
  map_Forall (fun _ c => P c) ac ->
  map_Forall (fun _ c => P c) (member_pass ac files).
Proof.
  intros Hac. unfold member_pass.
  assert (Hmem : forall struct ms mc, map_Forall (fun _ c => P c) mc ->
            map_Forall (fun _ c => P c)
                       (fold_left (member_step ac struct) ms mc)).
  { intros struct ms. induction ms as [|m ms IH]; intros mc Hmc; simpl; auto.
    apply IH. unfold member_step. case_match; auto.
    apply map_Forall_insert_2; auto using resolve_member_inv. }
  assert (Hst : forall txt sts mc, map_Forall (fun _ c => P c) mc ->
            map_Forall (fun _ c => P c)
                       (fold_left (struct_step ac txt) sts mc)).
  { intros txt sts. induction sts as [|s sts IH]; intros mc Hmc; simpl; auto.
    apply IH. unfold struct_step. apply Hmem, Hmc. }
  assert (Hgen : forall mc, map_Forall (fun _ c => P c) mc ->
            map_Forall (fun _ c => P c)
                       (fold_left (member_pass_file ac) files mc)).
  { induction files as [|f fs IH]; intros mc Hmc; simpl; auto.
    apply IH. unfold member_pass_file. apply Hst, Hmc. }
  apply Hgen, map_Forall_empty.
Qed.

Lemma member_constraints_inv (smithy : list str) :
  map_Forall (fun _ c => P c) (member_constraints smithy).
Proof. apply member_pass_inv, alias_pass_inv. Qed.
End MapInvariant.

Lemma numeric_textb_spec (v : str) : numeric_textb v = true -> numeric_text v.
Proof.
  destruct v as [|c v]; [discriminate|]. unfold numeric_textb.
  intros Hf. split; [discriminate|]. apply Forall_forall.
  intros x Hx. rewrite forallb_forall in Hf. apply Hf.
  apply list_elem_of_In; assumption.
Qed.

Lemma wf_boundb_spec (o : option str) : wf_boundb o = true -> wf_bound o.
Proof. intros Hb v ->. apply numeric_textb_spec, Hb. Qed.

Lemma wfb_spec (c : Constraints) : wfb c = true -> wf c.
Proof.
  unfold wfb. rewrite !andb_true_iff.
  intros [[[[[H1 H2] H3] H4] H5] H6]. split; auto using wf_boundb_spec.
Qed.

(** ** Text operations *)

Lemma chr_eqb_eq (a b : ascii) : chr_eqb a b = true <-> a = b.
Proof. apply Ascii.eqb_eq. Qed.

Lemma chr_eqb_refl (a : ascii) : chr_eqb a a = true.
Proof. apply chr_eqb_eq. reflexivity. Qed.

Lemma str_eqb_eq (a b : str) : str_eqb a b = true <-> a = b.
Proof. unfold str_eqb. apply bool_decide_eq_true. Qed.

Lemma str_eqb_neq (a b : str) : str_eqb a b = false <-> a <> b.
Proof. unfold str_eqb. apply bool_decide_eq_false. Qed.

Lemma startswith_spec (p s : str) :
  startswith p s = true <-> exists q, s = p ++ q.
Proof.
  revert s. induction p as [|a p IH]; intros s; simpl.
  - split; eauto.
  - destruct s as [|b s].
    + split; [discriminate|]. intros [q Hq]. discriminate.
    + rewrite andb_true_iff, chr_eqb_eq, IH. split.
      * intros [-> [q ->]]. eauto.
      * intros [q Hq]. injection Hq as -> ->. eauto.
Qed.

Lemma startswith_app (p q : str) : startswith p (p ++ q) = true.
Proof. apply startswith_spec. eauto. Qed.

Lemma endswith_spec (p s : str) :
  endswith p s = true <-> exists q, s = q ++ p.
Proof.
  unfold endswith. rewrite startswith_spec. split.
  - intros [q Hq]. exists (rev q).
    rewrite <- (rev_involutive s), Hq, rev_app_distr, rev_involutive. reflexivity.
  - intros [q ->]. exists (rev q). apply rev_app_distr.
Qed.

(** A text without the first character of [old] holds no [old]. *)
Lemma replace_go_absent (c0 : ascii) (old new s : str) :
  Forall (fun c => c <> c0) s ->
  replace_go (c0 :: old) new 0 s = s.
Proof.
  induction 1 as [|c s Hc _ IH]; simpl; auto.
  destruct (chr_eqb c0 c) eqn:He.
  - apply chr_eqb_eq in He. congruence.
  - simpl. rewrite IH. reflexivity.
Qed.

Lemma lstrip_app_all (p : ascii -> bool) (a b : str) :
  forallb p a = true -> lstrip p (a ++ b) = lstrip p b.
Proof.
  induction a as [|c a IH]; simpl; auto.
  intros H. apply andb_true_iff in H as [-> H]. auto.
Qed.

Lemma lstrip_suffix (p : ascii -> bool) (s : str) :
  exists a, s = a ++ lstrip p s /\ forallb p a = true.
Proof.
  induction s as [|c s (a & E & F)]; simpl.
  - exists []. auto.
  - destruct (p c) eqn:Hp.
    + exists (c :: a). simpl. rewrite Hp, F. split; [f_equal; exact E|reflexivity].
    + exists []. auto.
Qed.

Lemma lstrip_head (p : ascii -> bool) (s : str) (c : ascii) (t : str) :
  lstrip p s = c :: t -> p c = false.
Proof.
  induction s as [|d s IH]; simpl; [discriminate|].
  destruct (p d) eqn:Hp; auto. intros E. injection E as -> _. exact Hp.
Qed.

(** [s.rstrip(chars)] removes a run of [chars] from the end of [s], and what
    it leaves does not end in one of them. *)
Lemma rstrip_spec (p : ascii -> bool) (s : str) :
  exists removed, s = rstrip p s ++ removed /\ forallb p removed = true
                  /\ (forall t c, rstrip p s = t ++ [c] -> p c = false).
Proof.
  unfold rstrip. destruct (lstrip_suffix p (rev s)) as (a & E & F).
  exists (rev a). split; [|split].
  - rewrite <- rev_app_distr, <- E, rev_involutive. reflexivity.
  - rewrite forallb_forall in *. intros x Hx. apply F. apply in_rev. exact Hx.
  - intros t c Ht. apply (f_equal (@rev ascii)) in Ht.
    rewrite rev_involutive, rev_app_distr in Ht. simpl in Ht.
    eapply lstrip_head; eauto.
Qed.

(** ** The option builder *)

Lemma bound_attr_Some (key v : str) :
  v <> [] -> bound_attr key (Some v) = [attr_text key v].
Proof. destruct v; [congruence|reflexivity]. Qed.

Lemma bound_attr_wf (key : str) (o : option str) :
  wf_bound o ->
  bound_attr key o = from_option (fun v => [attr_text key v]) [] o.
Proof.
  intros Hw. destruct o as [v|]; [|reflexivity].
  apply bound_attr_Some. exact (proj1 (Hw v eq_refl)).
Qed.

Lemma elem_of_bound_attr (key : str) (o : option str) (a : str) :
  a ∈ bound_attr key o <->
  exists v, o = Some v /\ v <> [] /\ a = attr_text key v.
Proof.
  destruct o as [[|c v]|]; simpl; split.
  - intros H. inversion H.
  - intros (v & E & Hn & _). injection E as <-. congruence.
  - intros H. apply list_elem_of_singleton in H. subst.
    exists (c :: v). split_and!; auto; discriminate.
  - intros (w & E & _ & ->). injection E as <-. apply list_elem_of_singleton.
    reflexivity.
  - intros H. inversion H.
  - intros (v & E & _). discriminate.
Qed.

Lemma numcat_spec (ftype : str) : numeric_category ftype (numcat ftype).
Proof.
  unfold numeric_category, numcat.
  destruct (str_eqb ftype (lit "double")) eqn:Hd.
  { apply str_eqb_eq in Hd. auto. }
  destruct (str_eqb ftype (lit "float")) eqn:Hf.
  { apply str_eqb_eq in Hf. auto. }
  apply str_eqb_neq in Hd, Hf.
  destruct (endswith (lit "64") ftype) eqn:He.
  - apply endswith_spec in He. right; right; left. auto.
  - right; right; right. split_and!; auto.
    intros Hex. apply endswith_spec in Hex. congruence.
Qed.

(** The attributes of any field: a minimum, then a maximum, then, for a
    repeated field only, the unique flag. *)
Lemma option_attrs_shape (ftype : str) (repeated : bool) (c : Constraints) :
  exists kmin kmax lo hi,
    bound_keys ftype kmin kmax
    /\ option_attrs ftype repeated c
       = bound_attr kmin lo ++ bound_attr kmax hi
         ++ (if repeated && unique c then [lit "repeated.unique = true"]
             else []).
Proof.
  unfold option_attrs, bound_keys. destruct repeated; cbn [andb].
  - exists (lit "repeated.min_items"), (lit "repeated.max_items"),
      (rep_min c), (rep_max c). split; [left; auto|reflexivity].
  - destruct (str_eqb ftype (lit "string")).
    + exists (lit "string.min_len"), (lit "string.max_len"),
        (str_min c), (str_max c). rewrite app_nil_r.
      split; [right; left; auto|reflexivity].
    + exists (numcat ftype ++ lit ".gte"), (numcat ftype ++ lit ".lte"),
        (num_min c), (num_max c). rewrite app_nil_r.
      split; [right; right; auto|reflexivity].
Qed.

Lemma no_paren_app (a b : str) : no_paren (a ++ b) = no_paren a && no_paren b.
Proof. apply forallb_app. Qed.

Lemma numchar_no_paren (v : str) :
  Forall (fun c => numchar c = true) v -> no_paren v = true.
Proof.
  intros Hf. apply forallb_forall. intros c Hc.
  rewrite Forall_forall in Hf. specialize (Hf c (proj2 (list_elem_of_In _ _) Hc)).
  destruct (chr_eqb "(" c) eqn:He; [|reflexivity].
  apply chr_eqb_eq in He. subst c. discriminate.
Qed.

Lemma numcat_no_paren (ftype : str) : no_paren (numcat ftype) = true.
Proof. unfold numcat. repeat case_match; reflexivity. Qed.

Lemma bound_attr_no_paren (key : str) (o : option str) :
  no_paren key = true -> wf_bound o ->
  Forall (fun a => no_paren a = true) (bound_attr key o).
Proof.
  intros Hk Hw. apply Forall_forall. intros a Ha.
  apply elem_of_bound_attr in Ha as (v & -> & _ & ->).
  unfold attr_text. rewrite !no_paren_app, Hk. simpl.
  apply numchar_no_paren. exact (proj2 (Hw v eq_refl)).
Qed.

Lemma option_attrs_no_paren (ftype : str) (repeated : bool) (c : Constraints) :
  wf c -> Forall (fun a => no_paren a = true) (option_attrs ftype repeated c).
Proof.
  intros [H1 H2 H3 H4 H5 H6]. unfold option_attrs.
  repeat case_match; repeat apply Forall_app_2;
    try (apply bound_attr_no_paren; [|assumption];
         rewrite ?no_paren_app, ?numcat_no_paren; reflexivity).
  - apply Forall_singleton. reflexivity.
  - apply Forall_nil_2.
Qed.

Lemma no_paren_Forall (s : str) :
  no_paren s = true -> Forall (fun c => c <> "("%char) s.
Proof.
  intros H. apply Forall_forall. intros c Hc Heq. subst c.
  unfold no_paren in H. rewrite forallb_forall in H.
  specialize (H _ (proj1 (list_elem_of_In _ _) Hc)). discriminate.
Qed.

(** The inline form of a single attribute without parenthesis. *)
Lemma format_single (a : str) :
  no_paren a = true ->
  format_attrs [a] = lit " [" ++ field_prefix ++ a ++ lit ")]".
Proof.
  intros Ha. unfold format_attrs, replace.
  change (lit " [(" ++ field_prefix ++ a ++ lit ")]")
    with (lit " [((" ++ (lit "buf.validate.field)." ++ a ++ lit ")]")).
  change (lit " [" ++ field_prefix ++ a ++ lit ")]")
    with (lit " [(" ++ (lit "buf.validate.field)." ++ a ++ lit ")]")).
  assert (Hrest : replace_go (lit "((") (lit "(") 0
                    (lit "buf.validate.field)." ++ a ++ lit ")]")
                  = lit "buf.validate.field)." ++ a ++ lit ")]").
  { apply (replace_go_absent "("%char), no_paren_Forall.
    rewrite !no_paren_app, Ha. reflexivity. }
  revert Hrest.
  generalize (lit "buf.validate.field)." ++ a ++ lit ")]"). intros r Hrest.
  simpl in Hrest |- *. rewrite Hrest. reflexivity.
Qed.

Lemma option_attrs_order (ftype : str) (repeated : bool) (c : Constraints) :
  wf c ->
  exists kmin kmax lo hi,
    bound_keys ftype kmin kmax
    /\ option_attrs ftype repeated c
       = bound_attrs kmin kmax lo hi
         ++ (if repeated && unique c then [lit "repeated.unique = true"]
             else []).
Proof.
  intros [H1 H2 H3 H4 H5 H6].
  unfold option_attrs, bound_keys, bound_attrs. destruct repeated; cbn [andb].
  - exists (lit "repeated.min_items"), (lit "repeated.max_items"),
      (rep_min c), (rep_max c).
    rewrite !bound_attr_wf, <- app_assoc by assumption.
    split; [left; auto|reflexivity].
  - destruct (str_eqb ftype (lit "string")).
    + exists (lit "string.min_len"), (lit "string.max_len"),
        (str_min c), (str_max c).
      rewrite !bound_attr_wf, app_nil_r by assumption.
      split; [right; left; auto|reflexivity].
    + exists (numcat ftype ++ lit ".gte"), (numcat ftype ++ lit ".lte"),
        (num_min c), (num_max c).
      rewrite !bound_attr_wf, app_nil_r by assumption.
      split; [right; right; auto|reflexivity].
Qed.

Lemma bound_attr_length (key : str) (o : option str) :
  length (bound_attr key o) <= 1.
Proof. destruct o as [[|? ?]|]; simpl; lia. Qed.

Lemma option_attrs_length (ftype : str) (repeated : bool) (c : Constraints) :
  length (option_attrs ftype repeated c) <= 3.
Proof.
  destruct (option_attrs_shape ftype repeated c) as (kmin & kmax & lo & hi & _ & ->).
  rewrite !length_app.
  pose proof (bound_attr_length kmin lo). pose proof (bound_attr_length kmax hi).
  destruct (repeated && unique c); simpl; lia.
Qed.

(** ** The line loop *)

Lemma field_option_Some (mc : gmap (str * str) Constraints) (ctx_name : str)
    (m : rmatch_result) (opt : str) :
  field_option mc ctx_name m = Some opt <->
  contains marker (group_text m 5) = false
  /\ exists cs, mc !! (ctx_name, group_text m 3) = Some cs
                /\ nonempty cs = true
                /\ opt = build_option (group_text m 2) (field_repeated m) cs
                /\ opt <> [].
Proof.
  unfold field_option.
  destruct (contains marker (group_text m 5)).
  { split; [discriminate|]. intros [H _]. discriminate. }
  destruct (mc !! (ctx_name, group_text m 3)) as [cs|].
  2:{ split; [discriminate|]. intros [_ (cs & H & _)]. discriminate. }
  destruct (nonempty cs) eqn:Hn.
  2:{ split; [discriminate|]. intros [_ (cs' & E & H & _)].
      injection E as <-. congruence. }
  destruct (build_option (group_text m 2) (field_repeated m) cs) as [|ch o] eqn:Hb.
  - split; [discriminate|]. intros [_ (cs' & E & _ & -> & Hne)].
    injection E as <-. rewrite Hb in Hne. congruence.
  - split.
    + intros E. injection E as <-. split; [reflexivity|].
      exists cs. rewrite Hb. split_and!; auto; discriminate.
    + intros [_ (cs' & E & _ & -> & _)]. injection E as <-. rewrite Hb.
      reflexivity.
Qed.

(** The three outcomes of one round of the line loop. *)
Lemma patch_line_cases (mc : gmap (str * str) Constraints) (st : pstate)
    (line : str) :
  (exists m, re_match MSG_RX line = Some m
             /\ patch_line mc st line
                = (PState (group m 1) (dirty st) (patched st), line))
  \/ (re_match MSG_RX line = None /\ patch_line mc st line = (st, line))
  \/ (exists m opt,
         re_match MSG_RX line = None
         /\ re_match FIELD_RX line = Some m
         /\ truthy (ctx st) = true
         /\ field_option mc (default [] (ctx st)) m = Some opt
         /\ patch_line mc st line
            = (PState (ctx st) true (S (patched st)),
               rstrip semicolon line ++ opt ++ lit ";")).
Proof.
  unfold patch_line.
  destruct (re_match MSG_RX line) as [m|]; [left; eauto|right].
  destruct (re_match FIELD_RX line) as [m|]; [|left; auto].
  destruct (truthy (ctx st)) eqn:Ht; [|left; auto].
  destruct (field_option mc (default [] (ctx st)) m) as [opt|] eqn:Ho;
    [|left; auto].
  right. exists m, opt. auto.
Qed.

Lemma forallb_semicolon (removed : str) :
  forallb semicolon removed = true ->
  removed = repeat ";"%char (length removed).
Proof.
  induction removed as [|c r IH]; simpl; [reflexivity|].
  intros H. apply andb_true_iff in H as [Hc Hr].
  unfold semicolon, one_of in Hc. simpl in Hc. rewrite orb_false_r in Hc.
  apply chr_eqb_eq in Hc. subst c. f_equal. auto.
Qed.

(** Only semicolons are taken off the end of a line. *)
Lemma rstrip_semicolon_spec (line : str) :
  exists n, line = rstrip semicolon line ++ repeat ";"%char n
            /\ forall t, rstrip semicolon line <> t ++ lit ";".
Proof.
  destruct (rstrip_spec semicolon line) as (removed & E & F & L).
  exists (length removed). split.
  - rewrite <- forallb_semicolon by assumption. exact E.
  - intros t Ht. apply L in Ht. discriminate.
Qed.

(** ** Import normalisation *)

Lemma is_import_IMPORT_LINE : is_import IMPORT_LINE = true.
Proof. vm_compute. reflexivity. Qed.

Lemma count_imports_app (a b : list str) :
  count_imports (a ++ b) = count_imports a + count_imports b.
Proof. unfold count_imports. rewrite List.filter_app, length_app. reflexivity. Qed.

Lemma count_imports_cons (l : str) (ls : list str) :
  count_imports (l :: ls)
  = (if is_import l then 1 else 0) + count_imports ls.
Proof. unfold count_imports. simpl. destruct (is_import l); reflexivity. Qed.

Lemma count_without_imports (ls : list str) :
  count_imports (without_imports ls) = 0.
Proof.
  induction ls as [|l ls IH]; [reflexivity|].
  unfold without_imports in *. simpl.
  destruct (is_import l) eqn:Hl; simpl; [exact IH|].
  rewrite count_imports_cons, Hl. exact IH.
Qed.

Lemma import_indices_from_nil (k : nat) (lines : list str) :
  import_indices_from k lines = [] -> count_imports lines = 0.
Proof.
  revert k. induction lines as [|l ls IH]; intros k; simpl; [reflexivity|].
  rewrite count_imports_cons.
  destruct (is_import l); [discriminate|]. apply IH.
Qed.

(** The first index found splits the lines at the first import. *)
Lemma import_indices_from_cons (k : nat) (lines : list str) (first : nat)
    (others : list nat) :
  import_indices_from k lines = first :: others ->
  exists pre l post,
    lines = pre ++ l :: post /\ first = k + length pre
    /\ is_import l = true /\ count_imports pre = 0
    /\ others = import_indices_from (S first) post.
Proof.
  revert k. induction lines as [|l ls IH]; intros k; simpl; [discriminate|].
  destruct (is_import l) eqn:Hl.
  - intros E. injection E as <- <-. exists [], l, ls.
    rewrite Nat.add_0_r. auto.
  - intros E. apply IH in E as (pre & l' & post & -> & -> & Hi & Hc & ->).
    exists (l :: pre), l', post. simpl.
    rewrite count_imports_cons, Hl, Nat.add_succ_r. auto.
Qed.

(** Deleting the found indices from the last to the first removes exactly the
    import lines. *)
Lemma delete_import_indices (post pre : list str) :
  fold_left (fun ls idx => delete idx ls)
            (rev (import_indices_from (length pre) post)) (pre ++ post)
  = pre ++ without_imports post.
Proof.
  revert pre. induction post as [|l rest IH]; intros pre; [reflexivity|].
  specialize (IH (pre ++ [l])).
  rewrite length_app, Nat.add_1_r, <- app_assoc in IH. simpl in IH.
  unfold without_imports in *. simpl.
  destruct (is_import l); simpl.
  - rewrite fold_left_app, IH. simpl.
    rewrite <- app_assoc. simpl. apply delete_middle.
  - rewrite IH, <- app_assoc. reflexivity.
Qed.

Lemma normalise_imports_found (d : bool) (lines : list str) (first : nat)
    (others : list nat) :
  import_indices lines = first :: others ->
  exists pre l post,
    lines = pre ++ l :: post /\ length pre = first
    /\ is_import l = true /\ count_imports pre = 0
    /\ normalise_imports d lines
       = pre ++ IMPORT_LINE :: without_imports post.
Proof.
  intros Hi. unfold normalise_imports. rewrite Hi.
  apply import_indices_from_cons in Hi as (pre & l & post & -> & -> & Hl & Hc & ->).
  exists pre, l, post. simpl. split_and!; auto.
  rewrite insert_app_r_alt, Nat.sub_diag by lia. simpl.
  pose proof (delete_import_indices post (pre ++ [IMPORT_LINE])) as Hd.
  rewrite length_app, Nat.add_1_r, <- !app_assoc in Hd. exact Hd.
Qed.

Lemma header_first_spec (lines : list str) :
  header_first lines = true <->
  exists a b rest,
    lines = (lit "syntax" ++ a) :: (lit "package" ++ b) :: rest.
Proof.
  unfold header_first. split.
  - intros H. apply andb_true_iff in H as [H Hp].
    apply andb_true_iff in H as [Hlen Hs].
    destruct lines as [|l0 [|l1 rest]]; try discriminate.
    change (startswith (lit "syntax") l0 = true) in Hs.
    change (startswith (lit "package") l1 = true) in Hp.
    apply startswith_spec in Hs as [a ->], Hp as [b ->].
    eauto.
  - intros (a & b & rest & ->).
    change (default [] (((lit "syntax" ++ a) :: (lit "package" ++ b) :: rest) !! 0))
      with (lit "syntax" ++ a).
    change (default [] (((lit "syntax" ++ a) :: (lit "package" ++ b) :: rest) !! 1))
      with (lit "package" ++ b).
    rewrite !startswith_app. reflexivity.
Qed.

Lemma count_imports_insert_at (i : nat) (lines : list str) :
  count_imports (list_insert_at i IMPORT_LINE lines) = S (count_imports lines).
Proof.
  unfold list_insert_at.
  rewrite count_imports_app, count_imports_cons, is_import_IMPORT_LINE.
  rewrite <- (take_drop i lines) at 3. rewrite count_imports_app. lia.
Qed.

Lemma lookup_insert_at (i : nat) (x : str) (lines : list str) :
  i <= length lines -> list_insert_at i x lines !! i = Some x.
Proof.
  intros Hi. unfold list_insert_at.
  rewrite lookup_app_r by (rewrite length_take; lia).
  rewrite length_take, Nat.min_l, Nat.sub_diag by lia. reflexivity.
Qed.

(** The line loop only sets the dirty flag when it rewrites a line. *)
Lemma patch_lines_dirty (mc : gmap (str * str) Constraints) (lines : list str)
    (st : pstate) :
  dirty (patch_lines mc st lines).1 = true ->
  dirty st = true \/ (patch_lines mc st lines).2 <> [].
Proof.
  destruct lines as [|l ls]; simpl; [auto|].
  destruct (patch_line mc st l) as [st1 l'].
  destruct (patch_lines mc st1 ls) as [st2 ls']. simpl. intros _. right.
  discriminate.
Qed.

(** ** Stores into a map *)

Lemma fold_store_other {K} `{Countable K} (es : list (K * Constraints))
    (m : gmap K Constraints) (k : K) :
  Forall (fun e => e.1 <> k) es -> fold_left store es m !! k = m !! k.
Proof.
  revert m. induction es as [|e es IH]; intros m Hes; simpl; [reflexivity|].
  inversion Hes; subst. rewrite IH by assumption.
  unfold store. apply lookup_insert_ne. assumption.
Qed.

(** The last store to a key is the one that counts. *)
Lemma fold_store_last {K} `{Countable K} (es1 es2 : list (K * Constraints))
    (m : gmap K Constraints) (k : K) (v : Constraints) :
  Forall (fun e => e.1 <> k) es2 ->
  fold_left store (es1 ++ (k, v) :: es2) m !! k = Some v.
Proof.
  intros Hes. rewrite fold_left_app. simpl.
  rewrite fold_store_other by assumption.
  unfold store. apply lookup_insert_eq.
Qed.

(** * The claims *)

(** C2. Merging [A] with [B] gives, for each optional bound, [B]'s value when
    [B] has one and [A]'s value otherwise, and the unique flag is the
    disjunction of the two flags ([B]'s bounds being numeric literals, as
    every bound the tool reads is).  Consequently, for a member whose target
    is a known alias, the constraint the member pass resolves and stores is
    the alias's constraint overridden, bound by bound, by the bounds declared
    on the member itself. *)
Theorem merge_right_biased_on_presence :
  (forall A B : Constraints,
      wf B ->
      str_min (merge A B) = right_biased (str_min A) (str_min B)
      /\ str_max (merge A B) = right_biased (str_max A) (str_max B)
      /\ num_min (merge A B) = right_biased (num_min A) (num_min B)
      /\ num_max (merge A B) = right_biased (num_max A) (num_max B)
      /\ rep_min (merge A B) = right_biased (rep_min A) (rep_min B)
      /\ rep_max (merge A B) = right_biased (rep_max A) (rep_max B)
      /\ unique (merge A B) = unique A || unique B)
  /\ (forall (ac : gmap str Constraints) (struct : str)
             (mc : gmap (str * str) Constraints) (mem : rmatch_result)
             (a : Constraints),
         ac !! group_text mem g_target = Some a ->
         let d := gather_constraints (group_text mem g_traits) in
         let e := resolve_member ac (group_text mem g_traits)
                                 (group_text mem g_target) in
         (nonempty e = true ->
          member_step ac struct mc mem !! (struct, group_text mem g_name)
          = Some e)
         /\ str_min e = right_biased (str_min a) (str_min d)
         /\ str_max e = right_biased (str_max a) (str_max d)
         /\ num_min e = right_biased (num_min a) (num_min d)
         /\ num_max e = right_biased (num_max a) (num_max d)
         /\ rep_min e = right_biased (rep_min a) (rep_min d)
         /\ rep_max e = right_biased (rep_max a) (rep_max d)
         /\ unique e = unique a || unique d).
Proof.
  assert (Hmerge : forall A B : Constraints,
      wf B ->
      str_min (merge A B) = right_biased (str_min A) (str_min B)
      /\ str_max (merge A B) = right_biased (str_max A) (str_max B)
      /\ num_min (merge A B) = right_biased (num_min A) (num_min B)
      /\ num_max (merge A B) = right_biased (num_max A) (num_max B)
      /\ rep_min (merge A B) = right_biased (rep_min A) (rep_min B)
      /\ rep_max (merge A B) = right_biased (rep_max A) (rep_max B)
      /\ unique (merge A B) = unique A || unique B).
  { intros A B [B1 B2 B3 B4 B5 B6]. simpl.
    repeat split; auto using por_right_biased. }
  split; [exact Hmerge|].
  intros ac struct mc mem a Ha d e. split.
  - intros Hne. unfold member_step. fold e. rewrite Hne.
    apply lookup_insert_eq.
  - subst e d. unfold resolve_member. rewrite Ha.
    apply Hmerge, gather_constraints_wf.
Qed.

Lemma merge_right_biased_on_presence_witness :
  wf Sample.direct_cons
  /\ str_max (merge Sample.alias_cons Sample.direct_cons) = Some (lit "5")
  /\ str_min (merge Sample.alias_cons Sample.direct_cons) = Some (lit "1").
Proof.
  split; [apply wfb_spec; reflexivity|].
  destruct (proj1 merge_right_biased_on_presence
                  Sample.alias_cons Sample.direct_cons) as (H1 & H2 & _).
  - apply wfb_spec; reflexivity.
  - rewrite H1, H2. split; reflexivity.
Defined.

(** C9. Every constraint the trait extractor produces has equal string and
    repeated bounds ([str_min = rep_min], [str_max = rep_max]): only
    [@length] writes them and it writes both alike.  Merging keeps the
    equality, so every value of the alias map and of the member map has
    it. *)
Theorem length_bounds_linked :
  (forall block : str, length_linked (gather_constraints block))
  /\ (forall A B : Constraints,
         length_linked A -> length_linked B -> length_linked (merge A B))
  /\ (forall (files : list str) (alias : str) (c : Constraints),
         alias_pass files !! alias = Some c -> length_linked c)
  /\ (forall (files : list str) (key : str * str) (c : Constraints),
         member_constraints files !! key = Some c -> length_linked c).
Proof.
  split; [exact gather_constraints_linked|].
  split; [exact merge_linked|].
  split.
  - intros files alias c Hc.
    exact (alias_pass_inv length_linked gather_constraints_linked files
                          alias c Hc).
  - intros files key c Hc.
    exact (member_constraints_inv length_linked gather_constraints_linked
                                  merge_linked files key c Hc).
Qed.

Lemma length_bounds_linked_witness :
  length_linked Sample.alias_cons /\ length_linked Sample.direct_cons
  /\ length_linked (merge Sample.alias_cons Sample.direct_cons).
Proof.
  assert (Ha : length_linked Sample.alias_cons) by (split; reflexivity).
  assert (Hd : length_linked Sample.direct_cons) by (split; reflexivity).
  split; [exact Ha|]. split; [exact Hd|].
  exact (proj1 (proj2 length_bounds_linked) _ _ Ha Hd).
Defined.

(** C3. For a repeated field the attributes are exactly the repeated ones:
    [repeated.min_items] when the repeated minimum is set,
    [repeated.max_items] when the repeated maximum is set, and
    [repeated.unique = true] when the flag is set.  Every one of them starts
    with [repeated.], and the annotation does not depend on the type name nor
    on the string and numeric bounds of the constraint. *)
Theorem repeated_field_only_repeated_attrs (ftype : str) (c : Constraints) :
  (forall a : str,
      a ∈ option_attrs ftype true c <->
      (exists v, rep_min c = Some v /\ v <> []
                 /\ a = attr_text (lit "repeated.min_items") v)
      \/ (exists v, rep_max c = Some v /\ v <> []
                    /\ a = attr_text (lit "repeated.max_items") v)
      \/ (unique c = true /\ a = lit "repeated.unique = true"))
  /\ (forall a : str,
         a ∈ option_attrs ftype true c -> startswith (lit "repeated.") a = true)
  /\ (forall (ftype' : str) (c' : Constraints),
         rep_min c' = rep_min c -> rep_max c' = rep_max c ->
         unique c' = unique c ->
         build_option ftype' true c' = build_option ftype true c).
Proof.
  assert (Hchar : forall a : str,
      a ∈ option_attrs ftype true c <->
      (exists v, rep_min c = Some v /\ v <> []
                 /\ a = attr_text (lit "repeated.min_items") v)
      \/ (exists v, rep_max c = Some v /\ v <> []
                    /\ a = attr_text (lit "repeated.max_items") v)
      \/ (unique c = true /\ a = lit "repeated.unique = true")).
  { intros a. unfold option_attrs.
    rewrite !elem_of_app, !elem_of_bound_attr.
    destruct (unique c).
    - rewrite list_elem_of_singleton. intuition.
    - split; [intros [H|[H|H]]; [auto|auto|inversion H]|].
      intros [H|[H|[H _]]]; [auto|auto|discriminate]. }
  split; [exact Hchar|]. split.
  - intros a Ha. apply Hchar in Ha as [(v & _ & _ & ->)|[(v & _ & _ & ->)|[_ ->]]];
      reflexivity.
  - intros ftype' c' E1 E2 E3. unfold build_option, option_attrs.
    rewrite E1, E2, E3. reflexivity.
Qed.

(** The text of an annotation, for a constraint whose bounds are numeric
    literals.  One attribute [a] is set inline, between [ [(] and [)]], behind
    the prefix [buf.validate.field).]; two or three attributes are set one per
    line inside brackets, separated by a comma and a line break, each behind
    the prefix [(buf.validate.field).].  There are at most three attributes,
    and their order is fixed: the minimum bound, the maximum bound, and last,
    for a repeated field, the unique flag. *)
Lemma option_text_format (ftype : str) (repeated : bool) (c : Constraints) :
  wf c ->
  (forall a : str,
      option_attrs ftype repeated c = [a] ->
      build_option ftype repeated c
      = lit " [" ++ field_prefix ++ a ++ lit ")]")
  /\ (2 <= length (option_attrs ftype repeated c) ->
      build_option ftype repeated c
      = lit " [" ++ [newline] ++ lit "  "
        ++ join (lit "," ++ [newline] ++ lit "  ")
                (map (fun a => field_prefix ++ a)
                     (option_attrs ftype repeated c))
        ++ [newline] ++ lit "]")
  /\ (forall a b : str,
         option_attrs ftype repeated c = [a; b] ->
         build_option ftype repeated c
         = lit " [" ++ [newline]
           ++ lit "  (buf.validate.field)." ++ a ++ lit "," ++ [newline]
           ++ lit "  (buf.validate.field)." ++ b ++ [newline] ++ lit "]")
  /\ (forall a b d : str,
         option_attrs ftype repeated c = [a; b; d] ->
         build_option ftype repeated c
         = lit " [" ++ [newline]
           ++ lit "  (buf.validate.field)." ++ a ++ lit "," ++ [newline]
           ++ lit "  (buf.validate.field)." ++ b ++ lit "," ++ [newline]
           ++ lit "  (buf.validate.field)." ++ d ++ [newline] ++ lit "]")
  /\ length (option_attrs ftype repeated c) <= 3
  /\ (exists kmin kmax lo hi,
         bound_keys ftype kmin kmax
         /\ option_attrs ftype repeated c
            = bound_attrs kmin kmax lo hi
              ++ (if repeated && unique c
                  then [lit "repeated.unique = true"] else [])).
Proof.
  intros Hwf. split_and!.
  - intros a Ha. unfold build_option. rewrite Ha. apply format_single.
    pose proof (option_attrs_no_paren ftype repeated c Hwf) as Hf.
    rewrite Ha in Hf. inversion Hf; assumption.
  - intros Hlen. unfold build_option.
    destruct (option_attrs ftype repeated c) as [|a [|b l]];
      simpl in Hlen; [lia|lia|reflexivity].
  - intros a b Hab. unfold build_option. rewrite Hab.
    unfold format_attrs, field_prefix. simpl.
    rewrite <- !app_assoc. reflexivity.
  - intros a b d Habd. unfold build_option. rewrite Habd.
    unfold format_attrs, field_prefix. simpl.
    rewrite <- !app_assoc. simpl. rewrite <- !app_assoc. reflexivity.
  - apply option_attrs_length.
  - apply option_attrs_order, Hwf.
Qed.

(** C7. When the branch selected by the repetition flag and the type name
    gives no attribute, the option builder returns the empty text, and the
    line loop leaves such a field line and its own state as they are, although
    the constraint found for the field is not empty.  In particular a
    constraint with nothing but the unique flag gives no annotation on a field
    that is not repeated. *)
Theorem empty_branch_leaves_line :
  (forall (ftype : str) (repeated : bool) (c : Constraints),
      option_attrs ftype repeated c = [] -> build_option ftype repeated c = [])
  /\ (forall (mc : gmap (str * str) Constraints) (st : pstate) (line : str)
             (m : rmatch_result) (cs : Constraints),
         re_match MSG_RX line = None ->
         re_match FIELD_RX line = Some m ->
         mc !! (default [] (ctx st), group_text m 3) = Some cs ->
         option_attrs (group_text m 2) (field_repeated m) cs = [] ->
         patch_line mc st line = (st, line))
  /\ (forall (ftype : str) (c : Constraints),
         str_min c = None -> str_max c = None ->
         num_min c = None -> num_max c = None ->
         unique c = true ->
         nonempty c = true /\ build_option ftype false c = []).
Proof.
  split_and!.
  - intros ftype repeated c Ha. unfold build_option. rewrite Ha. reflexivity.
  - intros mc st line m cs Hmsg Hfield Hcs Ha.
    destruct (patch_line_cases mc st line)
      as [(m' & Hm' & _)|[[_ Hp]|(m' & opt & _ & Hf & _ & Ho & _)]].
    + congruence.
    + exact Hp.
    + rewrite Hfield in Hf. injection Hf as <-.
      apply field_option_Some in Ho as [_ (cs' & Hcs' & _ & -> & Hne)].
      rewrite Hcs in Hcs'. injection Hcs' as <-.
      unfold build_option in Hne. rewrite Ha in Hne. contradiction.
  - intros ftype c H1 H2 H3 H4 Hu. split.
    + unfold nonempty. rewrite Hu. apply orb_true_r.
    + unfold build_option, option_attrs. rewrite H1, H2, H3, H4.
      destruct (str_eqb ftype (lit "string")); reflexivity.
Qed.

Lemma empty_branch_leaves_line_witness :
  patch_line UniqueSample.members UniqueSample.in_msg UniqueSample.field_line
  = (UniqueSample.in_msg, UniqueSample.field_line).
Proof.
  destruct (re_match FIELD_RX UniqueSample.field_line) as [m|] eqn:Hm;
    [|vm_compute in Hm; discriminate].
  apply (proj1 (proj2 empty_branch_leaves_line) UniqueSample.members
               UniqueSample.in_msg UniqueSample.field_line m
               UniqueSample.unique_only).
  - vm_compute. reflexivity.
  - exact Hm.
  - vm_compute in Hm. injection Hm as <-. vm_compute. reflexivity.
  - vm_compute in Hm. injection Hm as <-. vm_compute. reflexivity.
Defined.

(** C10. A round of the line loop either leaves the line, the dirty flag and
    the counter as they are, or rewrites the line: the new line is the old one
    without the semicolons at its end, then the synthesized option (not
    empty), then one semicolon.  Only semicolons are taken off: the old line is
    the kept part followed by semicolons, and the kept part does not end in
    one.  Over a whole file every line is kept or rewritten in this way, and
    the number of lines does not change. *)
Theorem rewritten_line_frame (mc : gmap (str * str) Constraints) :
  (forall (st : pstate) (line : str),
      ((patch_line mc st line).2 = line
       /\ dirty (patch_line mc st line).1 = dirty st
       /\ patched (patch_line mc st line).1 = patched st)
      \/ (exists m cs,
             re_match FIELD_RX line = Some m
             /\ mc !! (default [] (ctx st), group_text m 3) = Some cs
             /\ build_option (group_text m 2) (field_repeated m) cs <> []
             /\ rewritten_with
                  (build_option (group_text m 2) (field_repeated m) cs)
                  line (patch_line mc st line).2
             /\ dirty (patch_line mc st line).1 = true
             /\ patched (patch_line mc st line).1 = S (patched st)))
  /\ (forall line : str,
         exists n, line = rstrip semicolon line ++ repeat ";"%char n
                   /\ forall t, rstrip semicolon line <> t ++ lit ";")
  /\ (forall (st : pstate) (lines : list str),
         Forall2 kept_or_rewritten lines (patch_lines mc st lines).2).
Proof.
  assert (Hline : forall (st : pstate) (line : str),
      ((patch_line mc st line).2 = line
       /\ dirty (patch_line mc st line).1 = dirty st
       /\ patched (patch_line mc st line).1 = patched st)
      \/ (exists m cs,
             re_match FIELD_RX line = Some m
             /\ mc !! (default [] (ctx st), group_text m 3) = Some cs
             /\ build_option (group_text m 2) (field_repeated m) cs <> []
             /\ rewritten_with
                  (build_option (group_text m 2) (field_repeated m) cs)
                  line (patch_line mc st line).2
             /\ dirty (patch_line mc st line).1 = true
             /\ patched (patch_line mc st line).1 = S (patched st))).
  { intros st line.
    destruct (patch_line_cases mc st line)
      as [(m & _ & ->)|[[_ ->]|(m & opt & _ & Hf & _ & Ho & ->)]].
    - left. auto.
    - left. auto.
    - right. apply field_option_Some in Ho as [_ (cs & Hcs & _ & -> & Hne)].
      exists m, cs. unfold rewritten_with. simpl. auto 10. }
  split; [exact Hline|]. split; [exact rstrip_semicolon_spec|].
  intros st lines. revert st.
  induction lines as [|line rest IH]; intros st; simpl; [constructor|].
  specialize (Hline st line).
  destruct (patch_line mc st line) as [st1 line'] eqn:Hp.
  specialize (IH st1).
  destruct (patch_lines mc st1 rest) as [st2 rest'] eqn:Hr. simpl in *.
  constructor; [|exact IH].
  destruct Hline as [[-> _]|(m & cs & _ & _ & Hne & Hrw & _)].
  - left. reflexivity.
  - right. eauto.
Qed.

(** With an import line read as a line that [IMPORT_RX] matches in full:
    after the import normalisation at most one line of the file is an
    import of the validation library.  When import lines exist, the first is
    replaced by the canonical import line where it stands, and the other
    import lines are deleted, every other line staying in place and in order.
    When none exists and the file is dirty, the canonical line is
    inserted, at index 2 if the first two lines start with [syntax] and
    [package], and at index 1 otherwise; a dirty file has a line, so these
    indices exist.  When none exists and the file is not dirty the lines are
    left alone. *)
Lemma import_normalisation :
  (forall (d : bool) (lines : list str),
      count_imports (normalise_imports d lines) <= 1)
  /\ (forall (d : bool) (lines : list str) (first : nat) (others : list nat),
         import_indices lines = first :: others ->
         exists pre l post,
           lines = pre ++ l :: post /\ length pre = first
           /\ is_import l = true /\ count_imports pre = 0
           /\ normalise_imports d lines
              = pre ++ IMPORT_LINE :: without_imports post
           /\ count_imports (normalise_imports d lines) = 1)
  /\ (forall lines : list str,
         import_indices lines = [] -> lines <> [] ->
         let at_index := if header_first lines then 2 else 1 in
         normalise_imports true lines
         = take at_index lines ++ IMPORT_LINE :: drop at_index lines
         /\ normalise_imports true lines !! at_index = Some IMPORT_LINE
         /\ count_imports (normalise_imports true lines) = 1)
  /\ (forall lines : list str,
         header_first lines = true <->
         exists a b rest,
           lines = (lit "syntax" ++ a) :: (lit "package" ++ b) :: rest)
  /\ (forall lines : list str,
         import_indices lines = [] -> normalise_imports false lines = lines)
  /\ (forall (mc : gmap (str * str) Constraints) (lines : list str),
         dirty (patch_lines mc (PState None false 0) lines).1 = true ->
         (patch_lines mc (PState None false 0) lines).2 <> []).
Proof.
  assert (Hnone : forall lines : list str,
             import_indices lines = [] -> lines <> [] ->
             let at_index := if header_first lines then 2 else 1 in
             normalise_imports true lines
             = take at_index lines ++ IMPORT_LINE :: drop at_index lines
             /\ normalise_imports true lines !! at_index = Some IMPORT_LINE
             /\ count_imports (normalise_imports true lines) = 1).
  { intros lines Hi Hne at_index. unfold normalise_imports. rewrite Hi.
    fold at_index. split; [reflexivity|]. split.
    - apply lookup_insert_at. subst at_index.
      destruct (header_first lines) eqn:Hh.
      + apply header_first_spec in Hh as (a & b & rest & ->). simpl. lia.
      + destruct lines; [congruence|simpl; lia].
    - rewrite count_imports_insert_at.
      rewrite (import_indices_from_nil 0 lines Hi). reflexivity. }
  assert (Hfound : forall (d : bool) (lines : list str) (first : nat)
                          (others : list nat),
             import_indices lines = first :: others ->
             exists pre l post,
               lines = pre ++ l :: post /\ length pre = first
               /\ is_import l = true /\ count_imports pre = 0
               /\ normalise_imports d lines
                  = pre ++ IMPORT_LINE :: without_imports post
               /\ count_imports (normalise_imports d lines) = 1).
  { intros d lines first others Hi.
    destruct (normalise_imports_found d lines first others Hi)
      as (pre & l & post & E & Hlen & Hl & Hc & Hn).
    exists pre, l, post. split_and!; auto.
    rewrite Hn, count_imports_app, count_imports_cons, is_import_IMPORT_LINE,
      count_without_imports, Hc. reflexivity. }
  split_and!.
  - intros d lines. destruct (import_indices lines) as [|first others] eqn:Hi.
    + destruct d.
      * destruct lines as [|l ls]; [vm_compute; lia|].
        destruct (Hnone (l :: ls) Hi) as (_ & _ & ->); [discriminate|lia].
      * unfold normalise_imports. rewrite Hi.
        rewrite (import_indices_from_nil 0 lines Hi). lia.
    + destruct (Hfound d lines first others Hi) as (? & ? & ? & _ & _ & _ & _ & _ & ->).
      lia.
  - exact Hfound.
  - exact Hnone.
  - exact header_first_spec.
  - intros lines Hi. unfold normalise_imports. rewrite Hi. reflexivity.
  - intros mc lines Hd. apply patch_lines_dirty in Hd as [Hd|Hd];
      [discriminate|exact Hd].
Qed.

Lemma import_normalisation_sample :
  count_imports (normalise_imports false ImportSample.twice) = 1
  /\ normalise_imports true ImportSample.headed
     = [ImportSample.syntax_line; lit "package demo;"; IMPORT_LINE;
        lit "message Msg {"; lit "}"].
Proof.
  split.
  - destruct (proj1 (proj2 import_normalisation) false ImportSample.twice 1 [3])
      as (pre & l & post & _ & _ & _ & _ & _ & Hc).
    + vm_compute. reflexivity.
    + exact Hc.
  - destruct (proj1 (proj2 (proj2 import_normalisation)) ImportSample.headed)
      as (Hn & _).
    + vm_compute. reflexivity.
    + discriminate.
    + rewrite Hn. vm_compute. reflexivity.
Defined.

(** C8. For a string alias declaration found in a file, the constraint stored
    under the alias name is the trait extractor's result on the whole text of
    the file before the declaration, from the first character on: this is
    what the alias map holds after the file, unless a later string alias or a
    list alias of the same file has the same name. *)
Theorem string_alias_sees_whole_prefix (ac : gmap str Constraints) (txt : str)
    (earlier later : list rmatch_result) (m : rmatch_result) :
  finditer RE_STRING_ALIAS txt = earlier ++ m :: later ->
  Forall (fun m' => group_text m' 1 <> group_text m 1) later ->
  Forall (fun m' => group_text m' 1 <> group_text m 1)
         (finditer RE_LIST_ALIAS txt) ->
  alias_pass_file ac txt !! group_text m 1
  = Some (gather_constraints (take (m_start m) txt)).
Proof.
  intros Hfind Hlater Hlist. unfold alias_pass_file.
  rewrite fold_store_other.
  - rewrite Hfind, map_app. simpl. unfold string_alias_entry at 2.
    apply fold_store_last.
    apply Forall_map. eapply Forall_impl; [exact Hlater|]. auto.
  - apply Forall_map. eapply Forall_impl; [exact Hlist|]. auto.
Qed.

(** A later alias of the same file picks up the bounds of a trait that stands
    before an earlier one. *)
Lemma string_alias_sees_whole_prefix_witness :
  alias_pass_file ∅ AliasSample.smithy !! lit "Note"
  = Some AliasSample.length_1_5.
Proof.
  destruct (finditer RE_STRING_ALIAS AliasSample.smithy)
    as [|m1 [|m2 [|m3 l]]] eqn:Hf; try (vm_compute in Hf; discriminate).
  assert (Hm2 : group_text m2 1 = lit "Note" /\ m_start m2 = 37).
  { vm_compute in Hf. injection Hf as _ <-. split; reflexivity. }
  destruct Hm2 as [Hname Hstart].
  rewrite <- Hname.
  rewrite (string_alias_sees_whole_prefix ∅ AliasSample.smithy [m1] [] m2).
  - rewrite Hstart. vm_compute. reflexivity.
  - exact Hf.
  - constructor.
  - rewrite Hname. vm_compute. constructor.
Defined.

(** C1, at an input where it fails.  The field line of the sample file has a
    comment after its semicolon.  The first run appends the option at the end
    of the line; the second run finds no marker in the text before the first
    semicolon and appends the option once more, so the second run does not
    leave the file as the first run left it. *)
Theorem second_run_rewrites_again :
  RerunSample.once = RerunSample.expected_once
  /\ RerunSample.twice = RerunSample.expected_twice
  /\ RerunSample.twice <> RerunSample.once.
Proof.
  assert (H1 : RerunSample.once = RerunSample.expected_once)
    by (vm_compute; reflexivity).
  assert (H2 : RerunSample.twice = RerunSample.expected_twice)
    by (vm_compute; reflexivity).
  split; [exact H1|]. split; [exact H2|].
  rewrite H1, H2. intros E. apply (f_equal (@length ascii)) in E.
  vm_compute in E. discriminate.
Qed.

(** A second input where a second run changes the file again: each write
    joins the lines without a final line break, so a file that ends in an
    empty line loses one line break per run. *)
Lemma second_run_drops_blank_end :
  patched_text ∅ RerunSample.blank_end = IMPORT_LINE ++ [newline]
  /\ patched_text ∅ (patched_text ∅ RerunSample.blank_end) = IMPORT_LINE.
Proof. split; vm_compute; reflexivity. Qed.

(** * Further properties of the code *)

(** ** What a pattern consumes *)

Lemma matches_cls_inv (p : ascii -> bool) (st st' : mstate) :
  matches (Cls p) st st' ->
  exists c, ahead st = c :: ahead st' /\ p c = true
            /\ passed st' = c :: passed st /\ groups st' = groups st.
Proof. inversion 1; subst. simpl. eauto. Qed.

Lemma matches_alt_inv (r1 r2 : regex) (st st' : mstate) :
  matches (Alt r1 r2) st st' -> matches r1 st st' \/ matches r2 st st'.
Proof. inversion 1; subst; auto. Qed.

Lemma matches_chr_inv (c : ascii) (st st' : mstate) :
  matches (Chr c) st st' ->
  ahead st = c :: ahead st' /\ groups st' = groups st.
Proof.
  intros H. apply matches_cls_inv in H as (d & E & Hd & _ & G).
  apply chr_eqb_eq in Hd. subst d. auto.
Qed.

(** A literal of one character, as [seqs] builds it. *)
Lemma matches_lit1_inv (c : ascii) (st st' : mstate) :
  matches (Seq (Chr c) Eps) st st' ->
  ahead st = c :: ahead st' /\ groups st' = groups st.
Proof.
  intros H. apply matches_seq_inv in H as (st1 & H1 & H2).
  apply matches_eps_inv in H2. subst. apply matches_chr_inv. exact H1.
Qed.

Lemma matches_plus_digit (st st' : mstate) :
  matches (Plus digit) st st' ->
  exists w, ahead st = w ++ ahead st' /\ digits w.
Proof.
  intros H.
  apply (matches_consumes (fun c => is_digit c = true)) in H
    as (w & E & F & N).
  - exists w. split; [exact E|]. split; [apply N; reflexivity|exact F].
  - simpl. auto.
Qed.

(** The text [number] consumes is a numeric literal. *)
Lemma matches_number (st st' : mstate) :
  matches number st st' ->
  exists v, ahead st = v ++ ahead st' /\ numeric_literal v.
Proof.
  unfold number. cbn [seqs foldr]. intros H.
  apply matches_seq_inv in H as (s1 & Hsign & H).
  apply matches_seq_inv in H as (s2 & Hint & H).
  apply matches_seq_inv in H as (s3 & Hfrac & He).
  apply matches_eps_inv in He. subst s3.
  assert (Hs : exists sign, ahead st = sign ++ ahead s1
                            /\ (sign = [] \/ sign = lit "-")).
  { apply matches_alt_inv in Hsign as [Hl|He].
    - apply matches_lit1_inv in Hl as [E _]. exists (lit "-"). auto.
    - apply matches_eps_inv in He. subst. exists []. auto. }
  destruct Hs as (sign & Es & Hsign').
  apply matches_plus_digit in Hint as (w & Ew & Hw).
  assert (Hf : exists frac, ahead s2 = frac ++ ahead st'
                 /\ (frac = [] \/ exists d, frac = lit "." ++ d /\ digits d)).
  { apply matches_alt_inv in Hfrac as [Hl|He].
    - apply matches_seq_inv in Hl as (s4 & Hdot & Hd).
      apply matches_lit1_inv in Hdot as [Edot _].
      apply matches_plus_digit in Hd as (d & Ed & Hd).
      exists (lit "." ++ d). split; [rewrite Edot, Ed; reflexivity|].
      right. eauto.
    - apply matches_eps_inv in He. subst. exists []. auto. }
  destruct Hf as (frac & Ef & Hfrac').
  exists (sign ++ w ++ frac). split.
  - rewrite Es, Ew, Ef, <- !app_assoc. reflexivity.
  - exists sign, w, frac. auto.
Qed.

Lemma pick_literal (blob : str) (key : string) (v : str) :
  _pick blob key = Some v -> numeric_literal v.
Proof.
  unfold _pick, re_search. intros Hp.
  destruct (search_from _ _ _) as [m|] eqn:Hs; [|discriminate].
  apply search_from_sound in Hs as (st0 & _ & Hm & Hg).
  unfold group in Hp. rewrite Hg in Hp. clear Hg.
  unfold pick_rx in Hm. cbn [seqs foldr] in Hm.
  do 5 (apply matches_seq_inv in Hm as (? & _ & Hm)).
  apply matches_seq_inv in Hm as (st1 & Hm & He).
  apply matches_eps_inv in He. rewrite He in Hp. clear He.
  apply matches_grp_inv in Hm as (st2 & Hm & ->).
  apply matches_number in Hm as (w & E & Hw).
  simpl in Hp. injection Hp as <-.
  rewrite E, length_app, Nat.add_sub, take_app_length. exact Hw.
Qed.

(** X1. Whatever [_pick] returns is a numeric literal: an optional minus
    sign, at least one digit, and optionally a point followed by at least one
    digit.  In particular it is never the empty text. *)
Theorem pick_returns_numeric_literal (blob : str) (key : string) (v : str) :
  _pick blob key = Some v ->
  numeric_literal v /\ v <> [].
Proof.
  intros Hp. pose proof (pick_literal blob key v Hp) as Hl.
  split; [exact Hl|].
  destruct Hl as (sign & w & frac & -> & _ & [Hw _] & _).
  destruct sign; [destruct w; [congruence|discriminate]|discriminate].
Qed.

Lemma pick_returns_numeric_literal_witness :
  _pick PickSample.inner "max" = Some (lit "150.5")
  /\ numeric_literal (lit "150.5").
Proof.
  assert (H : _pick PickSample.inner "max" = Some (lit "150.5"))
    by (vm_compute; reflexivity).
  split; [exact H|].
  exact (proj1 (pick_returns_numeric_literal PickSample.inner "max"
                  (lit "150.5") H)).
Defined.

(** ** Stored bounds are numeric literals *)

Lemma por_cases (a b : option str) : por a b = a \/ por a b = b.
Proof. unfold por. destruct (truthy a); auto. Qed.

Lemma all_bounds_intro (Q : str -> Prop) (c : Constraints) :
  (forall v, str_min c = Some v -> Q v) ->
  (forall v, str_max c = Some v -> Q v) ->
  (forall v, num_min c = Some v -> Q v) ->
  (forall v, num_max c = Some v -> Q v) ->
  (forall v, rep_min c = Some v -> Q v) ->
  (forall v, rep_max c = Some v -> Q v) ->
  all_bounds Q c.
Proof. intros H1 H2 H3 H4 H5 H6 v [H|[H|[H|[H|[H|H]]]]]; eauto. Qed.

Lemma por_pick_literal (blob : str) (key : string) (o : option str) (v : str) :
  (forall w, o = Some w -> numeric_literal w) ->
  por (_pick blob key) o = Some v -> numeric_literal v.
Proof.
  intros Ho Hv. destruct (por_cases (_pick blob key) o) as [E|E];
    rewrite E in Hv; eauto using pick_literal.
Qed.

Lemma apply_trait_literal (c : Constraints) (trait : str) :
  all_bounds numeric_literal c -> all_bounds numeric_literal (apply_trait c trait).
Proof.
  intros Hc. unfold apply_trait.
  repeat case_match; try exact Hc;
    apply all_bounds_intro; simpl; intros v Hv;
    try (apply Hc; tauto);
    (eapply por_pick_literal; [|exact Hv]); intros w Hw; apply Hc; tauto.
Qed.

Lemma gather_constraints_literal (block : str) :
  all_bounds numeric_literal (gather_constraints block).
Proof.
  unfold gather_constraints.
  apply fold_apply_trait_inv; [exact apply_trait_literal|].
  intros v H. simpl in H. decompose [or] H; discriminate.
Qed.

Lemma merge_literal (a b : Constraints) :
  all_bounds numeric_literal a -> all_bounds numeric_literal b ->
  all_bounds numeric_literal (merge a b).
Proof.
  intros Ha Hb. apply all_bounds_intro; simpl; intros v Hv;
    match type of Hv with
    | por ?x ?y = _ =>
        destruct (por_cases x y) as [E|E]; rewrite E in Hv;
        [apply Hb|apply Ha]; tauto
    end.
Qed.

(** X2. Every bound held by the alias map or by the member map, whatever the
    source files are, is a numeric literal; so the values the option builder
    prints are numbers and never empty. *)
Theorem stored_bounds_are_numeric_literals (files : list str) :
  (forall (alias : str) (c : Constraints),
      alias_pass files !! alias = Some c -> all_bounds numeric_literal c)
  /\ (forall (key : str * str) (c : Constraints),
         member_constraints files !! key = Some c ->
         all_bounds numeric_literal c).
Proof.
  split.
  - intros alias c Hc.
    exact (alias_pass_inv (all_bounds numeric_literal)
             gather_constraints_literal files alias c Hc).
  - intros key c Hc.
    exact (member_constraints_inv (all_bounds numeric_literal)
             gather_constraints_literal merge_literal files key c Hc).
Qed.

(** ** The member map holds no empty constraint *)

Lemma member_pass_nonempty (ac : gmap str Constraints) (files : list str) :
  map_Forall (fun _ c => nonempty c = true) (member_pass ac files).
Proof.
  unfold member_pass.
  assert (Hmem : forall struct ms mc,
            map_Forall (fun _ c => nonempty c = true) mc ->
            map_Forall (fun _ c => nonempty c = true)
                       (fold_left (member_step ac struct) ms mc)).
  { intros struct ms. induction ms as [|m ms IH]; intros mc Hmc; simpl; auto.
    apply IH. unfold member_step.
    destruct (nonempty (resolve_member ac _ _)) eqn:Hn; auto.
    apply map_Forall_insert_2; auto. }
  assert (Hst : forall txt sts mc,
            map_Forall (fun _ c => nonempty c = true) mc ->
            map_Forall (fun _ c => nonempty c = true)
                       (fold_left (struct_step ac txt) sts mc)).
  { intros txt sts. induction sts as [|s sts IH]; intros mc Hmc; simpl; auto.
    apply IH. unfold struct_step. apply Hmem, Hmc. }
  assert (Hgen : forall mc,
            map_Forall (fun _ c => nonempty c = true) mc ->
            map_Forall (fun _ c => nonempty c = true)
                       (fold_left (member_pass_file ac) files mc)).
  { induction files as [|f fs IH]; intros mc Hmc; simpl; auto.
    apply IH. unfold member_pass_file. apply Hst, Hmc. }
  apply Hgen, map_Forall_empty.
Qed.

(** X3. The member map never holds an empty constraint: a member without any
    trait of its own and without a constrained alias gets no entry, so a
    lookup that succeeds always gives something to annotate with. *)
Theorem member_map_has_no_empty_constraint (files : list str)
    (key : str * str) (c : Constraints) :
  member_constraints files !! key = Some c ->
  nonempty c = true
  /\ (is_Some (str_min c) \/ is_Some (str_max c) \/ is_Some (num_min c)
      \/ is_Some (num_max c) \/ is_Some (rep_min c) \/ is_Some (rep_max c)
      \/ unique c = true).
Proof.
  intros Hc.
  assert (Hn : nonempty c = true)
    by exact (member_pass_nonempty (alias_pass files) files key c Hc).
  split; [exact Hn|].
  unfold nonempty in Hn. rewrite !orb_true_iff in Hn.
  assert (Ht : forall o : option str, truthy o = true -> is_Some o).
  { intros [v|] H; [eauto|discriminate]. }
  decompose [or] Hn; auto 10.
Qed.

Lemma member_map_has_no_empty_constraint_witness :
  member_constraints [RerunSample.smithy] !! (lit "Msg", lit "txt")
  = Some Sample.direct_cons
  /\ nonempty Sample.direct_cons = true.
Proof.
  assert (H : member_constraints [RerunSample.smithy] !! (lit "Msg", lit "txt")
              = Some Sample.direct_cons) by (vm_compute; reflexivity).
  split; [exact H|].
  exact (proj1 (member_map_has_no_empty_constraint _ _ _ H)).
Defined.

(** ** More on what a match consumes *)

(** The text passed grows by exactly what is taken from the text ahead. *)
Lemma matches_passed (r : regex) (st st' : mstate) :
  matches r st st' ->
  exists w, ahead st = w ++ ahead st' /\ passed st' = rev w ++ passed st.
Proof.
  induction 1 as [st|p c t st Ha Hp|r1 r2 st st1 st2 _ IH1 _ IH2
                 |r1 r2 st st1 _ IH|r1 r2 st st1 _ IH|r st
                 |r st st1 st2 _ IH1 _ IH2|n r st st1 _ IH|st _|st _];
    simpl.
  - exists []. auto.
  - exists [c]. rewrite Ha. auto.
  - destruct IH1 as (w1 & E1 & P1). destruct IH2 as (w2 & E2 & P2).
    exists (w1 ++ w2). rewrite E1, E2, P2, P1, rev_app_distr, <- !app_assoc. auto.
  - exact IH.
  - exact IH.
  - exists []. auto.
  - destruct IH1 as (w1 & E1 & P1). destruct IH2 as (w2 & E2 & P2).
    exists (w1 ++ w2). rewrite E1, E2, P2, P1, rev_app_distr, <- !app_assoc. auto.
  - exact IH.
  - exists []. auto.
  - exists []. auto.
Qed.

Lemma matches_group_free (r : regex) (st st' : mstate) :
  matches r st st' -> group_free r = true -> groups st' = groups st.
Proof.
  induction 1 as [st|p c t st Ha Hp|r1 r2 st st1 st2 _ IH1 _ IH2
                 |r1 r2 st st1 _ IH|r1 r2 st st1 _ IH|r st
                 |r st st1 st2 _ IH1 _ IH2|n r st st1 _ IH|st _|st _];
    simpl; intros Hg; try reflexivity; try discriminate.
  - apply andb_true_iff in Hg as [G1 G2]. rewrite IH2, IH1; auto.
  - apply andb_true_iff in Hg as [G1 _]. auto.
  - apply andb_true_iff in Hg as [_ G2]. auto.
  - rewrite IH2, IH1; auto.
Qed.

Lemma matches_seqs_app (l1 l2 : list regex) (st st' : mstate) :
  matches (seqs (l1 ++ l2)) st st' ->
  exists mid, matches (seqs l1) st mid /\ matches (seqs l2) mid st'.
Proof.
  revert st. induction l1 as [|r l1 IH]; intros st H; simpl in *.
  - exists st. split; [constructor|exact H].
  - apply matches_seq_inv in H as (s1 & H1 & H2).
    apply IH in H2 as (mid & Hm1 & Hm2).
    exists mid. split; [econstructor; eauto|exact Hm2].
Qed.

(** A group records the text its pattern consumed. *)
Lemma matches_grp_text (n : nat) (r : regex) (st st' : mstate) :
  matches (Grp n r) st st' ->
  exists w, ahead st = w ++ ahead st' /\ groups st' = (n, w) :: tl (groups st')
            /\ matches r st (MState (passed st') (ahead st') (tl (groups st'))).
Proof.
  intros H. apply matches_grp_inv in H as (st1 & Hm & ->).
  destruct (matches_passed _ _ _ Hm) as (w & E & _).
  exists w. simpl. rewrite E, length_app, Nat.add_sub, take_app_length.
  split_and!; auto. destruct st1; exact Hm.
Qed.

(** ** The parts of a matched field line *)

Lemma FIELD_RX_split : FIELD_RX = seqs (field_head ++ field_tail).
Proof. reflexivity. Qed.

Lemma is_upper_word (c : ascii) : is_upper c = true -> is_word c = true.
Proof. intros H. unfold is_word. rewrite H, orb_true_r. reflexivity. Qed.

Lemma is_digit_word (c : ascii) : is_digit c = true -> is_word c = true.
Proof. intros H. unfold is_word. rewrite H. reflexivity. Qed.

(** A letter matched without regard to case is a word character. *)
Lemma chrI_word (x d : ascii) :
  is_word (to_lower x) = true ->
  chr_eqb (to_lower x) (to_lower d) = true -> is_word d = true.
Proof.
  intros Hx He. apply chr_eqb_eq in He. unfold to_lower in He at 2.
  destruct (is_upper d) eqn:Hu; [apply is_upper_word, Hu|].
  rewrite <- He. exact Hx.
Qed.

Lemma decl_char_space (c : ascii) : is_space c = true -> decl_char c = true.
Proof. intros H. unfold decl_char. rewrite H. reflexivity. Qed.

Lemma decl_char_word (c : ascii) : is_word c = true -> decl_char c = true.
Proof. intros H. unfold decl_char. rewrite H, orb_true_r. reflexivity. Qed.

Lemma decl_char_eq (c : ascii) : chr_eqb "=" c = true -> decl_char c = true.
Proof. intros H. unfold decl_char. rewrite H, orb_true_r. reflexivity. Qed.

Lemma field_head_classes :
  classes_in (fun c => decl_char c = true) (seqs field_head).
Proof.
  unfold field_head, seqs, Opt, Plus, Lit, LitI, Chr, ChrI, space, word, digit.
  cbn [foldr map lit list_ascii_of_string classes_in].
  repeat split; intros c Hc;
    first [ apply decl_char_space; exact Hc
          | apply decl_char_eq; exact Hc
          | apply decl_char_word; exact Hc
          | apply decl_char_word, is_digit_word; exact Hc
          | apply decl_char_word;
            eapply chrI_word; [|exact Hc]; reflexivity ].
Qed.

Lemma Forall_forallb (p : ascii -> bool) (w : str) :
  Forall (fun c => p c = true) w -> forallb p w = true.
Proof.
  intros H. apply forallb_forall. intros c Hc.
  rewrite Forall_forall in H. apply H, list_elem_of_In, Hc.
Qed.

(** A line matched by [FIELD_RX] is a declaration made of blanks, word
    characters and [=], then a tail without semicolon, which is group 5, then
    a semicolon, then anything. *)
Lemma field_match_parts (line : str) (m : rmatch_result) :
  re_match FIELD_RX line = Some m ->
  exists decl tail rest,
    line = decl ++ tail ++ ";"%char :: rest
    /\ decl <> []
    /\ forallb decl_char decl = true
    /\ forallb not_semicolon tail = true
    /\ group_text m 5 = tail.
Proof.
  unfold re_match. intros Hm.
  apply rmatch_sound in Hm as (st' & Hm & Hk). injection Hk as <-.
  rewrite FIELD_RX_split in Hm.
  apply matches_seqs_app in Hm as (mid & Hhead & Htail).
  apply (matches_consumes (fun c => decl_char c = true)) in Hhead
    as (decl & Ed & Fd & Nd); [|exact field_head_classes].
  unfold field_tail in Htail. cbn [seqs foldr] in Htail.
  apply matches_seq_inv in Htail as (s5 & H5 & Hsemi).
  apply matches_seq_inv in Hsemi as (s6 & Hsemi & He).
  apply matches_eps_inv in He. subst s6.
  apply matches_lit1_inv in Hsemi as [Esemi Gsemi].
  apply matches_grp_text in H5 as (tail & Et & Gt & Hstar).
  apply (matches_consumes (fun c => not_semicolon c = true)) in Hstar
    as (tail' & Et' & Ft & _).
  2:{ simpl. intros c Hc. unfold not_semicolon.
      unfold one_of in Hc. simpl in Hc. rewrite orb_false_r in Hc.
      destruct (chr_eqb ";" c) eqn:E; [|reflexivity].
      apply chr_eqb_eq in E. subst c. discriminate. }
  simpl in Et'. rewrite Et in Et'. apply app_inv_tail in Et'. subst tail'.
  exists decl, tail, (ahead st'). simpl in Ed. split_and!.
  - rewrite Ed, Et, Esemi. reflexivity.
  - apply Nd. reflexivity.
  - apply Forall_forallb, Fd.
  - apply Forall_forallb, Ft.
  - unfold group_text, group, mk_match. simpl.
    rewrite Gsemi, Gt. simpl. reflexivity.
Qed.

(** ** The characters of an annotation *)

Lemma forallb_mono (p q : ascii -> bool) (s : str) :
  (forall c, p c = true -> q c = true) ->
  forallb p s = true -> forallb q s = true.
Proof.
  intros Hpq H. apply forallb_forall. intros c Hc.
  rewrite forallb_forall in H. auto.
Qed.

Lemma forallb_join (q : ascii -> bool) (sep : str) (parts : list str) :
  forallb q sep = true -> Forall (fun p => forallb q p = true) parts ->
  forallb q (join sep parts) = true.
Proof.
  intros Hsep. induction 1 as [|p ps Hp _ IH]; [reflexivity|].
  destruct ps as [|p' ps]; [exact Hp|].
  change (join sep (p :: p' :: ps)) with (p ++ sep ++ join sep (p' :: ps)).
  rewrite !forallb_app, Hp, Hsep, IH. reflexivity.
Qed.

Lemma one_of_fixed (s : str) :
  forallb (one_of fixed_chars) s = true -> forallb opt_char s = true.
Proof.
  apply forallb_mono. intros c Hc. unfold opt_char. rewrite Hc. reflexivity.
Qed.

Lemma numeric_opt_char (v : str) :
  Forall (fun c => numchar c = true) v -> forallb opt_char v = true.
Proof.
  intros H. apply Forall_forallb. eapply Forall_impl; [exact H|].
  intros c Hc. unfold opt_char. simpl. rewrite Hc. apply orb_true_r.
Qed.

Lemma numcat_opt_char (ftype : str) : forallb opt_char (numcat ftype) = true.
Proof. unfold numcat. repeat case_match; reflexivity. Qed.

Lemma bound_attr_opt_char (key : str) (o : option str) :
  forallb opt_char key = true -> wf_bound o ->
  Forall (fun a => forallb opt_char a = true) (bound_attr key o).
Proof.
  intros Hk Hw. apply Forall_forall. intros a Ha.
  apply elem_of_bound_attr in Ha as (v & -> & _ & ->).
  unfold attr_text. rewrite !forallb_app, Hk. simpl.
  apply numeric_opt_char. exact (proj2 (Hw v eq_refl)).
Qed.

Lemma option_attrs_opt_char (ftype : str) (repeated : bool) (c : Constraints) :
  wf c ->
  Forall (fun a => forallb opt_char a = true) (option_attrs ftype repeated c).
Proof.
  intros [H1 H2 H3 H4 H5 H6]. unfold option_attrs.
  repeat case_match; repeat apply Forall_app_2;
    try (apply bound_attr_opt_char; [|assumption];
         rewrite ?forallb_app, ?numcat_opt_char; reflexivity).
  - apply Forall_singleton. reflexivity.
  - apply Forall_nil_2.
Qed.

Lemma format_attrs_opt_char (attrs : list str) :
  Forall (fun a => no_paren a = true) attrs ->
  Forall (fun a => forallb opt_char a = true) attrs ->
  forallb opt_char (format_attrs attrs) = true.
Proof.
  intros Hnp Hoc. destruct attrs as [|a [|b l]].
  - reflexivity.
  - rewrite format_single by (inversion Hnp; assumption).
    inversion Hoc; subst. rewrite !forallb_app.
    replace (forallb opt_char a) with true by (symmetry; assumption).
    reflexivity.
  - unfold format_attrs. rewrite !forallb_app.
    rewrite forallb_join; [reflexivity|reflexivity|].
    apply Forall_map. eapply Forall_impl; [exact Hoc|].
    intros x Hx. cbv beta. rewrite forallb_app, Hx. reflexivity.
Qed.

(** X4. An annotation built from numeric bounds holds only the characters of
    its fixed parts and of numbers.  So it holds no semicolon, no brace, no
    quote and no at-sign, and the line feed is its only line break. *)
Theorem annotation_alphabet (ftype : str) (repeated : bool) (c : Constraints) :
  wf c ->
  all_chars opt_char (build_option ftype repeated c) = true
  /\ (forall x : ascii,
         opt_char x = false ->
         all_chars (fun ch => negb (chr_eqb x ch))
                   (build_option ftype repeated c) = true)
  /\ opt_char ";" = false /\ opt_char "{" = false /\ opt_char "}" = false
  /\ opt_char dquote = false /\ opt_char "@" = false
  /\ (forall ch : ascii,
         opt_char ch = true -> is_linebreak ch = true -> ch = newline).
Proof.
  intros Hwf.
  assert (Hall : forallb opt_char (build_option ftype repeated c) = true).
  { unfold build_option. apply format_attrs_opt_char.
    - apply option_attrs_no_paren, Hwf.
    - apply option_attrs_opt_char, Hwf. }
  split; [exact Hall|]. split.
  - intros x Hx. unfold all_chars. eapply forallb_mono; [|exact Hall].
    intros ch Hch. destruct (chr_eqb x ch) eqn:E; [|reflexivity].
    apply chr_eqb_eq in E. subst ch. congruence.
  - split_and!; try reflexivity.
    intros ch Hch Hlb.
    destruct ch as [[] [] [] [] [] [] [] []]; try discriminate Hch;
      try discriminate Hlb; reflexivity.
Qed.

Lemma annotation_alphabet_witness :
  all_chars opt_char (build_option (lit "sint64") false NumericSample.range_cons)
  = true.
Proof.
  assert (Hw : wf NumericSample.range_cons) by (apply wfb_spec; reflexivity).
  exact (proj1 (annotation_alphabet (lit "sint64") false
                  NumericSample.range_cons Hw)).
Defined.

(** ** A line that carries an annotation is not annotated again *)

Lemma first_semicolon_unique (a a' r r' : str) :
  forallb not_semicolon a = true -> forallb not_semicolon a' = true ->
  a ++ ";"%char :: r = a' ++ ";"%char :: r' -> a = a' /\ r = r'.
Proof.
  revert a'. induction a as [|c a IH]; intros [|c' a'] Ha Ha' E; simpl in *.
  - injection E as <-. auto.
  - injection E as <- _. discriminate.
  - injection E as -> _. discriminate.
  - injection E as <- E. apply andb_true_iff in Ha as [_ Ha].
    apply andb_true_iff in Ha' as [_ Ha'].
    destruct (IH a' Ha Ha' E) as [-> ->]. auto.
Qed.

Lemma contains_head (p s : str) :
  startswith p s = true -> contains p s = true.
Proof. intros H. destruct s; simpl; rewrite H; reflexivity. Qed.

Lemma contains_app (p a b : str) : contains p (a ++ p ++ b) = true.
Proof.
  induction a as [|c a IH].
  - apply contains_head. apply (startswith_app p b).
  - change (contains p ((c :: a) ++ p ++ b))
      with (startswith p ((c :: a) ++ p ++ b) || contains p (a ++ p ++ b)).
    rewrite IH. apply orb_true_r.
Qed.

(** A non-empty annotation opens with a blank and a bracket and holds the
    marker after them. *)
Lemma format_attrs_marker (attrs : list str) :
  Forall (fun a => no_paren a = true) attrs -> attrs <> [] ->
  exists mid more, format_attrs attrs = lit " [" ++ mid ++ marker ++ more.
Proof.
  intros Hnp Hne. destruct attrs as [|a [|b l]]; [congruence| |].
  - rewrite format_single by (inversion Hnp; assumption).
    exists (lit "("), (lit ")." ++ a ++ lit ")]"). reflexivity.
  - exists ([newline] ++ lit "  ("),
      (lit ")." ++ a ++ (lit "," ++ [newline] ++ lit "  ")
       ++ join (lit "," ++ [newline] ++ lit "  ")
               (map (fun x => field_prefix ++ x) (b :: l))
       ++ [newline] ++ lit "]").
    unfold format_attrs.
    change (map (fun x => field_prefix ++ x) (a :: b :: l))
      with ((field_prefix ++ a) :: map (fun x => field_prefix ++ x) (b :: l)).
    change (map (fun x => field_prefix ++ x) (b :: l))
      with ((field_prefix ++ b) :: map (fun x => field_prefix ++ x) l).
    generalize (map (fun x => field_prefix ++ x) l). intros rest.
    change (join (lit "," ++ [newline] ++ lit "  ")
                   ((field_prefix ++ a) :: (field_prefix ++ b) :: rest))
        with ((field_prefix ++ a) ++ (lit "," ++ [newline] ++ lit "  ")
              ++ join (lit "," ++ [newline] ++ lit "  ") ((field_prefix ++ b) :: rest)).
    generalize (join (lit "," ++ [newline] ++ lit "  ") ((field_prefix ++ b) :: rest)).
    intros j. simpl. rewrite <- ?app_assoc. reflexivity.
Qed.

Lemma build_option_marker (ftype : str) (repeated : bool) (c : Constraints) :
  wf c -> build_option ftype repeated c <> [] ->
  exists mid more,
    build_option ftype repeated c = lit " [" ++ mid ++ marker ++ more.
Proof.
  intros Hwf Hne. unfold build_option in *.
  apply format_attrs_marker; [apply option_attrs_no_paren, Hwf|].
  intros E. rewrite E in Hne. apply Hne. reflexivity.
Qed.

(** The declaration part of a matched line cannot reach the bracket of an
    annotation. *)
Lemma decl_stops_before_bracket (decl tail kept rest : str) :
  forallb decl_char decl = true ->
  decl ++ tail = kept ++ lit " [" ++ rest ->
  length decl <= S (length kept).
Proof.
  intros Hd E.
  destruct (le_lt_dec (length decl) (S (length kept))) as [|Hlt]; [assumption|].
  exfalso.
  assert (Hl : (decl ++ tail) !! S (length kept) = Some "["%char).
  { rewrite E. rewrite lookup_app_r by lia.
    replace (S (length kept) - length kept) with 1 by lia. reflexivity. }
  rewrite lookup_app_l in Hl by lia.
  rewrite forallb_forall in Hd.
  apply list_elem_of_lookup_2, list_elem_of_In in Hl.
  apply Hd in Hl. discriminate.
Qed.

Lemma opt_char_lacks (x c : ascii) :
  opt_char x = false -> opt_char c = true -> negb (chr_eqb x c) = true.
Proof.
  intros Hx Hc. destruct (chr_eqb x c) eqn:E; [|reflexivity].
  apply chr_eqb_eq in E. subst c. congruence.
Qed.

Lemma build_option_lacks (x : ascii) (ftype : str) (repeated : bool)
    (c : Constraints) :
  opt_char x = false -> wf c ->
  forallb (fun ch => negb (chr_eqb x ch)) (build_option ftype repeated c) = true.
Proof.
  intros Hx Hwf. apply (forallb_mono opt_char); [intros ch; apply opt_char_lacks, Hx|].
  unfold build_option. apply format_attrs_opt_char.
  - apply option_attrs_no_paren, Hwf.
  - apply option_attrs_opt_char, Hwf.
Qed.

Lemma decl_char_not_semicolon (c : ascii) :
  decl_char c = true -> not_semicolon c = true.
Proof.
  intros Hc. unfold not_semicolon. destruct (chr_eqb ";" c) eqn:E; [|reflexivity].
  apply chr_eqb_eq in E. subst c. discriminate.
Qed.

(** The tail of a matched line that ends in an annotation holds the marker. *)
Lemma annotated_tail_has_marker (kept opt : str) (m : rmatch_result)
    (mid more : str) :
  forallb not_semicolon kept = true ->
  forallb not_semicolon opt = true ->
  opt = lit " [" ++ mid ++ marker ++ more ->
  re_match FIELD_RX (kept ++ opt ++ lit ";") = Some m ->
  contains marker (group_text m 5) = true.
Proof.
  intros Hk Ho Eo Hm.
  apply field_match_parts in Hm as (decl & tail & rest & E & _ & Hd & Ht & ->).
  assert (Hsplit : decl ++ tail = kept ++ opt /\ rest = []).
  { apply first_semicolon_unique.
    - rewrite forallb_app, Ht, andb_true_r.
      eapply forallb_mono; [exact decl_char_not_semicolon|exact Hd].
    - rewrite forallb_app, Hk, Ho. reflexivity.
    - rewrite <- !app_assoc. symmetry. exact E. }
  destruct Hsplit as [Hsplit _].
  assert (Hlen : length decl <= S (length kept)).
  { eapply decl_stops_before_bracket; [exact Hd|]. rewrite Hsplit, Eo. reflexivity. }
  assert (Ht' : tail = drop (length decl) ((kept ++ lit " ") ++ lit "["
                                           ++ mid ++ marker ++ more)).
  { rewrite <- (drop_app_length decl tail), Hsplit, Eo, <- !app_assoc.
    reflexivity. }
  rewrite drop_app_le in Ht' by (rewrite length_app; simpl; lia).
  rewrite Ht'.
  rewrite (app_assoc (lit "[") mid), app_assoc.
  apply contains_app.
Qed.

Lemma annotated_line_keeps (mc : gmap (str * str) Constraints) (st : pstate)
    (kept : str) (ftype : str) (repeated : bool) (c : Constraints) :
  wf c -> build_option ftype repeated c <> [] ->
  forallb not_semicolon kept = true ->
  (patch_line mc st (kept ++ build_option ftype repeated c ++ lit ";")).2
  = kept ++ build_option ftype repeated c ++ lit ";"
  /\ dirty (patch_line mc st
              (kept ++ build_option ftype repeated c ++ lit ";")).1 = dirty st
  /\ patched (patch_line mc st
                (kept ++ build_option ftype repeated c ++ lit ";")).1
     = patched st.
Proof.
  intros Hwf Hne Hk.
  destruct (patch_line_cases mc st
              (kept ++ build_option ftype repeated c ++ lit ";"))
    as [(m & _ & ->)|[[_ ->]|(m & o & _ & Hf & _ & Ho & _)]]; auto.
  exfalso. apply field_option_Some in Ho as [Hno _].
  destruct (build_option_marker ftype repeated c Hwf Hne) as (mid & more & Eo).
  rewrite (annotated_tail_has_marker kept (build_option ftype repeated c)
             m mid more Hk) in Hno;
    [discriminate| |exact Eo|exact Hf].
  apply (build_option_lacks ";" ftype repeated c); [reflexivity|exact Hwf].
Qed.

(** X5. The marker guard at work: take a line whose semicolons all stand at
    its end and rewrite it with a non-empty annotation built from numeric
    bounds.  Whatever the state and the member map, a later round of the line
    loop leaves the rewritten line, the dirty flag and the counter as they
    are. *)
Theorem annotated_line_is_stable (mc : gmap (str * str) Constraints)
    (st : pstate) (line line' : str) (ftype : str) (repeated : bool)
    (c : Constraints) :
  wf c -> build_option ftype repeated c <> [] ->
  all_chars not_semicolon (rstrip semicolon line) = true ->
  rewritten_with (build_option ftype repeated c) line line' ->
  (patch_line mc st line').2 = line'
  /\ dirty (patch_line mc st line').1 = dirty st
  /\ patched (patch_line mc st line').1 = patched st.
Proof.
  intros Hwf Hne Hk ->. apply annotated_line_keeps; assumption.
Qed.

Lemma annotated_line_is_stable_witness :
  patch_line RerunSample.members UniqueSample.in_msg StableSample.line
  = (PState (Some (lit "Msg")) true 1, StableSample.rewritten)
  /\ (patch_line RerunSample.members UniqueSample.in_msg
                 StableSample.rewritten).2 = StableSample.rewritten.
Proof.
  split; [vm_compute; reflexivity|].
  refine (proj1 (annotated_line_is_stable RerunSample.members
                   UniqueSample.in_msg StableSample.line StableSample.rewritten
                   (lit "string") false Sample.direct_cons _ _ _ _)).
  - apply wfb_spec. reflexivity.
  - vm_compute. discriminate.
  - vm_compute. reflexivity.
  - vm_compute. reflexivity.
Defined.

(** ** The declaration survives a rewrite *)

(** Stripping semicolons from the end of a line keeps everything before its
    first semicolon. *)
Lemma rstrip_keeps_declaration (decl rest : str) :
  decl <> [] -> forallb not_semicolon decl = true ->
  exists x, rstrip semicolon (decl ++ ";"%char :: rest) = decl ++ x.
Proof.
  intros Hne Hd.
  destruct (rstrip_spec semicolon (decl ++ ";"%char :: rest))
    as (removed & E & Hr & _).
  revert E. generalize (rstrip semicolon (decl ++ ";"%char :: rest)).
  intros kept E.
  apply app_eq_inv in E as [(k & E1 & E2)|(k & E1 & E2)].
  - destruct k as [|ch k].
    + exists []. rewrite E1, !app_nil_r. reflexivity.
    + exfalso. rewrite E1 in Hd. rewrite E2 in Hr.
      rewrite forallb_app in Hd. apply andb_true_iff in Hd as [_ Hd].
      simpl in Hd, Hr. apply andb_true_iff in Hd as [Hd _].
      apply andb_true_iff in Hr as [Hr _].
      unfold semicolon, one_of in Hr. simpl in Hr. rewrite orb_false_r in Hr.
      apply chr_eqb_eq in Hr. subst ch. discriminate.
  - exists k. exact E1.
Qed.

(** X6. When a round of the line loop changes a line, the text of the line up
    to its first semicolon (the declaration: type, name, tag and the options
    already there) is not empty and holds no semicolon, and the new line
    starts with exactly that text. *)
Theorem rewrite_keeps_declaration (mc : gmap (str * str) Constraints)
    (st : pstate) (line : str) :
  (patch_line mc st line).2 <> line ->
  exists decl rest more,
    line = decl ++ ";"%char :: rest
    /\ decl <> []
    /\ all_chars not_semicolon decl = true
    /\ (patch_line mc st line).2 = decl ++ more.
Proof.
  intros Hchg.
  destruct (patch_line_cases mc st line)
    as [(m & _ & E)|[[_ E]|(m & opt & _ & Hf & _ & _ & E)]];
    rewrite E in Hchg |- *; simpl in Hchg |- *; try congruence.
  apply field_match_parts in Hf as (decl & tail & rest & El & Hne & Hd & Ht & _).
  assert (Hdt : forallb not_semicolon (decl ++ tail) = true).
  { rewrite forallb_app, Ht, andb_true_r.
    eapply forallb_mono; [exact decl_char_not_semicolon|exact Hd]. }
  assert (Hne' : decl ++ tail <> []).
  { intros Happ. apply app_eq_nil in Happ as [? _]. contradiction. }
  destruct (rstrip_keeps_declaration (decl ++ tail) rest Hne' Hdt) as (x & Ex).
  exists (decl ++ tail), rest, (x ++ opt ++ lit ";").
  split_and!; auto.
  - rewrite El, <- app_assoc. reflexivity.
  - rewrite El, (app_assoc decl tail (";"%char :: rest)), Ex, <- !app_assoc.
    reflexivity.
Qed.

Lemma rewrite_keeps_declaration_witness :
  exists decl rest more,
    StableSample.line = decl ++ ";"%char :: rest
    /\ decl <> []
    /\ all_chars not_semicolon decl = true
    /\ (patch_line RerunSample.members UniqueSample.in_msg StableSample.line).2
       = decl ++ more.
Proof.
  apply (rewrite_keeps_declaration RerunSample.members UniqueSample.in_msg
           StableSample.line).
  vm_compute. discriminate.
Defined.

(** ** Fields without a constraint *)

Lemma patch_line_unconstrained (mc : gmap (str * str) Constraints)
    (st : pstate) (line : str) :
  (forall m ctx_name, re_match FIELD_RX line = Some m ->
                      mc !! (ctx_name, group_text m 3) = None) ->
  (patch_line mc st line).2 = line
  /\ dirty (patch_line mc st line).1 = dirty st
  /\ patched (patch_line mc st line).1 = patched st.
Proof.
  intros Hmiss.
  destruct (patch_line_cases mc st line)
    as [(m & _ & ->)|[[_ ->]|(m & o & _ & Hf & _ & Ho & _)]]; auto.
  exfalso. apply field_option_Some in Ho as [_ (cs & Hcs & _)].
  rewrite (Hmiss m _ Hf) in Hcs. discriminate.
Qed.

Lemma patch_lines_unconstrained (mc : gmap (str * str) Constraints)
    (lines : list str) (st : pstate) :
  Forall (fun line => forall m ctx_name,
              re_match FIELD_RX line = Some m ->
              mc !! (ctx_name, group_text m 3) = None) lines ->
  (patch_lines mc st lines).2 = lines
  /\ dirty (patch_lines mc st lines).1 = dirty st
  /\ patched (patch_lines mc st lines).1 = patched st.
Proof.
  intros H. revert st. induction H as [|line rest Hl _ IH]; intros st; simpl.
  - auto.
  - destruct (patch_line_unconstrained mc st line Hl) as (E1 & E2 & E3).
    destruct (patch_line mc st line) as [st1 line']. simpl in *. subst line'.
    destruct (IH st1) as (F1 & F2 & F3).
    destruct (patch_lines mc st1 rest) as [st2 rest']. simpl in *.
    subst rest'. split_and!; congruence.
Qed.

(** X7. A target file is left byte for byte as it is when no field name of
    its field lines is a member name of the member map and it holds no import
    of the validation library: no line is rewritten, nothing is counted and
    the file is not written. *)
Theorem unconstrained_file_untouched (mc : gmap (str * str) Constraints)
    (text : str) :
  Forall (fun line => forall m ctx_name,
              re_match FIELD_RX line = Some m ->
              mc !! (ctx_name, group_text m 3) = None) (splitlines text) ->
  count_imports (splitlines text) = 0 ->
  patch_file mc text = (None, 0) /\ patched_text mc text = text.
Proof.
  intros Hmiss Hnone.
  assert (Hpf : patch_file mc text = (None, 0)).
  { unfold patch_file.
    destruct (patch_lines_unconstrained mc (splitlines text)
                (PState None false 0) Hmiss) as (E1 & E2 & E3).
    destruct (patch_lines mc (PState None false 0) (splitlines text))
      as [st lines]. simpl in *. subst lines. rewrite E2, E3.
    destruct (import_indices (splitlines text)) as [|i others] eqn:Hi.
    - reflexivity.
    - apply import_indices_from_cons in Hi
        as (pre & l & post & E & _ & Hl & _ & _).
      rewrite E, count_imports_app, count_imports_cons, Hl in Hnone. lia. }
  split; [exact Hpf|]. unfold patched_text. rewrite Hpf. reflexivity.
Qed.

Lemma unconstrained_file_untouched_witness :
  patched_text UniqueSample.members PlainSample.proto = PlainSample.proto.
Proof.
  refine (proj2 (unconstrained_file_untouched UniqueSample.members
                   PlainSample.proto _ _)).
  - assert (Hmiss : forall ctx_name,
               UniqueSample.members !! (ctx_name, lit "id") = None).
    { intros ctx_name. unfold UniqueSample.members.
      apply lookup_singleton_ne. intros E. discriminate E. }
    change (splitlines PlainSample.proto)
      with [lit "message Msg {"; lit "  string id = 1;"; lit "}"].
    repeat constructor; intros m ctx_name Hm; vm_compute in Hm;
      try discriminate Hm.
    injection Hm as <-. apply Hmiss.
  - vm_compute. reflexivity.
Defined.

(** ** Normalising the imports twice *)

Lemma without_imports_id (ls : list str) :
  count_imports ls = 0 -> without_imports ls = ls.
Proof.
  induction ls as [|l ls IH]; [reflexivity|].
  rewrite count_imports_cons. unfold without_imports in *. simpl.
  destruct (is_import l); simpl; [lia|]. intros H. rewrite IH; auto.
Qed.

Lemma first_import_unique (a a' b b' : list str) (l l' : str) :
  count_imports a = 0 -> count_imports a' = 0 ->
  is_import l = true -> is_import l' = true ->
  a ++ l :: b = a' ++ l' :: b' -> a = a' /\ l = l' /\ b = b'.
Proof.
  revert a'. induction a as [|x a IH]; intros [|x' a'] Ha Ha' Hl Hl' E;
    simpl in E.
  - injection E as <- <-. auto.
  - injection E as <- _. rewrite count_imports_cons, Hl in Ha'. lia.
  - injection E as -> _. rewrite count_imports_cons, Hl' in Ha. lia.
  - injection E as <- E. rewrite count_imports_cons in Ha, Ha'.
    destruct (IH a') as (-> & -> & ->); auto; lia.
Qed.

Lemma import_indices_some (lines : list str) :
  0 < count_imports lines -> import_indices lines <> [].
Proof.
  intros Hc Hi. apply (import_indices_from_nil 0) in Hi. lia.
Qed.

(** A file with exactly one import, the canonical one, is a fixed point. *)
Lemma normalise_imports_fixed (d : bool) (a b : list str) :
  count_imports a = 0 -> count_imports b = 0 ->
  normalise_imports d (a ++ IMPORT_LINE :: b) = a ++ IMPORT_LINE :: b.
Proof.
  intros Ha Hb.
  destruct (import_indices (a ++ IMPORT_LINE :: b)) as [|first others] eqn:Hi.
  - exfalso. revert Hi. apply import_indices_some.
    rewrite count_imports_app, count_imports_cons, is_import_IMPORT_LINE. lia.
  - destruct (normalise_imports_found d _ first others Hi)
      as (pre & l & post & E & _ & Hl & Hpre & ->).
    apply first_import_unique in E as (-> & <- & ->);
      auto using is_import_IMPORT_LINE.
    rewrite without_imports_id by assumption. reflexivity.
Qed.

(** What the normalisation leaves when it has something to do. *)
Lemma normalise_imports_result (d : bool) (lines : list str) :
  import_indices lines <> [] \/ d = true ->
  exists a b, normalise_imports d lines = a ++ IMPORT_LINE :: b
              /\ count_imports a = 0 /\ count_imports b = 0.
Proof.
  intros H. destruct (import_indices lines) as [|first others] eqn:Hi.
  - destruct H as [H| ->]; [congruence|].
    unfold normalise_imports. rewrite Hi. unfold list_insert_at.
    pose proof (import_indices_from_nil 0 lines Hi) as Hc.
    set (k := if header_first lines then 2 else 1).
    rewrite <- (take_drop k lines), count_imports_app in Hc.
    exists (take k lines), (drop k lines). split_and!; [reflexivity|lia|lia].
  - destruct (normalise_imports_found d lines first others Hi)
      as (pre & l & post & _ & _ & _ & Hpre & ->).
    exists pre, (without_imports post).
    split_and!; auto using count_without_imports.
Qed.

(** X8. The import normalisation is idempotent: once it has replaced, deleted
    or inserted import lines, running it again, with any dirty flag, changes
    nothing. *)
Theorem import_normalisation_idempotent (d d' : bool) (lines : list str) :
  import_indices lines <> [] \/ d = true ->
  normalise_imports d' (normalise_imports d lines) = normalise_imports d lines.
Proof.
  intros H.
  destruct (normalise_imports_result d lines H) as (a & b & -> & Ha & Hb).
  apply normalise_imports_fixed; assumption.
Qed.

Lemma import_normalisation_idempotent_witness :
  normalise_imports true (normalise_imports false ImportSample.twice)
  = normalise_imports false ImportSample.twice.
Proof.
  apply (import_normalisation_idempotent false true ImportSample.twice).
  left. vm_compute. discriminate.
Defined.

(** ** The counter and the dirty flag *)

Lemma format_attrs_starts_blank (attrs : list str) :
  attrs <> [] -> exists t, format_attrs attrs = " "%char :: t.
Proof.
  intros Hne. destruct attrs as [|a [|b l]]; [congruence| |].
  - unfold format_attrs, replace.
    change (lit " [(" ++ field_prefix ++ a ++ lit ")]")
      with (" "%char :: lit "[(" ++ field_prefix ++ a ++ lit ")]").
    generalize (lit "[(" ++ field_prefix ++ a ++ lit ")]"). intros r.
    simpl. eauto.
  - unfold format_attrs. simpl. eauto.
Qed.

(** A rewritten line differs from the line it comes from. *)
Lemma rewritten_differs (line opt : str) :
  (exists t, opt = " "%char :: t) ->
  rstrip semicolon line ++ opt ++ lit ";" <> line.
Proof.
  intros [t ->] E.
  destruct (rstrip_spec semicolon line) as (removed & Er & Hr & _).
  revert E Er. generalize (rstrip semicolon line). intros k E Er.
  rewrite Er in E. apply app_inv_head in E.
  destruct removed as [|c removed]; [discriminate|].
  injection E as <- _. discriminate.
Qed.

Lemma patch_line_counts (mc : gmap (str * str) Constraints) (st : pstate)
    (line : str) :
  patched (patch_line mc st line).1
  = patched st + (if str_eqb line (patch_line mc st line).2 then 0 else 1)
  /\ dirty (patch_line mc st line).1
     = dirty st || negb (str_eqb line (patch_line mc st line).2).
Proof.
  destruct (patch_line_cases mc st line)
    as [(m & _ & ->)|[[_ ->]|(m & o & _ & _ & _ & Ho & ->)]];
    cbn [fst snd patched dirty].
  - replace (str_eqb line line) with true by (symmetry; apply str_eqb_eq; auto).
    rewrite orb_false_r. split; [lia|reflexivity].
  - replace (str_eqb line line) with true by (symmetry; apply str_eqb_eq; auto).
    rewrite orb_false_r. split; [lia|reflexivity].
  - apply field_option_Some in Ho as [_ (cs & _ & _ & -> & Hne)].
    assert (Hd : str_eqb line
                   (rstrip semicolon line
                    ++ build_option (group_text m 2) (field_repeated m) cs
                    ++ lit ";") = false).
    { apply str_eqb_neq. intros E. symmetry in E. revert E.
      apply rewritten_differs. unfold build_option in *.
      apply format_attrs_starts_blank. intros E. rewrite E in Hne.
      apply Hne. reflexivity. }
    rewrite Hd, orb_true_r. split; [lia|reflexivity].
Qed.

(** X9. After the line loop the counter has grown by exactly the number of
    lines that differ from what they were, the dirty flag is set exactly when
    it was set before or some line differs, and the file has as many lines as
    before. *)
Theorem counter_counts_changed_lines (mc : gmap (str * str) Constraints)
    (lines : list str) (st : pstate) :
  patched (patch_lines mc st lines).1
  = patched st + changed_lines lines (patch_lines mc st lines).2
  /\ dirty (patch_lines mc st lines).1
     = dirty st || (0 <? changed_lines lines (patch_lines mc st lines).2)
  /\ length (patch_lines mc st lines).2 = length lines.
Proof.
  revert st. induction lines as [|line rest IH]; intros st; simpl.
  - rewrite Nat.add_0_r, orb_false_r. auto.
  - destruct (patch_line_counts mc st line) as [Hp Hd].
    destruct (patch_line mc st line) as [st1 line']. simpl in Hp, Hd.
    destruct (IH st1) as (Ip & Id & Il).
    destruct (patch_lines mc st1 rest) as [st2 rest']. simpl in *.
    rewrite Ip, Id, Hp, Hd, Il.
    destruct (str_eqb line line'); simpl;
      destruct (changed_lines rest rest'); simpl;
      rewrite ?orb_false_r, ?orb_true_r; split_and!; auto; lia.
Qed.

(** ** The algebra of merge *)

Lemma por_assoc (a b c : option str) : por c (por b a) = por (por c b) a.
Proof. unfold por. destruct (truthy c) eqn:Hc; [rewrite Hc|]; reflexivity. Qed.

Lemma por_idem (a : option str) : por a a = a.
Proof. unfold por. destruct (truthy a); reflexivity. Qed.

Lemma truthy_por (a b : option str) : truthy (por a b) = truthy a || truthy b.
Proof. unfold por. destruct (truthy a) eqn:Ha; [rewrite Ha|]; reflexivity. Qed.

Lemma por_None_r_wf (a : option str) : wf_bound a -> por a None = a.
Proof.
  intros Hw. unfold por. rewrite truthy_wf by assumption.
  destruct a; reflexivity.
Qed.

(** X10. Merging is associative and idempotent, the empty constraint is its
    identity on the left and on the right (for bounds that are numeric
    literals), and a merge is empty exactly when both of its operands are. *)
Theorem merge_algebra :
  (forall a b c : Constraints, merge (merge a b) c = merge a (merge b c))
  /\ (forall a : Constraints, merge a a = a)
  /\ (forall a : Constraints, merge a no_constraints = a)
  /\ (forall a : Constraints, wf a -> merge no_constraints a = a)
  /\ (forall a b : Constraints,
         nonempty (merge a b) = nonempty a || nonempty b).
Proof.
  split_and!.
  - intros a b c. unfold merge. simpl.
    rewrite !por_assoc, orb_assoc. reflexivity.
  - intros [s1 s2 n1 n2 r1 r2 u]. unfold merge. simpl.
    rewrite !por_idem, orb_diag. reflexivity.
  - intros [s1 s2 n1 n2 r1 r2 u]. unfold merge. simpl.
    rewrite orb_false_r. reflexivity.
  - intros [s1 s2 n1 n2 r1 r2 u] [H1 H2 H3 H4 H5 H6]. unfold merge.
    simpl in *. rewrite !por_None_r_wf by assumption. reflexivity.
  - intros a b. unfold nonempty, merge. simpl. rewrite !truthy_por.
    destruct (truthy (str_min a)), (truthy (str_min b)),
      (truthy (str_max a)), (truthy (str_max b)),
      (truthy (num_min a)), (truthy (num_min b)),
      (truthy (num_max a)), (truthy (num_max b)),
      (truthy (rep_min a)), (truthy (rep_min b)),
      (truthy (rep_max a)), (truthy (rep_max b)),
      (unique a), (unique b); reflexivity.
Qed.

Lemma merge_algebra_witness :
  merge no_constraints Sample.alias_cons = Sample.alias_cons.
Proof.
  apply (proj1 (proj2 (proj2 (proj2 merge_algebra)))).
  apply wfb_spec. reflexivity.
Defined.

(** ** Lines outside a message *)

Lemma patch_line_outside (mc : gmap (str * str) Constraints) (d : bool)
    (n : nat) (line : str) :
  re_match MSG_RX line = None ->
  patch_line mc (PState None d n) line = (PState None d n, line).
Proof.
  intros Hm. unfold patch_line. rewrite Hm.
  destruct (re_match FIELD_RX line); reflexivity.
Qed.

(** X11. Field lines are only rewritten inside a message: as long as no
    message line has been met, the line loop changes no line, and its state
    stays as it was.  So a file without a message line is never dirty. *)
Theorem no_rewrite_before_first_message (mc : gmap (str * str) Constraints)
    (d : bool) (n : nat) (lines : list str) :
  Forall (fun line => re_match MSG_RX line = None) lines ->
  patch_lines mc (PState None d n) lines = (PState None d n, lines).
Proof.
  induction 1 as [|line rest Hl _ IH]; simpl; [reflexivity|].
  rewrite (patch_line_outside mc d n line Hl), IH. reflexivity.
Qed.

Lemma no_rewrite_before_first_message_witness :
  patch_lines RerunSample.members (PState None false 0) OutsideSample.lines
  = (PState None false 0, OutsideSample.lines).
Proof.
  apply (no_rewrite_before_first_message RerunSample.members false 0
           OutsideSample.lines).
  repeat constructor; vm_compute; reflexivity.
Defined.

(** ** The string branch of the option builder *)

(** X12. For a field that is not repeated and whose type name is [string],
    the attributes are [string.min_len] for the string minimum and
    [string.max_len] for the string maximum, each when the bound is set; the
    numeric and repeated bounds and the unique flag play no part. *)
Theorem string_field_only_string_attrs (c : Constraints) :
  (forall a : str,
      a ∈ option_attrs (lit "string") false c <->
      (exists v, str_min c = Some v /\ v <> []
                 /\ a = attr_text (lit "string.min_len") v)
      \/ (exists v, str_max c = Some v /\ v <> []
                    /\ a = attr_text (lit "string.max_len") v))
  /\ (forall c' : Constraints,
         str_min c' = str_min c -> str_max c' = str_max c ->
         build_option (lit "string") false c'
         = build_option (lit "string") false c).
Proof.
  split.
  - intros a.
    change (option_attrs (lit "string") false c)
      with (bound_attr (lit "string.min_len") (str_min c)
            ++ bound_attr (lit "string.max_len") (str_max c)).
    rewrite elem_of_app, !elem_of_bound_attr. reflexivity.
  - intros c' E1 E2. unfold build_option.
    change (option_attrs (lit "string") false c')
      with (bound_attr (lit "string.min_len") (str_min c')
            ++ bound_attr (lit "string.max_len") (str_max c')).
    rewrite E1, E2. reflexivity.
Qed.

(** ** Where the matches of a search lie *)

Lemma search_from_pos (r : regex) (rest before : str) (m : rmatch_result) :
  search_from r before rest = Some m ->
  exists st0,
    groups st0 = []
    /\ rev (passed st0) ++ ahead st0 = rev before ++ rest
    /\ length (passed st0) = m_start m
    /\ matches r st0 (m_rest m)
    /\ m_groups m = groups (m_rest m)
    /\ m_end m = length (passed (m_rest m)).
Proof.
  revert before. induction rest as [|c t IH]; intros before Hs; simpl in Hs.
  - apply or_else_Some in Hs as [Hs | [_ Hs]]; [|discriminate].
    apply rmatch_sound in Hs as (st' & Hm & Hk). injection Hk as <-.
    exists (MState before [] []). simpl. split_and!; auto.
  - apply or_else_Some in Hs as [Hs | [_ Hs]].
    + apply rmatch_sound in Hs as (st' & Hm & Hk). injection Hk as <-.
      exists (MState before (c :: t) []). simpl. split_and!; auto.
    + apply IH in Hs as (st0 & G & E & L & Hm & Hg & He).
      exists st0. split_and!; auto.
      rewrite E. simpl. rewrite <- app_assoc. reflexivity.
Qed.

(** Every match that [finditer] yields is a match of the pattern at its start
    offset in the text searched. *)
Lemma finditer_from_sound (r : regex) (fuel : nat) (before rest : str)
    (m : rmatch_result) :
  m ∈ finditer_from fuel r before rest ->
  exists st0,
    groups st0 = []
    /\ rev (passed st0) ++ ahead st0 = rev before ++ rest
    /\ length (passed st0) = m_start m
    /\ matches r st0 (m_rest m)
    /\ m_groups m = groups (m_rest m)
    /\ m_end m = length (passed (m_rest m)).
Proof.
  revert before rest. induction fuel as [|fuel IH]; intros before rest Hin;
    simpl in Hin; [inversion Hin|].
  destruct (search_from r before rest) as [m0|] eqn:Hs; [|inversion Hin].
  pose proof (search_from_pos r rest before m0 Hs)
    as (st0 & G & E & L & Hm & Hg & He).
  apply elem_of_cons in Hin as [->|Hin]; [exists st0; split_and!; auto|].
  destruct (matches_passed _ _ _ Hm) as (w & Ew & Pw).
  assert (Etext : rev (passed (m_rest m0)) ++ ahead (m_rest m0)
                  = rev before ++ rest).
  { rewrite <- E, Ew, Pw, rev_app_distr, rev_involutive, <- app_assoc.
    reflexivity. }
  destruct (m_start m0 <? m_end m0).
  - apply IH in Hin as (st1 & G1 & E1 & R1). exists st1.
    rewrite E1, Etext. auto.
  - destruct (ahead (m_rest m0)) as [|c t] eqn:Ha; [inversion Hin|].
    apply IH in Hin as (st1 & G1 & E1 & R1). exists st1.
    rewrite E1. simpl. rewrite <- app_assoc. simpl. rewrite Etext. auto.
Qed.

(** The text of a match is the piece of the searched text between its
    offsets, and it is what the pattern consumed. *)
Lemma finditer_whole (r : regex) (s : str) (m : rmatch_result) :
  m ∈ finditer r s ->
  exists st0 pre post,
    s = pre ++ whole s m ++ post
    /\ length pre = m_start m
    /\ passed st0 = rev pre
    /\ ahead st0 = whole s m ++ post
    /\ groups st0 = []
    /\ ahead (m_rest m) = post
    /\ matches r st0 (m_rest m)
    /\ m_groups m = groups (m_rest m).
Proof.
  intros Hin. unfold finditer in Hin.
  apply finditer_from_sound in Hin as (st0 & G & E & L & Hm & Hg & He).
  simpl in E.
  destruct (matches_passed _ _ _ Hm) as (w & Ew & Pw).
  assert (Hw : whole s m = w).
  { unfold whole. rewrite He, Pw, length_app, length_rev, <- L.
    replace (length w + length (passed st0) - length (passed st0))
      with (length w) by lia.
    rewrite <- E, Ew.
    rewrite drop_app_length' by (rewrite length_rev; reflexivity).
    apply take_app_length. }
  exists st0, (rev (passed st0)), (ahead (m_rest m)).
  rewrite Hw, length_rev, rev_involutive, <- Ew. split_and!; auto.
Qed.

(** ** The trait texts of a block *)

Lemma matches_RE_TRAIT (st st' : mstate) :
  matches RE_TRAIT st st' ->
  exists name args,
    ahead st = "@"%char :: name ++ args ++ ahead st'
    /\ name <> [] /\ forallb is_word name = true
    /\ forallb (fun c => negb (trait_stop c)) args = true.
Proof.
  unfold RE_TRAIT. cbn [seqs foldr]. intros H.
  apply matches_seq_inv in H as (s1 & Hat & H).
  apply matches_seq_inv in H as (s2 & Hname & H).
  apply matches_seq_inv in H as (s3 & Hargs & He).
  apply matches_eps_inv in He. subst s3.
  apply matches_lit1_inv in Hat as [Eat _].
  apply (matches_consumes (fun c => is_word c = true)) in Hname
    as (name & En & Fn & Nn); [|simpl; auto].
  apply (matches_consumes (fun c => negb (trait_stop c) = true)) in Hargs
    as (args & Ea & Fa & _); [|simpl; auto].
  exists name, args. rewrite Eat, En, Ea.
  split_and!; auto using Forall_forallb.
Qed.

Lemma findall_trait_texts (block t : str) :
  t ∈ findall RE_TRAIT block ->
  exists pre post name args,
    block = pre ++ t ++ post
    /\ t = "@"%char :: name ++ args
    /\ name <> [] /\ forallb is_word name = true
    /\ forallb (fun c => negb (trait_stop c)) args = true.
Proof.
  unfold findall. intros Hin.
  apply list_elem_of_In, in_map_iff in Hin as (m & <- & Hm).
  apply list_elem_of_In, finditer_whole in Hm
    as (st0 & pre & post & Es & _ & _ & Ea & _ & Ep & Hm & _).
  apply matches_RE_TRAIT in Hm as (name & args & E & Hn & Hw & Hargs).
  rewrite Ea, Ep in E.
  exists pre, post, name, args. split_and!; auto.
  change ("@"%char :: name ++ args ++ post)
    with (("@"%char :: name) ++ args ++ post) in E.
  rewrite app_assoc in E. apply app_inv_tail in E. exact E.
Qed.

(** X13. Every trait text the extractor looks at is a piece of the block that
    starts with an at-sign and a name of word characters and goes on without
    any at-sign or brace.  A block without at-sign therefore gives the empty
    constraint. *)
Theorem trait_texts_of_a_block (block : str) :
  (forall t : str,
      t ∈ findall RE_TRAIT block ->
      exists pre post name args,
        block = pre ++ t ++ post
        /\ t = "@"%char :: name ++ args
        /\ name <> [] /\ all_chars is_word name = true
        /\ all_chars (fun c => negb (trait_stop c)) args = true)
  /\ (all_chars (fun c => negb (chr_eqb "@" c)) block = true ->
      findall RE_TRAIT block = []
      /\ gather_constraints block = no_constraints).
Proof.
  split; [exact (findall_trait_texts block)|].
  intros Hno.
  assert (Hnil : findall RE_TRAIT block = []).
  { destruct (findall RE_TRAIT block) as [|t ts] eqn:Hf; [reflexivity|].
    exfalso.
    destruct (findall_trait_texts block t)
      as (pre & post & name & args & E & -> & _); [rewrite Hf; left|].
    rewrite E in Hno. unfold all_chars in Hno.
    rewrite forallb_app in Hno. apply andb_true_iff in Hno as [_ Hno].
    simpl in Hno. discriminate. }
  split; [exact Hnil|]. unfold gather_constraints. rewrite Hnil. reflexivity.
Qed.

Lemma trait_texts_of_a_block_witness :
  gather_constraints (lit "namespace demo
string Code") = no_constraints.
Proof.
  apply (proj2 (trait_texts_of_a_block _)). vm_compute. reflexivity.
Defined.

(** * Running the tool twice *)

(** ** Splitting and joining lines *)

Lemma no_break_not_cr (c : ascii) :
  is_linebreak c = false -> (code c =? 13) = false.
Proof.
  destruct c as [[] [] [] [] [] [] [] []]; intros H;
    try reflexivity; discriminate H.
Qed.

Lemma nl_only_cases (c : ascii) :
  nl_only c = true -> c = newline \/ is_linebreak c = false.
Proof.
  unfold nl_only, no_break. intros H. apply orb_true_iff in H as [H|H].
  - right. destruct (is_linebreak c); [discriminate|reflexivity].
  - left. apply chr_eqb_eq in H. auto.
Qed.

(** Up to a line feed the split does not look at what follows it. *)
Lemma splitlines_from_app_nl (u rest cur : str) :
  forallb nl_only u = true ->
  splitlines_from cur (u ++ newline :: rest)
  = splitlines_from cur (u ++ [newline]) ++ splitlines_from [] rest.
Proof.
  revert cur. induction u as [|c u IH]; intros cur Hu.
  - reflexivity.
  - simpl in Hu. apply andb_true_iff in Hu as [Hc Hu].
    destruct (nl_only_cases c Hc) as [->|Hb].
    + change ((newline :: u) ++ newline :: rest)
        with (newline :: (u ++ newline :: rest)).
      change ((newline :: u) ++ [newline]) with (newline :: (u ++ [newline])).
      change (splitlines_from cur (newline :: (u ++ newline :: rest)))
        with (rev cur :: splitlines_from [] (u ++ newline :: rest)).
      change (splitlines_from cur (newline :: (u ++ [newline])))
        with (rev cur :: splitlines_from [] (u ++ [newline])).
      rewrite IH by assumption. reflexivity.
    + simpl. rewrite (no_break_not_cr c Hb), Hb. apply IH. assumption.
Qed.

Lemma splitlines_app_nl (u rest : str) :
  forallb nl_only u = true ->
  splitlines (u ++ newline :: rest) = pieces u ++ splitlines rest.
Proof. apply splitlines_from_app_nl. Qed.

(** A text without line break is one line. *)
Lemma splitlines_from_no_break (u cur : str) :
  forallb no_break u = true ->
  splitlines_from cur (u ++ [newline]) = [rev cur ++ u].
Proof.
  revert cur. induction u as [|c u IH]; intros cur Hu.
  - simpl. rewrite app_nil_r. reflexivity.
  - simpl in Hu. apply andb_true_iff in Hu as [Hc Hu].
    unfold no_break in Hc. apply negb_true_iff in Hc.
    simpl. rewrite (no_break_not_cr c Hc), Hc, IH by assumption.
    simpl. rewrite <- app_assoc. reflexivity.
Qed.

Lemma pieces_no_break (u : str) :
  forallb no_break u = true -> pieces u = [u].
Proof. intros H. apply (splitlines_from_no_break u [] H). Qed.

Lemma pieces_app_nl (u v : str) :
  forallb nl_only u = true ->
  pieces (u ++ newline :: v) = pieces u ++ pieces v.
Proof.
  intros Hu. unfold pieces at 1. rewrite <- app_assoc.
  change ((newline :: v) ++ [newline]) with (newline :: (v ++ [newline])).
  apply splitlines_app_nl, Hu.
Qed.

Lemma splitlines_from_cons_nl (cur t : str) :
  splitlines_from cur (newline :: t) = rev cur :: splitlines_from [] t.
Proof. reflexivity. Qed.

Lemma splitlines_from_cons_other (cur t : str) (c : ascii) :
  is_linebreak c = false ->
  splitlines_from cur (c :: t) = splitlines_from (c :: cur) t.
Proof. intros Hc. simpl. rewrite (no_break_not_cr c Hc), Hc. reflexivity. Qed.

Lemma splitlines_from_nonempty (t cur : str) :
  forallb nl_only t = true -> t <> [] \/ cur <> [] ->
  splitlines_from cur t <> [].
Proof.
  revert cur. induction t as [|c t IH]; intros cur Ht Hne.
  - destruct Hne as [Hne|Hne]; [congruence|].
    destruct cur; [congruence|discriminate].
  - simpl in Ht. apply andb_true_iff in Ht as [Hc Ht].
    destruct (nl_only_cases c Hc) as [->|Hb].
    + rewrite splitlines_from_cons_nl. discriminate.
    + rewrite splitlines_from_cons_other by assumption.
      apply IH; [assumption|right; discriminate].
Qed.

(** Appending a line feed to a text that does not end in one changes none of
    its lines. *)
Lemma splitlines_from_end_nl (t cur : str) :
  forallb nl_only t = true -> t <> [] \/ cur <> [] ->
  last t <> Some newline ->
  splitlines_from cur (t ++ [newline]) = splitlines_from cur t.
Proof.
  revert cur. induction t as [|c t IH]; intros cur Ht Hne Hlast.
  - destruct Hne as [Hne|Hne]; [congruence|].
    destruct cur; [congruence|reflexivity].
  - simpl in Ht. apply andb_true_iff in Ht as [Hc Ht].
    assert (Hlast' : t <> [] -> last t <> Some newline).
    { intros Hn. destruct t; [congruence|exact Hlast]. }
    destruct (nl_only_cases c Hc) as [->|Hb].
    + change ((newline :: t) ++ [newline]) with (newline :: (t ++ [newline])).
      rewrite !splitlines_from_cons_nl. f_equal.
      destruct t as [|c' t]; [exfalso; apply Hlast; reflexivity|].
      apply IH; [assumption|left; discriminate|apply Hlast'; discriminate].
    + change ((c :: t) ++ [newline]) with (c :: (t ++ [newline])).
      rewrite !splitlines_from_cons_other by assumption.
      destruct t as [|c' t]; [reflexivity|].
      apply IH; [assumption|left; discriminate|apply Hlast'; discriminate].
Qed.

(** Joining the lines of a text gives the text back, when its only line
    breaks are line feeds and it does not end in one. *)
Lemma join_splitlines_from (t cur : str) :
  forallb nl_only t = true -> last t <> Some newline ->
  join [newline] (splitlines_from cur t) = rev cur ++ t.
Proof.
  revert cur. induction t as [|c t IH]; intros cur Ht Hlast.
  - simpl. destruct cur as [|a cur]; [reflexivity|].
    simpl. rewrite app_nil_r. reflexivity.
  - simpl in Ht. apply andb_true_iff in Ht as [Hc Ht].
    assert (Hlast' : t <> [] -> last t <> Some newline).
    { intros Hn. destruct t; [congruence|exact Hlast]. }
    destruct (nl_only_cases c Hc) as [->|Hb].
    + rewrite splitlines_from_cons_nl.
      destruct t as [|c' t]; [exfalso; apply Hlast; reflexivity|].
      assert (Hct : c' :: t <> []) by discriminate.
      pose proof (splitlines_from_nonempty (c' :: t) [] Ht (or_introl Hct))
        as Hne.
      pose proof (IH [] Ht (Hlast' Hct)) as IH'.
      destruct (splitlines_from [] (c' :: t)) as [|x xs]; [congruence|].
      change (join [newline] (rev cur :: x :: xs))
        with (rev cur ++ [newline] ++ join [newline] (x :: xs)).
      rewrite IH'. reflexivity.
    + rewrite splitlines_from_cons_other by assumption.
      destruct t as [|c' t].
      * simpl. rewrite ?app_nil_r. reflexivity.
      * rewrite IH by (try assumption; apply Hlast'; discriminate).
        simpl. rewrite <- app_assoc. reflexivity.
Qed.

Lemma join_splitlines (t : str) :
  forallb nl_only t = true -> last t <> Some newline ->
  join [newline] (splitlines t) = t.
Proof. apply (join_splitlines_from t []). Qed.

(** Every piece of a text holds only characters of the text. *)
Lemma splitlines_from_chars (q : ascii -> bool) (t cur : str) :
  forallb nl_only t = true -> forallb q t = true -> forallb q cur = true ->
  Forall (fun p => forallb q p = true) (splitlines_from cur t).
Proof.
  revert cur. induction t as [|c t IH]; intros cur Ht Hq Hcur.
  - simpl. destruct cur; [constructor|].
    constructor; [|constructor].
    rewrite forallb_forall in *. intros x Hx. apply Hcur, in_rev, Hx.
  - simpl in Ht, Hq. apply andb_true_iff in Ht as [Hc Ht].
    apply andb_true_iff in Hq as [Hqc Hq].
    destruct (nl_only_cases c Hc) as [->|Hb].
    + rewrite splitlines_from_cons_nl. constructor; [|apply IH; auto].
      rewrite forallb_forall in *. intros x Hx. apply Hcur, in_rev, Hx.
    + rewrite splitlines_from_cons_other by assumption.
      apply IH; auto. simpl. rewrite Hqc, Hcur. reflexivity.
Qed.

Lemma pieces_from_chars (q : ascii -> bool) (t cur : str) :
  forallb nl_only t = true -> forallb q t = true -> forallb q cur = true ->
  Forall (fun p => forallb q p = true) (splitlines_from cur (t ++ [newline])).
Proof.
  revert cur. induction t as [|c u IH]; intros cur Ht Hq Hcur.
  - simpl. constructor; [|constructor].
    rewrite forallb_forall in *. intros x Hx. apply Hcur, in_rev, Hx.
  - simpl in Ht, Hq. apply andb_true_iff in Ht as [Hc Ht].
    apply andb_true_iff in Hq as [Hqc Hq].
    change ((c :: u) ++ [newline]) with (c :: (u ++ [newline])).
    destruct (nl_only_cases c Hc) as [->|Hb].
    + rewrite splitlines_from_cons_nl. constructor; [|apply IH; auto].
      rewrite forallb_forall in *. intros x Hx. apply Hcur, in_rev, Hx.
    + rewrite splitlines_from_cons_other by assumption.
      apply IH; auto. simpl. rewrite Hqc, Hcur. reflexivity.
Qed.

Lemma pieces_chars (q : ascii -> bool) (t : str) :
  forallb nl_only t = true -> forallb q t = true ->
  Forall (fun p => forallb q p = true) (pieces t).
Proof. intros Ht Hq. apply pieces_from_chars; auto. Qed.

(** ** What the patterns of the patcher need in a line *)

Lemma chr_eqb_sym_false (a b : ascii) :
  chr_eqb a b = false -> negb (chr_eqb b a) = true.
Proof.
  intros H. destruct (chr_eqb b a) eqn:E; [|reflexivity].
  apply chr_eqb_eq in E. subst. rewrite chr_eqb_refl in H. discriminate.
Qed.

Lemma re_match_sound (r : regex) (line : str) (m : rmatch_result) :
  re_match r line = Some m ->
  exists st', matches r (MState [] line []) st' /\ m = mk_match 0 st'.
Proof.
  unfold re_match. intros H. apply rmatch_sound in H as (st' & Hm & Hk).
  injection Hk as <-. eauto.
Qed.

(** A message line holds an opening brace. *)
Lemma msg_match_brace (line : str) (m : rmatch_result) :
  re_match MSG_RX line = Some m -> exists a b, line = a ++ "{"%char :: b.
Proof.
  intros H. apply re_match_sound in H as (st' & Hm & _).
  change MSG_RX with (seqs (msg_head ++ [Lit "{"])) in Hm.
  apply matches_seqs_app in Hm as (mid & Hhead & Hbrace).
  cbn [seqs foldr] in Hbrace.
  apply matches_seq_inv in Hbrace as (s1 & Hb & _).
  apply matches_lit1_inv in Hb as [Eb _].
  apply matches_passed in Hhead as (w & Ew & _). simpl in Ew.
  exists w, (ahead s1). rewrite Ew, Eb. reflexivity.
Qed.

(** A field line holds an equals sign. *)
Lemma field_match_equals (line : str) (m : rmatch_result) :
  re_match FIELD_RX line = Some m -> exists a b, line = a ++ "="%char :: b.
Proof.
  intros H. apply re_match_sound in H as (st' & Hm & _).
  change FIELD_RX
    with (seqs (field_before_equals ++ Lit "=" :: field_after_equals)) in Hm.
  apply matches_seqs_app in Hm as (mid & Hhead & Heq).
  cbn [seqs foldr] in Heq.
  apply matches_seq_inv in Heq as (s1 & Hb & _).
  apply matches_lit1_inv in Hb as [Eb _].
  apply matches_passed in Hhead as (w & Ew & _). simpl in Ew.
  exists w, (ahead s1). rewrite Ew, Eb. reflexivity.
Qed.

Lemma not_in_forallb (x : ascii) (a b : str) :
  forallb (fun c => negb (chr_eqb x c)) (a ++ x :: b) = false.
Proof.
  rewrite forallb_app. simpl. rewrite chr_eqb_refl. simpl.
  apply andb_false_r.
Qed.

(** A line without opening brace that has no semicolon, or no equals sign, is
    passed over by the line loop in every state. *)
Lemma neutral_line (mc : gmap (str * str) Constraints) (st : pstate)
    (line : str) :
  forallb not_brace line = true ->
  forallb not_semicolon line = true \/ forallb not_equals line = true ->
  patch_line mc st line = (st, line).
Proof.
  intros Hb Hse. unfold patch_line.
  destruct (re_match MSG_RX line) as [m|] eqn:Hm.
  { apply msg_match_brace in Hm as (a & b & ->).
    unfold not_brace in Hb. rewrite not_in_forallb in Hb. discriminate. }
  destruct (re_match FIELD_RX line) as [m|] eqn:Hf; [|reflexivity].
  exfalso. destruct Hse as [Hs|He].
  - apply field_match_parts in Hf as (decl & tail & rest & -> & _).
    rewrite app_assoc in Hs.
    unfold not_semicolon in Hs. rewrite not_in_forallb in Hs. discriminate.
  - apply field_match_equals in Hf as (a & b & ->).
    unfold not_equals in He. rewrite not_in_forallb in He. discriminate.
Qed.

(** An import line ends in a semicolon and holds no opening brace, no equals
    sign and no opening bracket. *)
Lemma is_import_chars (line : str) :
  is_import line = true ->
  forallb import_char line = true /\ exists a, line = a ++ lit ";".
Proof.
  unfold is_import, re_fullmatch. intros H.
  destruct (rmatch _ _ _) as [m|] eqn:Hr; [|discriminate]. clear H.
  apply rmatch_sound in Hr as (st' & Hm & Hk).
  destruct (ahead st') as [|c t] eqn:Ha; [|discriminate]. clear Hk.
  split.
  - apply (matches_consumes (fun c => import_char c = true)) in Hm
      as (w & Ew & Fw & _).
    + simpl in Ew. rewrite Ha, app_nil_r in Ew. subst w.
      apply Forall_forallb, Fw.
    + unfold IMPORT_RX, seqs, Plus, Lit, Chr, space.
      cbn [foldr map lit list_ascii_of_string classes_in].
      repeat split; intros c Hc;
        (destruct (import_char c) eqn:Hi; [reflexivity|]);
        unfold import_char, one_of in Hi; simpl in Hi;
        rewrite orb_false_r in Hi; apply negb_false_iff in Hi;
        rewrite !orb_true_iff in Hi;
        destruct Hi as [Hi|[Hi|Hi]]; apply chr_eqb_eq in Hi; subst c;
        discriminate Hc.
  - change IMPORT_RX with (seqs (import_head ++ [Lit ";"])) in Hm.
    apply matches_seqs_app in Hm as (mid & Hhead & Hsemi).
    cbn [seqs foldr] in Hsemi.
    apply matches_seq_inv in Hsemi as (s1 & Hs & He).
    apply matches_eps_inv in He. subst s1.
    apply matches_lit1_inv in Hs as [Es _].
    apply matches_passed in Hhead as (w & Ew & _). simpl in Ew.
    exists w. rewrite Ew, Es, Ha. reflexivity.
Qed.

Lemma import_is_neutral (mc : gmap (str * str) Constraints) (st : pstate)
    (line : str) :
  is_import line = true -> patch_line mc st line = (st, line).
Proof.
  intros Hi. apply is_import_chars in Hi as [Hc _].
  apply neutral_line; [|right];
    (eapply forallb_mono; [|exact Hc]); intros c Hcc;
    unfold import_char, one_of in Hcc; simpl in Hcc;
    apply negb_true_iff in Hcc; rewrite orb_false_r in Hcc;
    apply orb_false_iff in Hcc as [H1 Hcc];
    apply orb_false_iff in Hcc as [H2 H3].
  - unfold not_brace. rewrite chr_eqb_sym_false; auto.
  - unfold not_equals. rewrite chr_eqb_sym_false; auto.
Qed.

(** ** The lines of an annotation *)

Lemma bound_attr_attr_char (key : str) (o : option str) :
  forallb attr_char key = true -> wf_bound o ->
  Forall (fun a => forallb attr_char a = true) (bound_attr key o).
Proof.
  intros Hk Hw. apply Forall_forall. intros a Ha.
  apply elem_of_bound_attr in Ha as (v & -> & _ & ->).
  unfold attr_text. rewrite !forallb_app, Hk. simpl.
  apply Forall_forallb. eapply Forall_impl; [exact (proj2 (Hw v eq_refl))|].
  intros ch Hch. unfold attr_char. simpl. rewrite Hch. apply orb_true_r.
Qed.

Lemma numcat_attr_char (ftype : str) : forallb attr_char (numcat ftype) = true.
Proof. unfold numcat. repeat case_match; reflexivity. Qed.

Lemma option_attrs_attr_char (ftype : str) (repeated : bool) (c : Constraints) :
  wf c ->
  Forall (fun a => forallb attr_char a = true) (option_attrs ftype repeated c).
Proof.
  intros [H1 H2 H3 H4 H5 H6]. unfold option_attrs.
  repeat case_match; repeat apply Forall_app_2;
    try (apply bound_attr_attr_char; [|assumption];
         rewrite ?forallb_app, ?numcat_attr_char; reflexivity).
  - apply Forall_singleton. reflexivity.
  - apply Forall_nil_2.
Qed.

Lemma attr_char_no_break (c : ascii) : attr_char c = true -> no_break c = true.
Proof.
  destruct c as [[] [] [] [] [] [] [] []]; intros H;
    try reflexivity; discriminate H.
Qed.

Lemma opt_char_nl_only (c : ascii) : opt_char c = true -> nl_only c = true.
Proof.
  destruct c as [[] [] [] [] [] [] [] []]; intros H;
    try reflexivity; discriminate H.
Qed.

(** An annotation is one line, or it is a first line [ [], then the attribute
    lines, then a last line []]. *)
Lemma format_attrs_lines (attrs : list str) :
  Forall (fun a => no_paren a = true) attrs ->
  Forall (fun a => forallb attr_char a = true) attrs ->
  attrs <> [] ->
  forallb no_break (format_attrs attrs) = true
  \/ exists mid, format_attrs attrs
                 = lit " [" ++ newline :: mid ++ newline :: lit "]".
Proof.
  intros Hnp Hch Hne. destruct attrs as [|a [|b l]]; [congruence| |].
  - left. rewrite format_single by (inversion Hnp; assumption).
    inversion Hch; subst. rewrite !forallb_app.
    replace (forallb no_break a) with true; [reflexivity|].
    symmetry. eapply forallb_mono; [exact attr_char_no_break|assumption].
  - right. unfold format_attrs.
    generalize (join (lit "," ++ [newline] ++ lit "  ")
                     (map (fun x => field_prefix ++ x) (a :: b :: l))).
    intros lined. exists (lit "  " ++ lined).
    simpl. rewrite <- ?app_assoc. reflexivity.
Qed.

Lemma forallb_elem (q : ascii -> bool) (a b : str) (x : ascii) :
  forallb q (a ++ x :: b) = true -> q x = true.
Proof.
  rewrite forallb_app. simpl. intros H.
  apply andb_true_iff in H as [_ H]. apply andb_true_iff in H as [H _].
  exact H.
Qed.

Lemma no_semicolon_not_import (line : str) :
  forallb not_semicolon line = true -> is_import line = false.
Proof.
  intros Hs. destruct (is_import line) eqn:Hi; [|reflexivity].
  apply is_import_chars in Hi as [_ [a ->]].
  apply forallb_elem in Hs. discriminate.
Qed.

Lemma bracket_not_import (a b : str) :
  is_import (a ++ "["%char :: b) = false.
Proof.
  destruct (is_import (a ++ "["%char :: b)) eqn:Hi; [|reflexivity].
  apply is_import_chars in Hi as [Hc _].
  apply forallb_elem in Hc. discriminate.
Qed.

Lemma no_break_nl_only (s : str) :
  forallb no_break s = true -> forallb nl_only s = true.
Proof.
  apply forallb_mono. intros c Hc. unfold nl_only. rewrite Hc. reflexivity.
Qed.

Lemma build_option_opt_char (ftype : str) (repeated : bool) (c : Constraints) :
  wf c -> forallb opt_char (build_option ftype repeated c) = true.
Proof.
  intros Hwf. unfold build_option. apply format_attrs_opt_char.
  - apply option_attrs_no_paren, Hwf.
  - apply option_attrs_opt_char, Hwf.
Qed.

Lemma build_option_not_brace (ftype : str) (repeated : bool)
    (c : Constraints) :
  wf c -> forallb not_brace (build_option ftype repeated c) = true.
Proof. intros Hwf. exact (build_option_lacks "{" ftype repeated c eq_refl Hwf). Qed.

Lemma build_option_not_semicolon (ftype : str) (repeated : bool)
    (c : Constraints) :
  wf c -> forallb not_semicolon (build_option ftype repeated c) = true.
Proof. intros Hwf. exact (build_option_lacks ";" ftype repeated c eq_refl Hwf). Qed.

(** A line that ends in an annotation and holds no brace and no other
    semicolon is passed over by the line loop in every state. *)
Lemma annotated_line_neutral (mc : gmap (str * str) Constraints) (st : pstate)
    (kept : str) (ftype : str) (repeated : bool) (c : Constraints) :
  wf c -> build_option ftype repeated c <> [] ->
  forallb not_semicolon kept = true -> forallb not_brace kept = true ->
  patch_line mc st (kept ++ build_option ftype repeated c ++ lit ";")
  = (st, kept ++ build_option ftype repeated c ++ lit ";").
Proof.
  intros Hwf Hne Hk Hb.
  destruct (patch_line_cases mc st
              (kept ++ build_option ftype repeated c ++ lit ";"))
    as [(m & Hm & _)|[[_ E]|(m & o & _ & Hf & _ & Ho & _)]]; [| exact E |].
  - exfalso. apply msg_match_brace in Hm as (a & b & E).
    assert (Hall : forallb not_brace
                     (kept ++ build_option ftype repeated c ++ lit ";") = true).
    { rewrite !forallb_app, Hb, build_option_not_brace by exact Hwf.
      reflexivity. }
    rewrite E in Hall. apply forallb_elem in Hall. discriminate.
  - exfalso. apply field_option_Some in Ho as [Hno _].
    destruct (build_option_marker ftype repeated c Hwf Hne) as (mid & more & Eo).
    rewrite (annotated_tail_has_marker kept (build_option ftype repeated c)
               m mid more Hk) in Hno;
      [discriminate| |exact Eo|exact Hf].
    apply build_option_not_semicolon, Hwf.
Qed.

(** The lines that a rewritten line makes in the written file: the line loop
    passes each of them over, and none of them is an import line. *)
Lemma rewritten_pieces (mc : gmap (str * str) Constraints) (kept : str)
    (ftype : str) (repeated : bool) (c : Constraints) :
  wf c -> build_option ftype repeated c <> [] ->
  forallb no_break kept = true ->
  forallb not_semicolon kept = true -> forallb not_brace kept = true ->
  Forall (fun p => (forall st, patch_line mc st p = (st, p))
                   /\ is_import p = false)
         (pieces (kept ++ build_option ftype repeated c ++ lit ";")).
Proof.
  intros Hwf Hne Hnb Hk Hb.
  pose proof (build_option_opt_char ftype repeated c Hwf) as Hoc.
  pose proof (build_option_not_semicolon ftype repeated c Hwf) as Hos.
  pose proof (build_option_not_brace ftype repeated c Hwf) as Hob.
  destruct (build_option_marker ftype repeated c Hwf Hne) as (mk & more & Emk).
  assert (Hattrs : option_attrs ftype repeated c <> []).
  { intros E. apply Hne. unfold build_option. rewrite E. reflexivity. }
  destruct (format_attrs_lines (option_attrs ftype repeated c)
              (option_attrs_no_paren ftype repeated c Hwf)
              (option_attrs_attr_char ftype repeated c Hwf) Hattrs)
    as [Hline|[mid Emid]]; fold (build_option ftype repeated c) in *.
  - (* one line *)
    rewrite pieces_no_break
      by (rewrite !forallb_app, Hnb, Hline; reflexivity).
    constructor; [|constructor]. split.
    + intros st. apply annotated_line_neutral; assumption.
    + rewrite Emk.
      change (kept ++ (lit " [" ++ mk ++ marker ++ more) ++ lit ";")
        with (kept ++ " "%char :: "["%char :: (mk ++ marker ++ more) ++ lit ";").
      change (kept ++ " "%char :: "["%char :: (mk ++ marker ++ more) ++ lit ";")
        with (kept ++ [" "%char] ++ "["%char :: (mk ++ marker ++ more) ++ lit ";").
      rewrite app_assoc. apply bracket_not_import.
  - (* several lines *)
    rewrite Emid in Hoc, Hos, Hob |- *.
    assert (Hmid : forall q, forallb q (lit " [" ++ newline :: mid
                                        ++ newline :: lit "]") = true ->
                             forallb q mid = true).
    { intros q Hq. change (lit " [" ++ newline :: mid ++ newline :: lit "]")
        with ((lit " [" ++ [newline]) ++ mid ++ newline :: lit "]") in Hq.
      rewrite !forallb_app in Hq.
      apply andb_true_iff in Hq as [_ Hq]. apply andb_true_iff in Hq as [Hq _].
      exact Hq. }
    assert (Hnl : forallb nl_only mid = true).
    { apply Hmid. eapply forallb_mono; [exact opt_char_nl_only|exact Hoc]. }
    replace (kept ++ (lit " [" ++ newline :: mid ++ newline :: lit "]")
             ++ lit ";")
      with ((kept ++ lit " [") ++ newline :: (mid ++ newline :: lit "];"))
      by (rewrite <- !app_assoc; simpl; rewrite <- !app_assoc; reflexivity).
    rewrite pieces_app_nl
      by (apply no_break_nl_only; rewrite forallb_app, Hnb; reflexivity).
    rewrite pieces_app_nl by exact Hnl.
    rewrite pieces_no_break by (rewrite forallb_app, Hnb; reflexivity).
    apply Forall_app_2; [|apply Forall_app_2].
    + constructor; [|constructor].
      assert (Hs : forallb not_semicolon (kept ++ lit " [") = true)
        by (rewrite forallb_app, Hk; reflexivity).
      split; [|apply no_semicolon_not_import, Hs].
      intros st. apply neutral_line; [|left; exact Hs].
      rewrite forallb_app, Hb. reflexivity.
    + pose proof (pieces_chars not_semicolon mid Hnl (Hmid _ Hos)) as Ps.
      pose proof (pieces_chars not_brace mid Hnl (Hmid _ Hob)) as Pb.
      rewrite Forall_forall in *. intros p Hp. split.
      * intros st. apply neutral_line; [apply Pb, Hp|left; apply Ps, Hp].
      * apply no_semicolon_not_import, Ps, Hp.
    + change (pieces (lit "];")) with [lit "];"].
      constructor; [|constructor]. split; [|vm_compute; reflexivity].
      intros st. apply neutral_line; [reflexivity|right; reflexivity].
Qed.

(** ** Lines the line loop leaves alone *)

Lemma stable_app (mc : gmap (str * str) Constraints) (c c' c'' : option str)
    (a b : list str) :
  stable mc c a c' -> stable mc c' b c'' -> stable mc c (a ++ b) c''.
Proof.
  induction 1 as [c|c c1 c2 l ls Hl _ IH]; intros Hb; simpl; auto.
  econstructor; eauto.
Qed.

Lemma stable_app_inv (mc : gmap (str * str) Constraints) (c c'' : option str)
    (a b : list str) :
  stable mc c (a ++ b) c'' ->
  exists c', stable mc c a c' /\ stable mc c' b c''.
Proof.
  revert c. induction a as [|l a IH]; intros c H; simpl in H.
  - exists c. split; [constructor|exact H].
  - inversion H as [|? c1 ? ? ? Hl Hrest]; subst.
    apply IH in Hrest as (c' & Ha & Hb).
    exists c'. split; [econstructor; eauto|exact Hb].
Qed.

Lemma stable_neutral (mc : gmap (str * str) Constraints) (c : option str)
    (ls : list str) :
  Forall (fun p => forall st, patch_line mc st p = (st, p)) ls ->
  stable mc c ls c.
Proof.
  induction 1 as [|l ls Hl _ IH]; [constructor|].
  econstructor; [|exact IH]. intros d n. apply Hl.
Qed.

Lemma stable_drop_neutral (mc : gmap (str * str) Constraints)
    (c c'' : option str) (l : str) (ls : list str) :
  (forall st, patch_line mc st l = (st, l)) ->
  stable mc c (l :: ls) c'' -> stable mc c ls c''.
Proof.
  intros Hn H. inversion H as [|? c1 ? ? ? Hl Hrest]; subst.
  specialize (Hl false 0). rewrite Hn in Hl. injection Hl as <-. exact Hrest.
Qed.

Lemma stable_run (mc : gmap (str * str) Constraints) (c c' : option str)
    (ls : list str) :
  stable mc c ls c' ->
  forall d n, patch_lines mc (PState c d n) ls = (PState c' d n, ls).
Proof.
  induction 1 as [c|c c1 c2 l ls Hl _ IH]; intros d n; simpl; [reflexivity|].
  rewrite Hl, IH. reflexivity.
Qed.

(** What the line loop does to a line depends on its state only through the
    message context. *)
Lemma patch_line_kept_in_context (mc : gmap (str * str) Constraints)
    (st : pstate) (line : str) :
  (patch_line mc st line).2 = line ->
  forall d n,
    patch_line mc (PState (ctx st) d n) line
    = (PState (ctx (patch_line mc st line).1) d n, line).
Proof.
  intros Hkept d n. revert Hkept. unfold patch_line. simpl.
  destruct (re_match MSG_RX line) as [m|]; [reflexivity|].
  destruct (re_match FIELD_RX line) as [m|]; [|reflexivity].
  destruct (truthy (ctx st)); [|reflexivity].
  destruct (field_option mc (default [] (ctx st)) m) as [opt|] eqn:Ho;
    [|reflexivity].
  simpl. intros E. exfalso. revert E. apply rewritten_differs.
  apply field_option_Some in Ho as [_ (cs & _ & _ & -> & Hne)].
  unfold build_option in *. apply format_attrs_starts_blank.
  intros E. rewrite E in Hne. apply Hne. reflexivity.
Qed.

Lemma rstrip_prefix_chars (q : ascii -> bool) (line : str) :
  forallb q line = true -> forallb q (rstrip semicolon line) = true.
Proof.
  intros H. destruct (rstrip_spec semicolon line) as (removed & E & _).
  rewrite E, forallb_app in H. apply andb_true_iff in H as [H _]. exact H.
Qed.

(** ** The first run settles every line *)

Lemma no_break_last (l : str) :
  forallb no_break l = true -> last l <> Some newline.
Proof.
  intros H E. apply last_Some in E as [l' ->].
  rewrite forallb_app in H. apply andb_true_iff in H as [_ H].
  discriminate H.
Qed.

Lemma last_app_semicolon (a : str) : last (a ++ lit ";") <> Some newline.
Proof.
  change (lit ";") with [";"%char]. rewrite last_snoc. discriminate.
Qed.

Lemma step_settles (mc : gmap (str * str) Constraints) (st : pstate)
    (l : str) :
  map_Forall (fun _ c => wf c) mc ->
  plain_line l = true -> forallb no_break l = true ->
  stable mc (ctx st) (pieces (patch_line mc st l).2)
         (ctx (patch_line mc st l).1)
  /\ settled_line l (patch_line mc st l).2.
Proof.
  intros Hmc Hplain Hnb.
  assert (Hkept : (patch_line mc st l).2 = l ->
                  stable mc (ctx st) (pieces (patch_line mc st l).2)
                         (ctx (patch_line mc st l).1)
                  /\ settled_line l (patch_line mc st l).2).
  { intros E. pose proof (patch_line_kept_in_context mc st l E) as Hk.
    rewrite E, pieces_no_break by assumption. split.
    - econstructor; [exact Hk|constructor].
    - unfold settled_line, settled.
      split_and!; auto using no_break_nl_only, no_break_last. }
  destruct (patch_line_cases mc st l)
    as [(m & _ & E)|[[_ E]|(m & opt & _ & Hf & _ & Ho & E)]].
  - apply Hkept. rewrite E. reflexivity.
  - apply Hkept. rewrite E. reflexivity.
  - clear Hkept. rewrite E. cbn [fst snd ctx].
    apply field_option_Some in Ho as [_ (cs & Hcs & _ & -> & Hne)].
    pose proof (Hmc _ _ Hcs) as Hwf.
    (* the line holds a semicolon, so it is plain in the second way *)
    assert (Hsemi : forallb not_semicolon l = false).
    { apply field_match_parts in Hf as (decl & tail & rest & -> & _).
      rewrite app_assoc. apply not_in_forallb. }
    unfold plain_line in Hplain. rewrite Hsemi in Hplain. simpl in Hplain.
    apply andb_true_iff in Hplain as [Hks Hbr].
    pose proof (rstrip_prefix_chars _ _ Hbr) as Hkb.
    pose proof (rstrip_prefix_chars _ _ Hnb) as Hkn.
    pose proof (rewritten_pieces mc (rstrip semicolon l) (group_text m 2)
                  (field_repeated m) cs Hwf Hne Hkn Hks Hkb) as Hp.
    split.
    + apply stable_neutral. eapply Forall_impl; [exact Hp|].
      intros p [Hn _]. exact Hn.
    + assert (Himp : is_import (rstrip semicolon l
                                ++ build_option (group_text m 2)
                                     (field_repeated m) cs ++ lit ";") = false).
      { destruct (build_option_marker _ _ _ Hwf Hne) as (mk & more & ->).
        change (rstrip semicolon l ++ (lit " [" ++ mk ++ marker ++ more)
                ++ lit ";")
          with (rstrip semicolon l ++ [" "%char]
                ++ "["%char :: (mk ++ marker ++ more) ++ lit ";").
        rewrite app_assoc. apply bracket_not_import. }
      unfold settled_line, settled. split_and!.
      * rewrite !forallb_app, (no_break_nl_only _ Hkn).
        rewrite (forallb_mono _ _ _ opt_char_nl_only
                   (build_option_opt_char _ _ _ Hwf)). reflexivity.
      * rewrite app_assoc. apply last_app_semicolon.
      * right. split; [exact Himp|].
        eapply Forall_impl; [exact Hp|]. intros p [_ Hi]. exact Hi.
      * right. split; [|exact Himp].
        intros Enil. apply app_eq_nil in Enil as [_ Enil].
        apply app_eq_nil in Enil as [_ Enil]. discriminate.
Qed.

Lemma run_settles (mc : gmap (str * str) Constraints) (lines : list str)
    (st : pstate) :
  map_Forall (fun _ c => wf c) mc ->
  Forall (fun l => plain_line l = true) lines ->
  Forall (fun l => forallb no_break l = true) lines ->
  stable mc (ctx st) (flat_map pieces (patch_lines mc st lines).2)
         (ctx (patch_lines mc st lines).1)
  /\ Forall2 settled_line lines (patch_lines mc st lines).2.
Proof.
  intros Hmc Hplain. revert st.
  induction Hplain as [|l rest Hl _ IH]; intros st Hnb; simpl.
  - split; constructor.
  - inversion Hnb as [|? ? Hnl Hnrest]; subst.
    destruct (step_settles mc st l Hmc Hl Hnl) as [Hs Hq].
    destruct (patch_line mc st l) as [st1 x]. simpl in Hs, Hq.
    destruct (IH st1 Hnrest) as [Hs' Hq'].
    destruct (patch_lines mc st1 rest) as [st2 rest']. simpl in *.
    split; [eapply stable_app; eauto|constructor; assumption].
Qed.

(** ** The lines of a file *)

Lemma forallb_rev (q : ascii -> bool) (s : str) :
  forallb q s = true -> forallb q (rev s) = true.
Proof.
  intros H. rewrite forallb_forall in *. intros x Hx. apply H, in_rev, Hx.
Qed.

Lemma splitlines_from_lines_no_break (n : nat) :
  forall (t cur : str),
    length t <= n -> forallb no_break cur = true ->
    Forall (fun l => forallb no_break l = true) (splitlines_from cur t).
Proof.
  induction n as [|n IH]; intros t cur Hlen Hcur.
  - destruct t; [|simpl in Hlen; lia].
    simpl. destruct cur; repeat constructor. apply forallb_rev, Hcur.
  - destruct t as [|c t].
    { simpl. destruct cur; repeat constructor. apply forallb_rev, Hcur. }
    simpl in Hlen. simpl.
    destruct (code c =? 13).
    { destruct t as [|d t'].
      - repeat constructor. apply forallb_rev, Hcur.
      - simpl in Hlen.
        destruct (code d =? 10);
          (constructor; [apply forallb_rev, Hcur|]);
          apply IH; simpl; auto; lia. }
    destruct (is_linebreak c) eqn:Hb.
    + constructor; [apply forallb_rev, Hcur|]. apply IH; auto. lia.
    + apply IH; [lia|]. simpl. unfold no_break at 1. rewrite Hb, Hcur.
      reflexivity.
Qed.

(** No line of a file holds a line break. *)
Lemma splitlines_no_break (text : str) :
  Forall (fun l => forallb no_break l = true) (splitlines text).
Proof.
  apply (splitlines_from_lines_no_break (length text)); auto.
Qed.

Lemma last_join (sep : str) (ls : list str) (x : str) :
  x <> [] -> last (join sep (ls ++ [x])) = last x.
Proof.
  intros Hx. induction ls as [|l ls IH]; [reflexivity|].
  change (join sep ((l :: ls) ++ [x])) with (join sep (l :: (ls ++ [x]))).
  destruct (ls ++ [x]) as [|y ys] eqn:E.
  { destruct ls; discriminate. }
  change (join sep (l :: y :: ys)) with (l ++ sep ++ join sep (y :: ys)).
  rewrite !last_app, IH.
  destruct (last x) eqn:El; [reflexivity|].
  apply last_None in El. contradiction.
Qed.

(** Splitting what was joined gives the pieces of the lines, when the last
    line is not empty. *)
Lemma splitlines_join (ls : list str) :
  Forall (fun l => forallb nl_only l = true) ls ->
  Forall (fun l => last l <> Some newline) ls ->
  (forall x, last ls = Some x -> x <> []) ->
  splitlines (join [newline] ls) = flat_map pieces ls.
Proof.
  intros Hnl Hlast Hne. induction ls as [|l ls IH]; [reflexivity|].
  inversion Hnl as [|? ? Hl Hls]; subst.
  inversion Hlast as [|? ? Hll Hlls]; subst.
  destruct ls as [|y ys].
  - simpl. rewrite app_nil_r. unfold pieces, splitlines. symmetry.
    apply splitlines_from_end_nl; auto; left; apply Hne; reflexivity.
  - change (join [newline] (l :: y :: ys))
      with (l ++ newline :: join [newline] (y :: ys)).
    rewrite splitlines_app_nl by assumption.
    rewrite IH; auto.
Qed.

(** ** The imports of the written file *)

Lemma count_imports_none (ls : list str) :
  Forall (fun p => is_import p = false) ls -> count_imports ls = 0.
Proof.
  induction 1 as [|l ls Hl _ IH]; [reflexivity|].
  rewrite count_imports_cons, Hl. exact IH.
Qed.

Lemma settled_pieces_count (x : str) :
  settled x -> is_import x = false -> count_imports (pieces x) = 0.
Proof.
  intros (_ & _ & [Hnb|[_ Hp]]) Hi.
  - rewrite pieces_no_break by assumption.
    rewrite count_imports_cons, Hi. reflexivity.
  - apply count_imports_none, Hp.
Qed.

Lemma count_pieces (ls : list str) :
  Forall settled ls -> count_imports ls = 0 ->
  count_imports (flat_map pieces ls) = 0.
Proof.
  induction 1 as [|x ls Hx _ IH]; [reflexivity|].
  rewrite count_imports_cons. intros Hc. simpl.
  destruct (is_import x) eqn:Hi; [lia|].
  rewrite count_imports_app, settled_pieces_count, IH by (auto; lia).
  reflexivity.
Qed.

Lemma settled_import_pieces (x : str) :
  settled x -> is_import x = true -> pieces x = [x].
Proof.
  intros (_ & _ & [Hnb|[Hi _]]) Himp; [|congruence].
  apply pieces_no_break, Hnb.
Qed.

Lemma stable_without_imports (mc : gmap (str * str) Constraints)
    (ls : list str) (c c' : option str) :
  Forall settled ls ->
  stable mc c (flat_map pieces ls) c' ->
  stable mc c (flat_map pieces (without_imports ls)) c'.
Proof.
  intros Hs. revert c. induction Hs as [|x ls Hx _ IH]; intros c H; [exact H|].
  simpl in H. apply stable_app_inv in H as (c1 & H1 & H2).
  unfold without_imports in *. simpl.
  destruct (is_import x) eqn:Hi; simpl.
  - rewrite (settled_import_pieces x Hx Hi) in H1.
    apply stable_drop_neutral in H1; [|intros st; apply import_is_neutral, Hi].
    inversion H1; subst. apply IH, H2.
  - eapply stable_app; [exact H1|apply IH, H2].
Qed.

Lemma Forall_without_imports (P : str -> Prop) (ls : list str) :
  Forall P ls -> Forall P (without_imports ls).
Proof.
  induction 1 as [|x ls Hx _ IH]; [constructor|].
  unfold without_imports in *. simpl.
  destruct (is_import x); simpl; auto.
Qed.

Lemma last_without_imports (ls : list str) (y : str) :
  last ls = Some y -> is_import y = false ->
  last (without_imports ls) = Some y.
Proof.
  intros Hl Hy. apply last_Some in Hl as [ls' ->].
  unfold without_imports. rewrite List.filter_app. simpl. rewrite Hy. simpl.
  apply last_snoc.
Qed.

Lemma settled_IMPORT_LINE : settled IMPORT_LINE.
Proof.
  unfold settled. split_and!; [reflexivity|vm_compute; discriminate|].
  left. reflexivity.
Qed.

Lemma pieces_IMPORT_LINE : pieces IMPORT_LINE = [IMPORT_LINE].
Proof. apply pieces_no_break. reflexivity. Qed.

Lemma IMPORT_LINE_neutral (mc : gmap (str * str) Constraints) (st : pstate) :
  patch_line mc st IMPORT_LINE = (st, IMPORT_LINE).
Proof. apply import_is_neutral, is_import_IMPORT_LINE. Qed.

Lemma stable_insert_import (mc : gmap (str * str) Constraints)
    (a b : list str) (c c' : option str) :
  stable mc c (a ++ b) c' -> stable mc c (a ++ IMPORT_LINE :: b) c'.
Proof.
  intros H. apply stable_app_inv in H as (c1 & Ha & Hb).
  eapply stable_app; [exact Ha|].
  econstructor; [|exact Hb]. intros d n. apply IMPORT_LINE_neutral.
Qed.

Lemma last_app_nonempty (a b : list str) :
  b <> [] -> last (a ++ b) = last b.
Proof.
  intros Hb. rewrite last_app. destruct (last b) eqn:E; [reflexivity|].
  apply last_None in E. contradiction.
Qed.

Lemma last_cons_nonempty (x : str) (b : list str) :
  b <> [] -> last (x :: b) = last b.
Proof. intros Hb. apply (last_app_nonempty [x] b Hb). Qed.

(** What the import normalisation makes of the lines of the first run, when
    the file is written. *)
Lemma normalised_settled (mc : gmap (str * str) Constraints) (d : bool)
    (ls : list str) (c c' : option str) :
  Forall settled ls ->
  stable mc c (flat_map pieces ls) c' ->
  (forall y, last ls = Some y -> y <> [] /\ is_import y = false) ->
  import_indices ls <> [] \/ d = true ->
  exists a b,
    normalise_imports d ls = a ++ IMPORT_LINE :: b
    /\ Forall settled a /\ Forall settled b
    /\ count_imports (flat_map pieces a) = 0
    /\ count_imports (flat_map pieces b) = 0
    /\ stable mc c (flat_map pieces a ++ IMPORT_LINE :: flat_map pieces b) c'
    /\ (forall x, last (a ++ IMPORT_LINE :: b) = Some x -> x <> []).
Proof.
  intros Hs Hst Hlast Hw.
  destruct (import_indices ls) as [|first others] eqn:Hi.
  - destruct Hw as [Hw| ->]; [congruence|].
    unfold normalise_imports. rewrite Hi. unfold list_insert_at.
    set (k := if header_first ls then 2 else 1).
    pose proof (import_indices_from_nil 0 ls Hi) as Hc.
    rewrite <- (take_drop k ls) in Hs, Hst, Hc, Hlast.
    apply Forall_app in Hs as [Hsa Hsb].
    rewrite count_imports_app in Hc. rewrite flat_map_app in Hst.
    exists (take k ls), (drop k ls). split_and!; auto.
    + apply count_pieces; [exact Hsa|lia].
    + apply count_pieces; [exact Hsb|lia].
    + apply stable_insert_import, Hst.
    + intros x Hx.
      destruct (drop k ls) as [|y ys] eqn:Ed.
      * rewrite last_snoc in Hx. injection Hx as <-. discriminate.
      * apply (Hlast x).
        rewrite last_app_nonempty in Hx |- * by discriminate.
        rewrite last_cons_nonempty in Hx by discriminate. exact Hx.
  - destruct (normalise_imports_found d ls first others Hi)
      as (pre & l & post & -> & _ & Hl & Hpre & ->).
    apply Forall_app in Hs as [Hsa Hsb].
    inversion Hsb as [|? ? Hsl Hspost]; subst.
    rewrite flat_map_app in Hst. simpl in Hst.
    rewrite (settled_import_pieces l Hsl Hl) in Hst.
    apply stable_app_inv in Hst as (c1 & Ha & Hb).
    apply stable_drop_neutral in Hb; [|intros st; apply import_is_neutral, Hl].
    exists pre, (without_imports post). split_and!; auto.
    + apply Forall_without_imports, Hspost.
    + apply count_pieces; assumption.
    + apply count_pieces; [apply Forall_without_imports, Hspost|].
      apply count_without_imports.
    + eapply stable_app; [exact Ha|].
      econstructor; [intros d' n; apply IMPORT_LINE_neutral|].
      apply stable_without_imports; assumption.
    + intros x Hx. rewrite last_app_nonempty in Hx by discriminate.
      destruct (without_imports post) as [|w ws] eqn:Ew.
      * simpl in Hx. injection Hx as <-. discriminate.
      * rewrite last_cons_nonempty in Hx by discriminate.
        assert (Hpost : post <> []) by (intros ->; discriminate).
        destruct (last post) as [y|] eqn:Ey;
          [|apply last_None in Ey; contradiction].
        assert (Hy : y <> [] /\ is_import y = false).
        { apply Hlast. rewrite last_app_nonempty by discriminate.
          rewrite last_cons_nonempty by assumption. exact Ey. }
        destruct Hy as [Hy1 Hy2].
        pose proof (last_without_imports post y Ey Hy2) as Hly.
        rewrite Ew in Hly. rewrite Hly in Hx. injection Hx as <-. exact Hy1.
Qed.

(** ** The second run *)

Lemma Forall2_last_r (R : str -> str -> Prop) (ls xs : list str) (y : str) :
  Forall2 R ls xs -> last xs = Some y ->
  exists l, last ls = Some l /\ R l y.
Proof.
  induction 1 as [|l x ls xs Hlx Hrest IH]; [discriminate|].
  destruct xs as [|x' xs].
  - inversion Hrest; subst. simpl. intros E. injection E as <-. eauto.
  - inversion Hrest as [|l' ? ls' ? ? ?]; subst.
    rewrite last_cons_nonempty by discriminate. intros E.
    destruct (IH E) as (l0 & Hl0 & HR). exists l0.
    rewrite last_cons_nonempty by discriminate. auto.
Qed.

Lemma Forall2_settled (ls xs : list str) :
  Forall2 settled_line ls xs -> Forall settled xs.
Proof. induction 1 as [|l x ls xs [Hx _] _ IH]; constructor; auto. Qed.

Lemma patch_lines_dirty_mono (mc : gmap (str * str) Constraints)
    (lines : list str) (st : pstate) :
  dirty st = true -> dirty (patch_lines mc st lines).1 = true.
Proof.
  revert st. induction lines as [|x xs IH]; intros st H0; simpl; [exact H0|].
  destruct (patch_line_counts mc st x) as [_ Hdx].
  destruct (patch_line mc st x) as [sx x']. cbn [fst snd] in Hdx.
  specialize (IH sx).
  destruct (patch_lines mc sx xs) as [sy ys]. cbn [fst] in *.
  apply IH. rewrite Hdx, H0. reflexivity.
Qed.

Lemma patch_lines_clean (mc : gmap (str * str) Constraints)
    (lines : list str) (st : pstate) :
  dirty (patch_lines mc st lines).1 = false ->
  patched (patch_lines mc st lines).1 = patched st.
Proof.
  revert st. induction lines as [|l ls IH]; intros st; simpl; [reflexivity|].
  destruct (patch_line_counts mc st l) as [Hp Hd].
  destruct (patch_line mc st l) as [st1 l'] eqn:E1. cbn [fst snd] in Hp, Hd.
  specialize (IH st1).
  pose proof (patch_lines_dirty_mono mc ls st1) as Hm.
  destruct (patch_lines mc st1 ls) as [st2 ls']. cbn [fst snd] in *.
  intros Hc. specialize (IH Hc).
  destruct (dirty st1) eqn:Hd1.
  - rewrite Hm in Hc by reflexivity. discriminate.
  - symmetry in Hd. apply orb_false_iff in Hd as [_ Hd].
    apply negb_false_iff in Hd. rewrite Hd in Hp. lia.
Qed.

(** A file made of settled lines, with exactly one import, the canonical one,
    and a last line that is not empty, is written back as it is, and none of
    its lines counts as patched. *)
Lemma settled_file_fixed (mc : gmap (str * str) Constraints)
    (a b : list str) (c' : option str) :
  Forall settled a -> Forall settled b ->
  count_imports (flat_map pieces a) = 0 ->
  count_imports (flat_map pieces b) = 0 ->
  stable mc None (flat_map pieces a ++ IMPORT_LINE :: flat_map pieces b) c' ->
  (forall x, last (a ++ IMPORT_LINE :: b) = Some x -> x <> []) ->
  patch_file mc (join [newline] (a ++ IMPORT_LINE :: b))
  = (Some (join [newline] (a ++ IMPORT_LINE :: b)), 0).
Proof.
  intros Ha Hb Hca Hcb Hst Hlast.
  assert (Hall : Forall settled (a ++ IMPORT_LINE :: b)).
  { apply Forall_app_2; [exact Ha|].
    constructor; [exact settled_IMPORT_LINE|exact Hb]. }
  assert (Hsplit : splitlines (join [newline] (a ++ IMPORT_LINE :: b))
                   = flat_map pieces a ++ IMPORT_LINE :: flat_map pieces b).
  { rewrite splitlines_join.
    - rewrite flat_map_app. cbn [flat_map]. rewrite pieces_IMPORT_LINE.
      reflexivity.
    - eapply Forall_impl; [exact Hall|]. intros x (H & _). exact H.
    - eapply Forall_impl; [exact Hall|]. intros x (_ & H & _). exact H.
    - exact Hlast. }
  assert (Hjoin : join [newline]
                    (splitlines (join [newline] (a ++ IMPORT_LINE :: b)))
                  = join [newline] (a ++ IMPORT_LINE :: b)).
  { apply join_splitlines.
    - apply forallb_join; [reflexivity|].
      eapply Forall_impl; [exact Hall|]. intros x (H & _). exact H.
    - destruct (last (a ++ IMPORT_LINE :: b)) as [x|] eqn:El.
      + pose proof (Hlast x eq_refl) as Hx.
        apply last_Some in El as [ls' El]. rewrite El.
        rewrite last_join by exact Hx.
        rewrite El in Hall. apply Forall_app in Hall as [_ Hall].
        inversion Hall as [|? ? (_ & H & _) _]; subst. exact H.
      + apply last_None in El. destruct a; discriminate. }
  unfold patch_file. rewrite Hsplit.
  rewrite (stable_run mc None c' _ Hst false 0).
  cbn [dirty patched fst snd].
  rewrite normalise_imports_fixed by assumption.
  destruct (import_indices (flat_map pieces a
                            ++ IMPORT_LINE :: flat_map pieces b)) eqn:Hi.
  - exfalso. apply (import_indices_from_nil 0) in Hi.
    rewrite count_imports_app, count_imports_cons, is_import_IMPORT_LINE in Hi.
    lia.
  - simpl. rewrite <- Hsplit, Hjoin. reflexivity.
Qed.

Lemma second_run_fixed (mc : gmap (str * str) Constraints) (text : str) :
  map_Forall (fun _ c => wf c) mc ->
  plain_file text ->
  patch_file mc (patched_text mc text)
  = ((patch_file mc text).1, 0).
Proof.
  intros Hmc [Hplain Hlast].
  destruct (run_settles mc (splitlines text) (PState None false 0) Hmc Hplain
              (splitlines_no_break text)) as [Hst Hset].
  assert (Hone : (patched_text mc text = text /\ patch_file mc text = (None, 0))
                 \/ exists a b c',
                      (patch_file mc text).1
                      = Some (join [newline] (a ++ IMPORT_LINE :: b))
                      /\ Forall settled a /\ Forall settled b
                      /\ count_imports (flat_map pieces a) = 0
                      /\ count_imports (flat_map pieces b) = 0
                      /\ stable mc None (flat_map pieces a
                                         ++ IMPORT_LINE :: flat_map pieces b) c'
                      /\ (forall x, last (a ++ IMPORT_LINE :: b) = Some x ->
                                    x <> [])).
  { unfold patched_text, patch_file.
    pose proof (patch_lines_clean mc (splitlines text) (PState None false 0))
      as Hclean.
    destruct (patch_lines mc (PState None false 0) (splitlines text))
      as [st1 ls1]. cbn [fst snd ctx patched] in *.
    destruct (dirty st1 || negb (bool_decide (import_indices ls1 = [])))
      eqn:Hw.
    - right.
      assert (Hw' : import_indices ls1 <> [] \/ dirty st1 = true).
      { apply orb_true_iff in Hw as [Hw|Hw]; [right; exact Hw|left].
        apply negb_true_iff, bool_decide_eq_false in Hw. exact Hw. }
      assert (Hlast1 : forall y, last ls1 = Some y ->
                                 y <> [] /\ is_import y = false).
      { intros y Hy.
        destruct (Forall2_last_r _ _ _ y Hset Hy) as (l & Hl & _ & [->|Hr]).
        - apply Hlast, Hl.
        - exact Hr. }
      destruct (normalised_settled mc (dirty st1) ls1 None (ctx st1)
                  (Forall2_settled _ _ Hset) Hst Hlast1 Hw')
        as (a & b & -> & Ha & Hb & Hca & Hcb & Hstab & Hl).
      exists a, b, (ctx st1). split_and!; auto.
    - left. apply orb_false_iff in Hw as [Hw _].
      rewrite (Hclean Hw). split; reflexivity. }
  destruct Hone as [[E1 E2]|(a & b & c' & E & Ha & Hb & Hca & Hcb & Hstab & Hl)].
  - rewrite E1, E2. reflexivity.
  - unfold patched_text. rewrite E. cbn [default from_option].
    apply (settled_file_fixed mc a b c'); assumption.
Qed.

(** X14. A second run over files the tool has already treated changes no
    file and counts no field, whatever the source model is, when every line
    of every file is plain (it holds no semicolon, or its semicolons all stand
    at its end and it holds no opening brace) and the last line of every file
    is neither empty nor an import of the validation schema. *)
Theorem rerun_changes_nothing (smithy protos : list str) :
  Forall plain_file protos ->
  run smithy (run smithy protos).1
  = ((run smithy protos).1, (0, length protos)).
Proof.
  intros Hp. unfold run. cbn [fst].
  assert (Hmc : map_Forall (fun _ c => wf c) (member_constraints smithy))
    by exact (member_constraints_inv wf gather_constraints_wf merge_wf smithy).
  generalize dependent (member_constraints smithy). intros mc Hmc.
  rewrite !length_map.
  induction Hp as [|t ts Ht _ IH]; [reflexivity|].
  cbn [map foldr length].
  pose proof (second_run_fixed mc t Hmc Ht) as E.
  injection IH as IH1 IH2.
  rewrite IH1, IH2, E. cbn [fst snd].
  unfold patched_text at 1. rewrite E. cbn [fst snd Nat.add].
  unfold patched_text. destruct (patch_file mc t).1; reflexivity.
Qed.

Lemma rerun_changes_nothing_witness :
  Forall plain_file [IdempotentSample.proto]
  /\ run [RerunSample.smithy]
         (run [RerunSample.smithy] [IdempotentSample.proto]).1
     = ([IdempotentSample.once], (0, 1))
  /\ IdempotentSample.once <> IdempotentSample.proto.
Proof.
  assert (Hp : Forall plain_file [IdempotentSample.proto]).
  { constructor; [|constructor]. split.
    - let v := eval vm_compute in (splitlines IdempotentSample.proto) in
      assert (E : splitlines IdempotentSample.proto = v)
        by (vm_compute; reflexivity).
      rewrite E. repeat (constructor; [vm_compute; reflexivity|]).
      constructor.
    - intros y E. vm_compute in E. injection E as <-.
      split; [discriminate|vm_compute; reflexivity]. }
  split; [exact Hp|]. split.
  - etransitivity;
      [exact (rerun_changes_nothing [RerunSample.smithy]
                [IdempotentSample.proto] Hp)|].
    vm_compute. reflexivity.
  - intros E. apply (f_equal length) in E. vm_compute in E. discriminate.
Defined.

(** * The keys of the two maps *)

Lemma fold_left_inv {A B} (I : A -> Prop) (f : A -> B -> A) (l : list B) (a : A) :
  I a -> (forall x a', x ∈ l -> I a' -> I (f a' x)) -> I (fold_left f l a).
Proof.
  revert a. induction l as [|x l IH]; intros a Ha Hf; simpl; [exact Ha|].
  apply IH.
  - apply Hf; [left|exact Ha].
  - intros y a' Hy. apply Hf. right. exact Hy.
Qed.

(** A group over [\w+] binds a non-empty word text. *)
Lemma grp_word (n : nat) (st st' : mstate) :
  matches (Grp n (Plus word)) st st' ->
  exists w, groups st' = (n, w) :: groups st /\ word_text w.
Proof.
  intros H. apply matches_grp_inv in H as (st1 & Hm & ->).
  pose proof (matches_group_free _ _ _ Hm eq_refl) as Hg.
  apply (matches_consumes (fun c => is_word c = true)) in Hm
    as (w & E & F & N); [|simpl; auto].
  exists w. unfold set_group. cbn [groups].
  rewrite E, length_app, Nat.add_sub, take_app_length, Hg.
  split; [reflexivity|]. split; [apply N; reflexivity|].
  apply forallb_forall. intros c Hc.
  rewrite Forall_forall in F. apply F, list_elem_of_In, Hc.
Qed.

Lemma seqs_grp_word (head tail : list regex) (n : nat) (st st' : mstate) :
  matches (seqs (head ++ Grp n (Plus word) :: tail)) st st' ->
  group_free (seqs tail) = true ->
  exists w, assoc n (groups st') = Some w /\ word_text w.
Proof.
  intros H Hfree. apply matches_seqs_app in H as (mid & _ & H).
  cbn [seqs foldr] in H. apply matches_seq_inv in H as (s1 & Hg & Ht).
  apply grp_word in Hg as (w & Eg & Hw).
  apply matches_group_free in Ht; [|exact Hfree].
  exists w. rewrite Ht, Eg. simpl. rewrite Nat.eqb_refl. auto.
Qed.

Lemma finditer_group_word (r : regex) (head tail : list regex) (n : nat)
    (txt : str) (m : rmatch_result) :
  r = seqs (head ++ Grp n (Plus word) :: tail) ->
  group_free (seqs tail) = true ->
  m ∈ finditer r txt -> word_text (group_text m n).
Proof.
  intros -> Hfree Hin.
  apply finditer_whole in Hin as (st0 & pre & post & _ & _ & _ & _ & _ & _ & Hm & Hg).
  apply seqs_grp_word in Hm as (w & Ew & Hw); [|exact Hfree].
  unfold group_text, group. rewrite Hg, Ew. exact Hw.
Qed.

Lemma struct_name_word (txt : str) (m : rmatch_result) :
  m ∈ finditer RE_STRUCT txt -> word_text (group_text m 1).
Proof.
  apply (finditer_group_word RE_STRUCT
           [Bow; LitI "structure"; Plus space] [Star space; Lit "{"] 1);
    reflexivity.
Qed.

Lemma string_alias_name_word (txt : str) (m : rmatch_result) :
  m ∈ finditer RE_STRING_ALIAS txt -> word_text (group_text m 1).
Proof.
  apply (finditer_group_word RE_STRING_ALIAS
           [Bow; LitI "string"; Plus space] [Bow] 1); reflexivity.
Qed.

Lemma list_alias_name_word (txt : str) (m : rmatch_result) :
  m ∈ finditer RE_LIST_ALIAS txt -> word_text (group_text m 1).
Proof.
  apply (finditer_group_word RE_LIST_ALIAS
           [Bow; LitI "list"; Plus space] [Star space; Lit "{"] 1);
    reflexivity.
Qed.

(** In a match of [MEMBER_RX] the groups [name] and [target] are bound to
    word texts. *)
Lemma member_groups_word (body : str) (m : rmatch_result) :
  m ∈ finditer MEMBER_RX body ->
  word_text (group_text m g_name) /\ word_text (group_text m g_target).
Proof.
  intros Hin.
  apply finditer_whole in Hin as (st0 & pre & post & _ & _ & _ & _ & _ & _ & Hm & Hg).
  change MEMBER_RX with
    (seqs ([Star space;
            Grp g_traits
              (Star (seqs [Lit "@"; Plus word;
                           Star (Cls (fun c => negb (chr_eqb newline c)));
                           Chr newline; Star space]));
            Star space]
           ++ Grp g_name (Plus word)
           :: ([Star space; Lit ":"; Star space]
               ++ [Grp g_target (Plus word)]))) in Hm.
  apply matches_seqs_app in Hm as (mid & _ & Hm).
  cbn [seqs foldr] in Hm. apply matches_seq_inv in Hm as (s1 & Hname & Hm).
  apply grp_word in Hname as (name & En & Hn).
  change (matches (seqs ([Star space; Lit ":"; Star space]
                         ++ [Grp g_target (Plus word)])) s1 (m_rest m)) in Hm.
  apply matches_seqs_app in Hm as (s2 & Hsep & Hm).
  apply matches_group_free in Hsep; [|reflexivity].
  cbn [seqs foldr] in Hm. apply matches_seq_inv in Hm as (s3 & Htarget & He).
  apply matches_eps_inv in He.
  apply grp_word in Htarget as (target & Et & Ht).
  unfold group_text, group. rewrite Hg, He, Et, Hsep, En. simpl. auto.
Qed.

Lemma fold_store_keys {K} `{Countable K} (Q : K -> Prop)
    (es : list (K * Constraints)) (m : gmap K Constraints) :
  map_Forall (fun k _ => Q k) m ->
  Forall (fun e => Q e.1) es ->
  map_Forall (fun k _ => Q k) (fold_left store es m).
Proof.
  revert m. induction es as [|e es IH]; intros m Hm Hes; simpl; auto.
  inversion Hes; subst. apply IH; auto.
  unfold store. apply map_Forall_insert_2; auto.
Qed.

Lemma alias_pass_keys (files : list str) :
  map_Forall (fun k _ => word_text k) (alias_pass files).
Proof.
  unfold alias_pass. apply fold_left_inv; [apply map_Forall_empty|].
  intros txt ac _ Hac. unfold alias_pass_file.
  apply fold_store_keys; [apply fold_store_keys; [exact Hac|]|].
  - apply Forall_forall. intros e He.
    apply list_elem_of_In, in_map_iff in He as (m & <- & Hm).
    apply (string_alias_name_word txt), list_elem_of_In, Hm.
  - apply Forall_forall. intros e He.
    apply list_elem_of_In, in_map_iff in He as (m & <- & Hm).
    apply (list_alias_name_word txt), list_elem_of_In, Hm.
Qed.

Lemma member_pass_keys (ac : gmap str Constraints) (files : list str) :
  map_Forall (fun k _ => word_text k.1 /\ word_text k.2) (member_pass ac files).
Proof.
  unfold member_pass. apply fold_left_inv; [apply map_Forall_empty|].
  intros txt mc _ Hmc. unfold member_pass_file.
  apply fold_left_inv; [exact Hmc|].
  intros st mc1 Hst Hmc1. unfold struct_step.
  apply fold_left_inv; [exact Hmc1|].
  intros mem mc2 Hmem Hmc2. unfold member_step.
  destruct (nonempty _); [|exact Hmc2].
  apply map_Forall_insert_2; [|exact Hmc2]. cbn [fst snd]. split.
  - apply (struct_name_word txt), Hst.
  - apply (member_groups_word _ _ Hmem).
Qed.

(** X15. Every key of the alias map is a non-empty text of word characters,
    and so are both parts, structure name and member name, of every key of
    the member map, whatever the source files are. *)
Theorem map_keys_are_words (files : list str) :
  (forall (alias : str) (c : Constraints),
      alias_pass files !! alias = Some c -> word_text alias)
  /\ (forall (struct name : str) (c : Constraints),
         member_constraints files !! (struct, name) = Some c ->
         word_text struct /\ word_text name).
Proof.
  split.
  - intros alias c Hc. exact (alias_pass_keys files alias c Hc).
  - intros struct name c Hc.
    exact (member_pass_keys (alias_pass files) files (struct, name) c Hc).
Qed.

(** * The extent of a structure body and of a list block *)

Lemma find_from_chr (c : ascii) (s : str) (pos : nat) :
  (exists a b, s = a ++ c :: b
               /\ forallb (fun d => negb (chr_eqb c d)) a = true
               /\ find_from [c] s pos = Z.of_nat (pos + length a))
  \/ (forallb (fun d => negb (chr_eqb c d)) s = true
      /\ find_from [c] s pos = (-1)%Z).
Proof.
  revert pos. induction s as [|d s IH]; intros pos.
  - right. split; reflexivity.
  - cbn [find_from startswith]. destruct (chr_eqb c d) eqn:Hcd.
    + left. apply chr_eqb_eq in Hcd. subst d. exists [], s.
      cbn [andb length app forallb]. rewrite Nat.add_0_r. auto.
    + cbn [andb].
      destruct (IH (S pos)) as [(a & b & -> & Ha & Hf)|[Hs Hf]].
      * left. exists (d :: a), b. cbn [forallb length app].
        rewrite Hcd, Ha, Hf. split_and!; auto; f_equal; lia.
      * right. cbn [forallb]. rewrite Hcd, Hs. auto.
Qed.

Lemma slice_bound_nat (len e : nat) :
  slice_bound len (Z.of_nat e) = Nat.min e len.
Proof.
  unfold slice_bound.
  destruct (Z.ltb_spec (Z.of_nat e) 0) as [Hlt|_]; [lia|].
  rewrite Nat2Z.id. reflexivity.
Qed.

Lemma slice_bound_last (len : nat) : slice_bound len (-1) = len - 1.
Proof. unfold slice_bound. change (-1 <? 0)%Z with true. cbv iota. lia. Qed.

Lemma drop_min {A} (l : list A) (e : nat) :
  drop (Nat.min e (length l)) l = drop e l.
Proof.
  destruct (Nat.le_gt_cases e (length l)) as [Hle|Hgt].
  - rewrite Nat.min_l by exact Hle. reflexivity.
  - rewrite Nat.min_r by lia. rewrite !drop_ge by lia. reflexivity.
Qed.

(** A structure body ends before the first closing brace after the header;
    when there is none, it is the rest of the text without its last
    character. *)
Lemma body_extent (txt : str) (e : nat) :
  let body := slice txt (Z.of_nat e) (find (lit "}") txt (Z.of_nat e)) in
  let rest := drop e txt in
  forallb not_close body = true
  /\ ((exists after, rest = body ++ "}"%char :: after)
      \/ (forallb not_close rest = true
          /\ body = take (length rest - 1) rest)).
Proof.
  cbv zeta. unfold slice, find. rewrite slice_bound_nat, drop_min.
  change (lit "}") with ["}"%char].
  assert (Hlen : Nat.min e (length txt) + length (drop e txt) = length txt).
  { rewrite length_drop. lia. }
  destruct (find_from_chr "}" (drop e txt) (Nat.min e (length txt)))
    as [(a & b & Er & Ha & Hf)|[Hr Hf]]; rewrite Hf.
  - rewrite slice_bound_nat. rewrite Er, length_app in Hlen. simpl in Hlen.
    rewrite Nat.min_l by lia.
    replace (Nat.min e (length txt) + length a - Nat.min e (length txt))
      with (length a) by lia.
    rewrite Er, take_app_length. split; [exact Ha|]. left. eauto.
  - rewrite slice_bound_last.
    replace (length txt - 1 - Nat.min e (length txt))
      with (length (drop e txt) - 1) by lia.
    split; [|right; split; [exact Hr|reflexivity]].
    apply forallb_forall. intros c Hc.
    rewrite forallb_forall in Hr. apply Hr.
    apply list_elem_of_In. apply list_elem_of_In in Hc.
    assert (Hin : c ∈ take (length (drop e txt) - 1) (drop e txt)
                      ++ drop (length (drop e txt) - 1) (drop e txt))
      by (apply elem_of_app; left; exact Hc).
    rewrite take_drop in Hin. exact Hin.
Qed.

(** X16. The member pass reads, as the body of a structure, the text between
    the end of the structure header and the first closing brace after it; the
    body holds no closing brace.  When no closing brace follows the header,
    the body is the rest of the file without its last character. *)
Theorem struct_body_extent (ac : gmap str Constraints) (txt : str)
    (mc : gmap (str * str) Constraints) (st : rmatch_result) :
  struct_step ac txt mc st
  = fold_left (member_step ac (group_text st 1))
              (finditer MEMBER_RX (struct_body txt st)) mc
  /\ forallb not_close (struct_body txt st) = true
  /\ ((exists after,
          drop (m_end st) txt = struct_body txt st ++ "}"%char :: after)
      \/ (forallb not_close (drop (m_end st) txt) = true
          /\ struct_body txt st
             = take (length (drop (m_end st) txt) - 1)
                    (drop (m_end st) txt))).
Proof.
  split; [reflexivity|]. exact (body_extent txt (m_end st)).
Qed.

(** Where a match found by [finditer] lies in the text. *)
Lemma finditer_extent (r : regex) (s : str) (m : rmatch_result) :
  m ∈ finditer r s ->
  exists st0 pre post,
    s = pre ++ whole s m ++ post
    /\ length pre = m_start m
    /\ m_end m = length pre + length (whole s m)
    /\ ahead st0 = whole s m ++ post
    /\ ahead (m_rest m) = post
    /\ matches r st0 (m_rest m).
Proof.
  intros Hin. unfold finditer in Hin.
  apply finditer_from_sound in Hin as (st0 & G & E & L & Hm & Hg & He).
  simpl in E.
  destruct (matches_passed _ _ _ Hm) as (w & Ew & Pw).
  assert (Hw : whole s m = w).
  { unfold whole. rewrite He, Pw, length_app, length_rev, <- L.
    replace (length w + length (passed st0) - length (passed st0))
      with (length w) by lia.
    rewrite <- E, Ew.
    rewrite drop_app_length' by (rewrite length_rev; reflexivity).
    apply take_app_length. }
  exists st0, (rev (passed st0)), (ahead (m_rest m)).
  rewrite Hw, He, Pw, length_app, !length_rev, <- Ew.
  split_and!; auto. lia.
Qed.

(** A match of [RE_LIST_ALIAS] ends with the opening brace. *)
Lemma list_alias_match_brace (st0 st' : mstate) :
  matches RE_LIST_ALIAS st0 st' ->
  exists w1, ahead st0 = w1 ++ "{"%char :: ahead st'.
Proof.
  intros Hm.
  change RE_LIST_ALIAS with
    (seqs ([Bow; LitI "list"; Plus space; Grp 1 (Plus word); Star space]
           ++ [Lit "{"])) in Hm.
  apply matches_seqs_app in Hm as (mid & Hhead & Hbrace).
  cbn [seqs foldr] in Hbrace.
  apply matches_seq_inv in Hbrace as (s1 & Hb & He).
  apply matches_eps_inv in He. subst s1.
  apply matches_lit1_inv in Hb as [Eb _].
  apply matches_passed in Hhead as (w1 & Ew & _).
  exists w1. rewrite Ew, Eb. reflexivity.
Qed.

Lemma find_here (c : ascii) (pre post : str) :
  find [c] (pre ++ c :: post) (Z.of_nat (length pre))
  = Z.of_nat (length pre).
Proof.
  unfold find. rewrite slice_bound_nat, length_app.
  rewrite Nat.min_l by lia. rewrite drop_app_length.
  cbn [find_from startswith]. rewrite chr_eqb_refl. reflexivity.
Qed.

Lemma slice_nat (s : str) (i j : nat) :
  i <= length s -> j <= length s ->
  slice s (Z.of_nat i) (Z.of_nat j) = take (j - i) (drop i s).
Proof.
  intros Hi Hj. unfold slice. rewrite !slice_bound_nat.
  rewrite !Nat.min_l by lia. reflexivity.
Qed.

Lemma list_block_extent (txt p post : str) (start : nat) :
  txt = p ++ "{"%char :: post -> start <= length p ->
  let brace_open := find (lit "{") txt (Z.of_nat (length p + 1) - 1) in
  let brace_close := find (lit "}") txt brace_open in
  let block :=
    if (brace_close =? -1)%Z then drop start txt
    else slice txt (Z.of_nat start) (brace_close + 1) in
  exists inner rest,
    post = inner ++ rest
    /\ forallb not_close inner = true
    /\ ((exists after,
            rest = "}"%char :: after
            /\ block = drop start p ++ "{"%char :: inner ++ ["}"%char])
        \/ (rest = [] /\ block = drop start p ++ "{"%char :: inner)).
Proof.
  intros Etxt Hstart. cbv zeta.
  change (lit "{") with ["{"%char]. change (lit "}") with ["}"%char].
  assert (H1 : find ["{"%char] txt (Z.of_nat (length p + 1) - 1)
               = Z.of_nat (length p)).
  { replace (Z.of_nat (length p + 1) - 1)%Z with (Z.of_nat (length p)) by lia.
    rewrite Etxt. apply find_here. }
  rewrite H1.
  assert (H2 : find ["}"%char] txt (Z.of_nat (length p))
               = find_from ["}"%char] ("{"%char :: post) (length p)).
  { unfold find. rewrite slice_bound_nat, Etxt, length_app.
    rewrite Nat.min_l by lia. rewrite drop_app_length. reflexivity. }
  rewrite H2.
  assert (Hdrop : forall q, drop start (p ++ q) = drop start p ++ q).
  { intros q. apply drop_app_le. exact Hstart. }
  destruct (find_from_chr "}" ("{"%char :: post) (length p))
    as [(a & b & Er & Ha & Hf)|[Hr Hf]]; rewrite Hf.
  - destruct a as [|c a]; [discriminate|]. injection Er as <- ->.
    cbn [forallb] in Ha. apply andb_true_iff in Ha as [_ Ha].
    exists a, ("}"%char :: b). split_and!; auto. left. exists b.
    split; [reflexivity|].
    destruct (Z.eqb_spec (Z.of_nat (length p + length ("{"%char :: a))) (-1))
      as [Hneg|_]; [lia|].
    replace (Z.of_nat (length p + length ("{"%char :: a)) + 1)%Z
      with (Z.of_nat (length p + length a + 2)) by (simpl; lia).
    rewrite slice_nat;
      [|rewrite Etxt, length_app; simpl; lia
       |rewrite Etxt, !length_app; simpl; rewrite length_app; simpl; lia].
    rewrite Etxt, Hdrop.
    replace (drop start p ++ "{"%char :: a ++ "}"%char :: b)
      with ((drop start p ++ "{"%char :: a ++ ["}"%char]) ++ b)
      by (rewrite <- !app_assoc; simpl; rewrite <- app_assoc; reflexivity).
    apply take_app_length'.
    rewrite !length_app, length_drop. simpl. rewrite length_app. simpl. lia.
  - cbn [forallb] in Hr. apply andb_true_iff in Hr as [_ Hr].
    exists post, []. rewrite app_nil_r. split_and!; auto. right.
    split; [reflexivity|]. cbn [Z.eqb].
    rewrite Etxt. apply Hdrop.
Qed.

(** X17. The constraints of a list alias are gathered from the block that
    starts where the alias is matched and ends with the first closing brace
    after its opening brace, or with the text when no closing brace follows:
    traits that stand before the alias are not part of the block. *)
Theorem list_alias_block_extent (txt : str) (m : rmatch_result) :
  m ∈ finditer RE_LIST_ALIAS txt ->
  exists pre inner post,
    txt = pre ++ whole txt m ++ inner ++ post
    /\ length pre = m_start m
    /\ forallb not_close inner = true
    /\ ((exists after,
            post = "}"%char :: after
            /\ list_alias_entry txt m
               = (group_text m 1,
                  gather_constraints (whole txt m ++ inner ++ ["}"%char])))
        \/ (post = []
            /\ list_alias_entry txt m
               = (group_text m 1,
                  gather_constraints (whole txt m ++ inner)))).
Proof.
  intros Hin.
  apply finditer_extent in Hin
    as (st0 & pre & post & Etxt & Hpre & Hend & Ha & Hp & Hm).
  apply list_alias_match_brace in Hm as (w1 & Ew).
  rewrite Ha, Hp in Ew.
  assert (Ew' : whole txt m = w1 ++ ["{"%char]).
  { apply (app_inv_tail post). rewrite <- app_assoc. exact Ew. }
  clear Ew. rename Ew' into Ew.
  assert (Etxt' : txt = (pre ++ w1) ++ "{"%char :: post).
  { rewrite Etxt at 1. rewrite Ew, <- !app_assoc. reflexivity. }
  assert (Hstart : length pre <= length (pre ++ w1))
    by (rewrite length_app; lia).
  pose proof (list_block_extent txt (pre ++ w1) post (length pre)
                Etxt' Hstart) as Hb.
  cbv zeta in Hb. rewrite drop_app_length in Hb.
  destruct Hb as (inner & rest & Epost & Hinner & Hcase).
  exists pre, inner, rest. unfold list_alias_entry.
  assert (Hend' : Z.of_nat (m_end m) = Z.of_nat (length (pre ++ w1) + 1)).
  { rewrite Hend, Ew, !length_app. simpl. lia. }
  rewrite Hend', <- Hpre. rewrite Ew in *.
  split; [rewrite Etxt at 1; rewrite Epost; reflexivity|].
  split; [reflexivity|]. split; [exact Hinner|].
  destruct Hcase as [(after & -> & Hblock)|[-> Hblock]]; [left|right].
  - exists after. split; [reflexivity|]. rewrite Hblock, <- !app_assoc.
    reflexivity.
  - split; [reflexivity|]. rewrite Hblock, <- !app_assoc. reflexivity.
Qed.

Lemma list_alias_block_extent_witness :
  exists m,
    m ∈ finditer RE_LIST_ALIAS ListSample.smithy
    /\ list_alias_entry ListSample.smithy m = (lit "Tags", ListSample.max_9)
    /\ exists pre inner post,
         ListSample.smithy = pre ++ whole ListSample.smithy m ++ inner ++ post
         /\ length pre = m_start m
         /\ forallb not_close inner = true
         /\ ((exists after,
                 post = "}"%char :: after
                 /\ list_alias_entry ListSample.smithy m
                    = (group_text m 1,
                       gather_constraints
                         (whole ListSample.smithy m ++ inner ++ ["}"%char])))
             \/ (post = []
                 /\ list_alias_entry ListSample.smithy m
                    = (group_text m 1,
                       gather_constraints
                         (whole ListSample.smithy m ++ inner)))).
Proof.
  let v := eval vm_compute in (finditer RE_LIST_ALIAS ListSample.smithy) in
  match v with
  | ?m0 :: _ =>
      assert (Hin : m0 ∈ finditer RE_LIST_ALIAS ListSample.smithy)
        by (apply list_elem_of_In; vm_compute; left; reflexivity);
      exists m0; split; [exact Hin|]; split;
        [vm_compute; reflexivity
        |exact (list_alias_block_extent ListSample.smithy m0 Hin)]
  end.
Defined.

(** * The annotation of a numeric field *)

Lemma contains_mid (p a b s : str) : s = a ++ p ++ b -> contains p s = true.
Proof. intros ->. apply contains_app. Qed.

(** C5. For a field that is not repeated and whose type name is not
    [string], the attributes are [<cat>.gte] for the numeric minimum and
    [<cat>.lte] for the numeric maximum, each when the bound is set, and
    [<cat>] follows from the type name alone: [double] for [double], [float]
    for [float], [int64] for a name that ends in [64], and [int32] for any
    other name.  The annotation the builder returns holds these attributes
    and nothing else: both on lines of their own when both bounds are set,
    the one that is set inline otherwise, and no annotation when none is; so
    it contains [(buf.validate.field).<cat>.gte = <min>] when the minimum is
    set and [(buf.validate.field).<cat>.lte = <max>] when the maximum is. *)
Theorem numeric_field_category (ftype : str) (c : Constraints) :
  ftype <> lit "string" -> wf c ->
  option_attrs ftype false c
  = bound_attrs (numcat ftype ++ lit ".gte") (numcat ftype ++ lit ".lte")
                (num_min c) (num_max c)
  /\ numeric_category ftype (numcat ftype)
  /\ build_option ftype false c
     = match num_min c, num_max c with
       | Some lo, Some hi =>
           lit " [" ++ [newline]
           ++ lit "  (buf.validate.field)." ++ numcat ftype ++ lit ".gte = "
           ++ lo ++ lit "," ++ [newline]
           ++ lit "  (buf.validate.field)." ++ numcat ftype ++ lit ".lte = "
           ++ hi ++ [newline] ++ lit "]"
       | Some lo, None =>
           lit " [(buf.validate.field)." ++ numcat ftype ++ lit ".gte = "
           ++ lo ++ lit ")]"
       | None, Some hi =>
           lit " [(buf.validate.field)." ++ numcat ftype ++ lit ".lte = "
           ++ hi ++ lit ")]"
       | None, None => []
       end
  /\ (forall lo : str,
         num_min c = Some lo ->
         contains (lit "(buf.validate.field)." ++ numcat ftype
                   ++ lit ".gte = " ++ lo)
                  (build_option ftype false c) = true)
  /\ (forall hi : str,
         num_max c = Some hi ->
         contains (lit "(buf.validate.field)." ++ numcat ftype
                   ++ lit ".lte = " ++ hi)
                  (build_option ftype false c) = true).
Proof.
  intros Hs Hwf.
  assert (E : option_attrs ftype false c
              = bound_attrs (numcat ftype ++ lit ".gte")
                            (numcat ftype ++ lit ".lte")
                            (num_min c) (num_max c)).
  { destruct Hwf as [_ _ H3 H4 _ _]. unfold option_attrs, bound_attrs.
    apply str_eqb_neq in Hs. rewrite Hs, !bound_attr_wf by assumption.
    reflexivity. }
  destruct (option_text_format ftype false c Hwf) as (T1 & _ & T2 & _).
  assert (T : build_option ftype false c
     = match num_min c, num_max c with
       | Some lo, Some hi =>
           lit " [" ++ [newline]
           ++ lit "  (buf.validate.field)." ++ numcat ftype ++ lit ".gte = "
           ++ lo ++ lit "," ++ [newline]
           ++ lit "  (buf.validate.field)." ++ numcat ftype ++ lit ".lte = "
           ++ hi ++ [newline] ++ lit "]"
       | Some lo, None =>
           lit " [(buf.validate.field)." ++ numcat ftype ++ lit ".gte = "
           ++ lo ++ lit ")]"
       | None, Some hi =>
           lit " [(buf.validate.field)." ++ numcat ftype ++ lit ".lte = "
           ++ hi ++ lit ")]"
       | None, None => []
       end).
  { destruct (num_min c) as [lo|], (num_max c) as [hi|];
      unfold bound_attrs, attr_text in E; cbn [from_option app] in E.
    - rewrite (T2 _ _ E), <- !app_assoc. reflexivity.
    - rewrite (T1 _ E). unfold field_prefix. rewrite <- !app_assoc.
      reflexivity.
    - rewrite (T1 _ E). unfold field_prefix. rewrite <- !app_assoc.
      reflexivity.
    - unfold build_option. rewrite E. reflexivity. }
  split; [exact E|]. split; [apply numcat_spec|]. split; [exact T|].
  split.
  - intros lo Hlo. rewrite T, Hlo. destruct (num_max c) as [hi|].
    + apply (contains_mid _ (lit " [" ++ [newline] ++ lit "  ")
               (lit "," ++ [newline]
                ++ lit "  (buf.validate.field)." ++ numcat ftype
                ++ lit ".lte = " ++ hi ++ [newline] ++ lit "]")).
      rewrite <- !app_assoc. reflexivity.
    + apply (contains_mid _ (lit " [") (lit ")]")).
      rewrite <- !app_assoc. reflexivity.
  - intros hi Hhi. rewrite T, Hhi. destruct (num_min c) as [lo|].
    + apply (contains_mid _ (lit " [" ++ [newline]
                             ++ lit "  (buf.validate.field)." ++ numcat ftype
                             ++ lit ".gte = " ++ lo ++ lit "," ++ [newline]
                             ++ lit "  ")
               ([newline] ++ lit "]")).
      rewrite <- !app_assoc. reflexivity.
    + apply (contains_mid _ (lit " [") (lit ")]")).
      rewrite <- !app_assoc. reflexivity.
Qed.

Lemma numeric_field_category_witness :
  build_option (lit "sint64") false NumericSample.range_cons
  = lit " [
  (buf.validate.field).int64.gte = -40,
  (buf.validate.field).int64.lte = 150
]"
  /\ contains (lit "(buf.validate.field).int64.gte = -40")
              (build_option (lit "sint64") false NumericSample.range_cons)
     = true
  /\ option_attrs (lit "sint64") false NumericSample.range_cons
     = [lit "int64.gte = -40"; lit "int64.lte = 150"].
Proof.
  assert (Hs : lit "sint64" <> lit "string") by discriminate.
  assert (Hwf : wf NumericSample.range_cons)
    by (apply wfb_spec; reflexivity).
  destruct (numeric_field_category (lit "sint64") NumericSample.range_cons
              Hs Hwf) as (Ha & _ & Ht & Hlo & _).
  split; [|split].
  - rewrite Ht. reflexivity.
  - exact (Hlo (lit "-40") eq_refl).
  - rewrite Ha. reflexivity.
Defined.

(** * The inline annotation *)

Lemma count_chr_app (c : ascii) (a b : str) :
  count_chr c (a ++ b) = count_chr c a + count_chr c b.
Proof. induction a as [|d a IH]; simpl; [reflexivity|]. rewrite IH. lia. Qed.

Lemma count_chr_none (q : ascii -> bool) (c : ascii) (s : str) :
  q c = false -> forallb q s = true -> count_chr c s = 0.
Proof.
  intros Hc. induction s as [|d s IH]; simpl; [reflexivity|].
  intros H. apply andb_true_iff in H as [Hd Hs]. rewrite (IH Hs).
  destruct (chr_eqb c d) eqn:E; [|reflexivity].
  apply chr_eqb_eq in E. subst d. congruence.
Qed.

Lemma attr_no_parens (a : str) :
  forallb attr_char a = true ->
  count_chr "(" a = 0 /\ count_chr ")" a = 0.
Proof.
  intros H. split; apply (count_chr_none attr_char); auto.
Qed.

(** C6. The text of an annotation, for a constraint whose bounds are numeric
    literals.  One attribute [a] is not set in the inline form of the
    specification, [ [((buf.validate.field).a)]]: the builder returns
    [ [(buf.validate.field).a)]], with one opening and two closing
    parentheses.  Two or three attributes are set one per line inside
    brackets, separated by a comma and a line break, each behind the prefix
    [(buf.validate.field).], with as many opening as closing parentheses.
    There are at most three attributes, and their order is fixed: the minimum
    bound, the maximum bound, and last, for a repeated field, the unique
    flag. *)
Theorem inline_option_unbalanced (ftype : str) (repeated : bool)
    (c : Constraints) :
  wf c ->
  (forall a : str,
      option_attrs ftype repeated c = [a] ->
      build_option ftype repeated c
      = lit " [(buf.validate.field)." ++ a ++ lit ")]"
      /\ build_option ftype repeated c <> inline_form a
      /\ count_chr "(" (build_option ftype repeated c) = 1
      /\ count_chr ")" (build_option ftype repeated c) = 2)
  /\ (2 <= length (option_attrs ftype repeated c) ->
      build_option ftype repeated c
      = lit " [" ++ [newline] ++ lit "  "
        ++ join (lit "," ++ [newline] ++ lit "  ")
                (map (fun a => field_prefix ++ a)
                     (option_attrs ftype repeated c))
        ++ [newline] ++ lit "]"
      /\ count_chr "(" (build_option ftype repeated c)
         = length (option_attrs ftype repeated c)
      /\ count_chr ")" (build_option ftype repeated c)
         = length (option_attrs ftype repeated c))
  /\ length (option_attrs ftype repeated c) <= 3
  /\ (exists kmin kmax lo hi,
         bound_keys ftype kmin kmax
         /\ option_attrs ftype repeated c
            = bound_attrs kmin kmax lo hi
              ++ (if repeated && unique c
                  then [lit "repeated.unique = true"] else [])).
Proof.
  intros Hwf.
  destruct (option_text_format ftype repeated c Hwf)
    as (T1 & Tn & T2 & T3 & Hlen & Hord).
  pose proof (option_attrs_attr_char ftype repeated c Hwf) as Hchars.
  split; [|split; [|split; [exact Hlen|exact Hord]]].
  - intros a Ha. rewrite Ha in Hchars.
    apply Forall_singleton, attr_no_parens in Hchars as [Ho Hc].
    assert (Ht : build_option ftype repeated c
                 = lit " [(buf.validate.field)." ++ a ++ lit ")]").
    { rewrite (T1 a Ha). reflexivity. }
    rewrite Ht. split; [reflexivity|]. split; [|split].
    + intros E. apply (f_equal (take 4)) in E. discriminate E.
    + rewrite !count_chr_app, Ho. reflexivity.
    + rewrite !count_chr_app, Hc. reflexivity.
  - intros H2. split; [exact (Tn H2)|].
    destruct (option_attrs ftype repeated c) as [|a [|b [|d [|e l]]]] eqn:Ha;
      simpl in H2, Hlen; try lia.
    + rewrite (T2 a b eq_refl).
      inversion Hchars as [|? ? Ca Hrest]; subst.
      inversion Hrest as [|? ? Cb _]; subst.
      apply attr_no_parens in Ca as [Oa Ca], Cb as [Ob Cb].
      rewrite !count_chr_app, Oa, Ob, Ca, Cb. split; reflexivity.
    + rewrite (T3 a b d eq_refl).
      inversion Hchars as [|? ? Ca Hrest]; subst.
      inversion Hrest as [|? ? Cb Hrest']; subst.
      inversion Hrest' as [|? ? Cd _]; subst.
      apply attr_no_parens in Ca as [Oa Ca], Cb as [Ob Cb], Cd as [Od Cd].
      rewrite !count_chr_app, Oa, Ob, Ca, Cb, Od, Cd. split; reflexivity.
Qed.

Lemma inline_option_unbalanced_witness :
  build_option (lit "string") false Sample.direct_cons
  = lit " [(buf.validate.field).string.max_len = 5)]"
  /\ build_option (lit "string") false Sample.direct_cons
     <> inline_form (lit "string.max_len = 5")
  /\ inline_form (lit "string.max_len = 5")
     = lit " [((buf.validate.field).string.max_len = 5)]".
Proof.
  assert (Hwf : wf Sample.direct_cons) by (apply wfb_spec; reflexivity).
  destruct (proj1 (inline_option_unbalanced (lit "string") false
                     Sample.direct_cons Hwf)
                  (lit "string.max_len = 5") eq_refl) as (Ht & Hne & _).
  split; [exact Ht|]. split; [exact Hne|reflexivity].
Defined.

(** * An import line that ends in a blank *)

Lemma count_import_lines_app (a b : list str) :
  count_import_lines (a ++ b) = count_import_lines a + count_import_lines b.
Proof.
  unfold count_import_lines. rewrite List.filter_app, length_app. reflexivity.
Qed.

Lemma inserted_import_is_counted (lines : list str) :
  import_indices lines = [] ->
  count_import_lines (normalise_imports true lines)
  = S (count_import_lines lines).
Proof.
  intros Hnone. unfold normalise_imports. rewrite Hnone.
  unfold list_insert_at.
  generalize (if header_first lines then 2 else 1). intros i.
  rewrite <- (take_drop i lines) at 3.
  rewrite !count_import_lines_app.
  change (count_import_lines (IMPORT_LINE :: drop i lines))
    with (S (count_import_lines (drop i lines))).
  lia.
Qed.

(** C4. A line that holds the import of the validation library and ends in a
    blank is an import line for the repository's test, and is none for the
    normalisation, whose pattern must match the whole line.  For the file of
    [TrailingBlankSample], which holds one such line and one constrained
    field, the tool writes a file with two import lines: the canonical line,
    inserted at index 1, and the line that was there.  In general, when no
    line matches the pattern and the file is dirty, the normalisation adds one
    import line to those the file already has. *)
Theorem trailing_blank_import_is_doubled :
  count_import_lines (splitlines TrailingBlankSample.proto) = 1
  /\ count_imports (splitlines TrailingBlankSample.proto) = 0
  /\ patched_text RerunSample.members TrailingBlankSample.proto
     = TrailingBlankSample.expected
  /\ count_import_lines (splitlines TrailingBlankSample.expected) = 2
  /\ (forall lines : list str,
         import_indices lines = [] ->
         count_import_lines (normalise_imports true lines)
         = S (count_import_lines lines)).
Proof.
  split_and!; [vm_compute; reflexivity..|exact inserted_import_is_counted].
Qed.
